(** * spine-ts-demo: bounds fitting, grid layout and render fallback

    A shallow embedding of the geometry helpers of
    [src/components/SpineCanvas.tsx] (the three revisions of the file that
    the repository carries) and of the fallback logic of
    [src/components/SpineRenderer.tsx], with the properties stated about
    them.

    Numbers.  A JavaScript number is modelled by [num]: [NaN], the two
    infinities, or a finite value carried as a rational.  Comparisons,
    [Math.min], [Math.max], [isFinite] and the arithmetic on the special
    values follow IEEE 754 as JavaScript exposes it.  Arithmetic on finite
    values is exact: binary64 rounding and overflow, and the sign of zero,
    are not part of the model, except for the product that [Math.floor]
    cuts for the size of the canvas, where the last bit decides: it is
    rounded as the machine rounds it ([Binary64]).  Every finite result
    is stored reduced ([Qred]), so that equal results are equal terms. *)

From Stdlib Require Import ZArith QArith Qround Qreduction Lqa Lia.
From Stdlib Require Import List Bool String Ascii.
From Stdlib Require Import DecimalString DecimalNat.
Import ListNotations.

Local Open Scope Q_scope.

(* ------------------------------------------------------------------ *)
(** ** JavaScript numbers *)

Module JS.

Inductive num : Type :=
| NaN
| NegInf
| PosInf
| Fin (q : Q).

Definition of_Z (z : Z) : num := Fin (inject_Z z).

(** Global [isFinite]. *)
Definition isFinite (x : num) : bool :=
  match x with
  | Fin _ => true
  | _ => false
  end.

Definition Qltb (a b : Q) : bool := negb (Qle_bool b a).

(** [x < y]; false as soon as one side is [NaN]. *)
Definition lt (x y : num) : bool :=
  match x, y with
  | NaN, _ | _, NaN => false
  | _, NegInf => false
  | NegInf, _ => true
  | PosInf, _ => false
  | Fin _, PosInf => true
  | Fin a, Fin b => Qltb a b
  end.

(** [x > y]. *)
Definition gt (x y : num) : bool := lt y x.

(** [x === y] on numbers. *)
Definition strict_eq (x y : num) : bool :=
  match x, y with
  | NegInf, NegInf => true
  | PosInf, PosInf => true
  | Fin a, Fin b => Qeq_bool a b
  | _, _ => false
  end.

(** [Math.min(x, y)] and [Math.max(x, y)]: [NaN] if either argument is. *)
Definition Math_min (x y : num) : num :=
  match x, y with
  | NaN, _ | _, NaN => NaN
  | _, _ => if lt y x then y else x
  end.

Definition Math_max (x y : num) : num :=
  match x, y with
  | NaN, _ | _, NaN => NaN
  | _, _ => if lt x y then y else x
  end.

Definition Qsign_pos (a : Q) : bool := Qltb 0 a.
Definition Qsign_neg (a : Q) : bool := Qltb a 0.

Definition neg (x : num) : num :=
  match x with
  | NaN => NaN
  | NegInf => PosInf
  | PosInf => NegInf
  | Fin a => Fin (Qred (- a))
  end.

(** [x + y]. *)
Definition add (x y : num) : num :=
  match x, y with
  | NaN, _ | _, NaN => NaN
  | PosInf, NegInf | NegInf, PosInf => NaN
  | PosInf, _ | _, PosInf => PosInf
  | NegInf, _ | _, NegInf => NegInf
  | Fin a, Fin b => Fin (Qred (a + b))
  end.

(** [x - y]. *)
Definition sub (x y : num) : num :=
  match x, y with
  | NaN, _ | _, NaN => NaN
  | PosInf, PosInf | NegInf, NegInf => NaN
  | PosInf, _ | _, NegInf => PosInf
  | NegInf, _ | _, PosInf => NegInf
  | Fin a, Fin b => Fin (Qred (a - b))
  end.

(** Infinity scaled by the sign of a finite factor ([0 * Infinity] is
    [NaN]). *)
Definition inf_times (pos_inf : bool) (a : Q) : num :=
  if Qsign_pos a then (if pos_inf then PosInf else NegInf)
  else if Qsign_neg a then (if pos_inf then NegInf else PosInf)
  else NaN.

(** [x * y]. *)
Definition mul (x y : num) : num :=
  match x, y with
  | NaN, _ | _, NaN => NaN
  | PosInf, PosInf | NegInf, NegInf => PosInf
  | PosInf, NegInf | NegInf, PosInf => NegInf
  | PosInf, Fin a | Fin a, PosInf => inf_times true a
  | NegInf, Fin a | Fin a, NegInf => inf_times false a
  | Fin a, Fin b => Fin (Qred (a * b))
  end.

(** [x / y]; a finite value over zero is an infinity of the sign of the
    numerator, [0 / 0] is [NaN]. *)
Definition div (x y : num) : num :=
  match x, y with
  | NaN, _ | _, NaN => NaN
  | PosInf, Fin b => if Qsign_neg b then NegInf else PosInf
  | NegInf, Fin b => if Qsign_neg b then PosInf else NegInf
  | Fin _, PosInf | Fin _, NegInf => Fin 0
  | Fin a, Fin b =>
      if Qeq_bool b 0 then inf_times true a else Fin (Qred (a / b))
  | _, _ => NaN
  end.

End JS.

Import JS.

(* ------------------------------------------------------------------ *)
(** ** The posed skeleton, as the bounds code reads it *)

(** A slot's attachment with the world vertices that the runtime's
    [computeWorldVertices] writes for the current pose.  A region
    attachment always yields four corners (a [Float32Array(8)]); a mesh
    yields [worldVerticesLength] numbers, read two at a time. *)
Inductive attachment : Type :=
| RegionAttachment (p0 p1 p2 p3 : num * num)
| MeshAttachment (worldVertices : list num)
| OtherAttachment.

(** [slot.getAttachment()] may be null. *)
Definition slot : Type := option attachment.

(** The [for (j = 0; j < v.length; j += 2)] reading of a flat vertex
    array: [v[j]], [v[j + 1]].  Reading past the end of a typed array
    gives [undefined], which behaves as [NaN] under [isFinite], [<]
    and [>]. *)
Fixpoint pairs (v : list num) : list (num * num) :=
  match v with
  | [] => []
  | [x] => [(x, NaN)]
  | x :: y :: rest => (x, y) :: pairs rest
  end.

Definition region_points (p0 p1 p2 p3 : num * num) : list (num * num) :=
  [p0; p1; p2; p3].

(** The four running extrema of the scan. *)
Record extrema : Type := mkExtrema {
  minX : num; minY : num; maxX : num; maxY : num
}.

Definition finite_point (p : num * num) : bool :=
  isFinite (fst p) && isFinite (snd p).

(* ------------------------------------------------------------------ *)
(** ** SpineCanvas.tsx, current revision: [getBounds], [fitCamera],
       the watchdog of [loopFrame] *)

Module SpineCanvas.

Definition start : extrema := mkExtrema PosInf PosInf NegInf NegInf.

(** The four [Math.min] / [Math.max] updates of one vertex. *)
Definition extend (e : extrema) (p : num * num) : extrema :=
  mkExtrema (Math_min (minX e) (fst p)) (Math_min (minY e) (snd p))
            (Math_max (maxX e) (fst p)) (Math_max (maxY e) (snd p)).

(** Mesh vertices are taken only when both coordinates are finite. *)
Definition extend_if_finite (e : extrema) (p : num * num) : extrema :=
  if finite_point p then extend e p else e.

(** One iteration of the loop over [s.slots]. *)
Definition scan_slot (e : extrema) (s : slot) : extrema :=
  match s with
  | None => e
  | Some (RegionAttachment p0 p1 p2 p3) =>
      fold_left extend (region_points p0 p1 p2 p3) e
  | Some (MeshAttachment v) => fold_left extend_if_finite (pairs v) e
  | Some OtherAttachment => e
  end.

Definition scan (slots : list slot) : extrema := fold_left scan_slot slots start.

Definition hasInvalidBounds (e : extrema) : bool :=
  negb (isFinite (minX e)) || negb (isFinite (minY e)) ||
  negb (isFinite (maxX e)) || negb (isFinite (maxY e)) ||
  gt (minX e) (maxX e) || gt (minY e) (maxY e).

Definition default_box : extrema :=
  mkExtrema (of_Z (-100)) (of_Z (-100)) (of_Z 100) (of_Z 100).

Record bounds : Type := mkBounds {
  w : num; h : num; cx : num; cy : num; box : extrema
}.

Definition getBounds (slots : list slot) : bounds :=
  let e := scan slots in
  let e := if hasInvalidBounds e then default_box else e in
  let w := Math_max (of_Z 50) (sub (maxX e) (minX e)) in
  let h := Math_max (of_Z 50) (sub (maxY e) (minY e)) in
  let cx := add (minX e) (div w (of_Z 2)) in
  let cy := add (minY e) (div h (of_Z 2)) in
  mkBounds w h cx cy e.

(** The fields of [renderer.camera] that [fitCamera] assigns. *)
Record camera : Type := mkCamera {
  zoom : num; positionX : num; positionY : num;
  viewportWidth : num; viewportHeight : num
}.

Definition default_padding : num := Fin (3 # 2).
Definition minSize : num := of_Z 100.
Definition zoom_lo : num := Fin (5 # 1000).
Definition zoom_hi : num := of_Z 5.

Definition fitCamera (slots : list slot) (cssW cssH padding : num) : camera :=
  let b := getBounds slots in
  let w := Math_max minSize (w b) in
  let h := Math_max minSize (h b) in
  let zoomX := div (mul w padding) cssW in
  let zoomY := div (mul h padding) cssH in
  let rawZoom := Math_max zoomX zoomY in
  let zoom := Math_min zoom_hi (Math_max zoom_lo rawZoom) in
  mkCamera zoom (cx b) (cy b) cssW cssH.

(** *** The watchdog of the render loop *)

Definition watchdogLimitMs : Q := 600.

(** [!isFinite(b.w) || !isFinite(b.h) || b.w < 1e-6 || b.h < 1e-6]. *)
Definition invisible (b : bounds) : bool :=
  negb (isFinite (w b)) || negb (isFinite (h b)) ||
  lt (w b) (Fin (1 # 1000000)) || lt (h b) (Fin (1 # 1000000)).

(** The watchdog branch of [loopFrame].  [watchdogStart] is the closure
    variable, [now] the timestamp that [requestAnimationFrame] passes (a
    finite number of milliseconds).  The result is the new
    [watchdogStart] and whether [onError('no-visual')] was called. *)
Definition watchdog (invisible : bool) (watchdogStart now : Q) : Q * bool :=
  if invisible then
    if Qeq_bool watchdogStart 0 then (now, false)
    else if Qltb watchdogLimitMs (now - watchdogStart) then (0, true)
    else (watchdogStart, false)
  else (0, false).

(** One call of [loopFrame]: [pose] is the skeleton after this frame's
    update, or [None] while the refs are not set (early return). *)
Definition loopFrame (watchdogStart : Q) (now : Q) (pose : option (list slot))
  : Q * bool :=
  match pose with
  | None => (watchdogStart, false)
  | Some slots => watchdog (invisible (getBounds slots)) watchdogStart now
  end.

(** Successive frames: each is a timestamp and that frame's [invisible]
    flag.  The result lists, frame by frame, whether [onError] was
    called. *)
Fixpoint frames (watchdogStart : Q) (fs : list (Q * bool)) : list bool :=
  match fs with
  | [] => []
  | (now, inv) :: rest =>
      let r := watchdog inv watchdogStart now in
      snd r :: frames (fst r) rest
  end.

End SpineCanvas.

(* ------------------------------------------------------------------ *)
(** ** SpineCanvas.tsx, multi-skeleton revision: [computeAABB],
       [layoutGrid] *)

Module SpineCanvasGrid.

(** [skeleton.scaleX], [scaleY], [x], [y] are what [layoutGrid] assigns;
    [slots] is what [computeAABB] reads. *)
Record skeleton : Type := mkSkeleton {
  slots : list slot;
  scaleX : num; scaleY : num; x : num; y : num
}.

(** [Runtime.state] (the animation state) is not read by the layout. *)
Record Runtime : Type := mkRuntime { rt_skeleton : skeleton }.

Definition PADDING_RATIO : num := Fin (9 # 10).

Definition start : extrema := mkExtrema PosInf PosInf NegInf NegInf.

(** [if (x < minX) minX = x; if (y < minY) minY = y;
     if (x > maxX) maxX = x; if (y > maxY) maxY = y;] *)
Definition extend (e : extrema) (p : num * num) : extrema :=
  mkExtrema (if lt (fst p) (minX e) then fst p else minX e)
            (if lt (snd p) (minY e) then snd p else minY e)
            (if gt (fst p) (maxX e) then fst p else maxX e)
            (if gt (snd p) (maxY e) then snd p else maxY e).

Definition scan_slot (e : extrema) (s : slot) : extrema :=
  match s with
  | None => e
  | Some (RegionAttachment p0 p1 p2 p3) =>
      fold_left extend (region_points p0 p1 p2 p3) e
  | Some (MeshAttachment v) => fold_left extend (pairs v) e
  | Some OtherAttachment => e
  end.

Definition scan (sl : list slot) : extrema := fold_left scan_slot sl start.

Definition unit_box : extrema :=
  mkExtrema (of_Z 0) (of_Z 0) (of_Z 1) (of_Z 1).

Record aabb : Type := mkAabb { box : extrema; width : num; height : num }.

Definition computeAABB (sk : skeleton) : aabb :=
  let e := scan (slots sk) in
  let e := if strict_eq (minX e) PosInf then unit_box else e in
  mkAabb e (sub (maxX e) (minX e)) (sub (maxY e) (minY e)).

(** [Math.ceil(Math.sqrt(n))] for an array length [n]: the square root
    of a perfect square is exact, and otherwise lies strictly between two
    consecutive integers. *)
Definition ceil_sqrt (n : Z) : Z :=
  let s := Z.sqrt n in
  if (s * s =? n)%Z then s else (s + 1)%Z.

(** [Math.ceil(n / cols)]. *)
Definition ceil_quot (n cols : Z) : Z := Qceiling (inject_Z n / inject_Z cols).

(** The body of the loop of [layoutGrid] for index [i]. *)
Definition place (cols : Z) (cellW cellH : num) (i : Z) (rt : Runtime)
  : Runtime :=
  let cx := of_Z (i mod cols) in
  let cy := of_Z (i / cols) in
  let targetCx := add (mul cx cellW) (div cellW (of_Z 2)) in
  let targetCy := add (mul cy cellH) (div cellH (of_Z 2)) in
  let a := computeAABB (rt_skeleton rt) in
  let bw := Math_max (width a) (of_Z 1) in
  let bh := Math_max (height a) (of_Z 1) in
  let scale := mul (Math_min (div cellW bw) (div cellH bh)) PADDING_RATIO in
  let centerX := add (minX (box a)) (div bw (of_Z 2)) in
  let centerY := add (minY (box a)) (div bh (of_Z 2)) in
  mkRuntime
    (mkSkeleton (slots (rt_skeleton rt)) scale scale
       (sub targetCx (mul centerX scale))
       (sub targetCy (mul centerY scale))).

(** [for (let i = 0; i < runtimes.length; i++)], from index [i] on. *)
Fixpoint layout_from (cols : Z) (cellW cellH : num) (i : Z)
  (rts : list Runtime) : list Runtime :=
  match rts with
  | [] => []
  | rt :: rest =>
      place cols cellW cellH i rt :: layout_from cols cellW cellH (i + 1) rest
  end.

Definition grid_cols (n : Z) : Z := ceil_sqrt n.
Definition grid_rows (n : Z) : Z := ceil_quot n (grid_cols n).

(** [layoutGrid] updates the skeletons in place; the result is the array
    after the call.  Each runtime is a distinct object (one per
    [loadOneSkeleton]). *)
Definition layoutGrid (runtimes : list Runtime) (W H : num) : list Runtime :=
  match runtimes with
  | [] => runtimes
  | _ =>
      let n := Z.of_nat (List.length runtimes) in
      let cols := grid_cols n in
      let rows := grid_rows n in
      let cellW := div W (of_Z cols) in
      let cellH := div H (of_Z rows) in
      layout_from cols cellW cellH 0 runtimes
  end.

End SpineCanvasGrid.

(* ------------------------------------------------------------------ *)
(** ** SpineCanvas.tsx, [SkeletonBounds] revision *)

Module SpineCanvasSkeletonBounds.

Record bounds : Type := mkBounds { w : num; h : num; cx : num; cy : num }.

(** [b] is the runtime's [SkeletonBounds] after [b.update(s, true)]. *)
Definition getBounds (b : extrema) : bounds :=
  let w := Math_max (Fin (1 # 1000000)) (sub (maxX b) (minX b)) in
  let h := Math_max (Fin (1 # 1000000)) (sub (maxY b) (minY b)) in
  mkBounds w h (add (minX b) (div w (of_Z 2))) (add (minY b) (div h (of_Z 2))).

Definition default_padding : num := Fin (11 # 10).

Definition fitCamera (sb : extrema) (cssW cssH padding : num)
  : SpineCanvas.camera :=
  let b := getBounds sb in
  let zoomX := div (mul (w b) padding) cssW in
  let zoomY := div (mul (h b) padding) cssH in
  let zoom := Math_max zoomX zoomY in
  SpineCanvas.mkCamera zoom (cx b) (cy b) cssW cssH.

Definition invisible (b : bounds) : bool :=
  negb (isFinite (w b)) || negb (isFinite (h b)) ||
  lt (w b) (Fin (1 # 10000)) || lt (h b) (Fin (1 # 10000)).

(** The watchdog branch is the one of the current revision, fed with
    this revision's [invisible]. *)
Definition loopFrame (watchdogStart : Q) (now : Q) (pose : option extrema)
  : Q * bool :=
  match pose with
  | None => (watchdogStart, false)
  | Some sb =>
      SpineCanvas.watchdog (invisible (getBounds sb)) watchdogStart now
  end.

End SpineCanvasSkeletonBounds.

(* ------------------------------------------------------------------ *)
(** ** SpineRenderer.tsx: the fallback flag *)

Module SpineRenderer.

Inductive RenderMode : Type := player | webgl.

Definition RenderMode_eqb (a b : RenderMode) : bool :=
  match a, b with
  | player, player | webgl, webgl => true
  | _, _ => false
  end.

Record props : Type := mkProps {
  renderMode : RenderMode;
  enableAutoFallback : bool;
  skeletonPath : string;
  atlasPath : string
}.

(** [const [forcePlayer, setForcePlayer] = useState(false)]. *)
Record state : Type := mkState { forcePlayer : bool }.

Definition initial : state := mkState false.

Definition effectiveMode (p : props) (st : state) : RenderMode :=
  if RenderMode_eqb (renderMode p) webgl && enableAutoFallback p
     && forcePlayer st
  then player else renderMode p.

Definition mode_name (m : RenderMode) : string :=
  match m with
  | player => "player"
  | webgl => "webgl"
  end.

(** The [key] given to the child backend. *)
Definition key (p : props) (st : state) : string :=
  ((if forcePlayer st then "player" else mode_name (renderMode p))
     ++ ":" ++ skeletonPath p ++ ":" ++ atlasPath p)%string.

(** What a call of the handler does besides returning. *)
Inductive effect : Type :=
| ConsoleError
| ConsoleLog
| SetForcePlayer (b : bool).

(** The value a call evaluates to. *)
Inductive jsval : Type :=
| undefined
| boolean (b : bool).

(** [handleWebglError]: it has no [return] statement. *)
Definition handleWebglError (p : props) (st : state) : jsval * list effect :=
  (undefined,
   ConsoleError ::
   (if enableAutoFallback p && negb (forcePlayer st)
    then [ConsoleLog; SetForcePlayer true]
    else [])).

(** React applies the queued state updates before the next render. *)
Definition apply_effect (st : state) (e : effect) : state :=
  match e with
  | SetForcePlayer b => mkState b
  | _ => st
  end.

Definition is_switch (e : effect) : bool :=
  match e with
  | SetForcePlayer _ => true
  | _ => false
  end.

(** What can happen to a mounted [SpineRenderer]: the WebGL child calls
    [onError]; the parent renders it again with (possibly new) props, which
    keeps the hook state; or the parent unmounts it and mounts a fresh
    instance, which runs [useState(false)] again. *)
Inductive event : Type :=
| OnError
| Rerender (p : props)
| Remount (p : props).

Definition step (c : props * state) (e : event)
  : (props * state) * list effect :=
  match e with
  | OnError =>
      let r := handleWebglError (fst c) (snd c) in
      ((fst c, fold_left apply_effect (snd r) (snd c)), snd r)
  | Rerender p => ((p, snd c), [])
  | Remount p => ((p, initial), [])
  end.

(** A run: the final configuration and every effect, in order. *)
Fixpoint run (c : props * state) (es : list event)
  : (props * state) * list effect :=
  match es with
  | [] => (c, [])
  | e :: rest =>
      let r := step c e in
      let r' := run (fst r) rest in
      (fst r', snd r ++ snd r')
  end.

Definition switches (effs : list effect) : nat :=
  List.length (filter is_switch effs).

End SpineRenderer.

(* ------------------------------------------------------------------ *)
(** ** SpineRenderer.tsx with the canvas it renders *)

Module Preview.

(** A mounted [SpineRenderer] and its child.  [canvas] is the
    [watchdogStart] of the render loop of the mounted [SpineCanvas], or
    [None] when [SpineRenderer] renders [SpinePlayer] instead. *)
Record preview : Type := mkPreview {
  props : SpineRenderer.props;
  state : SpineRenderer.state;
  canvas : option Q
}.

(** What a render of [SpineRenderer] leaves: the player when
    [effectiveMode === 'player'], and otherwise the canvas with
    [onError={handleWebglError}].  [handleWebglError] is a new function
    at every render and [onError] is one of the dependencies of the
    effect that holds the render loop, so every render of the parent
    runs that effect again: its cleanup cancels the pending frame and
    its body starts a loop with [let watchdogStart = 0]. *)
Definition render (p : SpineRenderer.props) (st : SpineRenderer.state)
  : preview :=
  mkPreview p st
    (match SpineRenderer.effectiveMode p st with
     | SpineRenderer.player => None
     | SpineRenderer.webgl => Some 0
     end).

(** [useState(false)], then the first render. *)
Definition mount (p : SpineRenderer.props) : preview :=
  render p SpineRenderer.initial.

(** An animation frame of the canvas at time [now], or a render of the
    parent with (possibly new) props. *)
Inductive event (P : Type) : Type :=
| Frame (now : Q) (pose : option P)
| ParentRender (p : SpineRenderer.props).

Arguments Frame {P} now pose.
Arguments ParentRender {P} p.

(** One animation frame.  [loopFrame] is the frame callback of the
    revision of [SpineCanvas.tsx] at hand, taking [watchdogStart], the
    timestamp and the pose to the new [watchdogStart] and whether
    [onError('no-visual')] was called.  Without a canvas there is no
    loop.  A call of [onError] runs [handleWebglError] of the parent; when
    that requests a state update the parent renders again, which happens
    before the watchdog, back at zero, can call a second time. *)
Definition frame {P : Type} (loopFrame : Q -> Q -> option P -> Q * bool)
  (v : preview) (now : Q) (pose : option P)
  : preview * list SpineRenderer.effect :=
  match canvas v with
  | None => (v, [])
  | Some watchdogStart =>
      let r := loopFrame watchdogStart now pose in
      if snd r then
        let h := SpineRenderer.handleWebglError (props v) (state v) in
        if existsb SpineRenderer.is_switch (snd h)
        then (render (props v)
                (fold_left SpineRenderer.apply_effect (snd h) (state v)),
              snd h)
        else (mkPreview (props v) (state v) (Some (fst r)), snd h)
      else (mkPreview (props v) (state v) (Some (fst r)), [])
  end.

Definition step {P : Type} (loopFrame : Q -> Q -> option P -> Q * bool)
  (v : preview) (e : event P) : preview * list SpineRenderer.effect :=
  match e with
  | Frame now pose => frame loopFrame v now pose
  | ParentRender p => (render p (state v), [])
  end.

Fixpoint run {P : Type} (loopFrame : Q -> Q -> option P -> Q * bool)
  (v : preview) (es : list (event P))
  : preview * list SpineRenderer.effect :=
  match es with
  | [] => (v, [])
  | e :: rest =>
      let r := step loopFrame v e in
      let r' := run loopFrame (fst r) rest in
      (fst r', snd r ++ snd r')
  end.

(** Every call of [handleWebglError] logs one [console.error]. *)
Definition is_call (e : SpineRenderer.effect) : bool :=
  match e with
  | SpineRenderer.ConsoleError => true
  | _ => false
  end.

Definition calls (effs : list SpineRenderer.effect) : nat :=
  List.length (filter is_call effs).

(** [m] frames 100 ms apart from time [t] on, all of them with the
    pose [pose]. *)
Fixpoint sustained {P : Type} (pose : P) (t : Q) (m : nat) : list (event P) :=
  match m with
  | O => []
  | S m' => Frame t (Some pose) :: sustained pose (t + 100) m'
  end.

End Preview.

(* ------------------------------------------------------------------ *)
(** ** The notions of the specification *)

(** The vertices that a skeleton offers to the bounds scan, slot by
    slot: one vertex set per drawable attachment. *)
Definition slot_points (s : slot) : list (num * num) :=
  match s with
  | Some (RegionAttachment p0 p1 p2 p3) => region_points p0 p1 p2 p3
  | Some (MeshAttachment v) => pairs v
  | _ => []
  end.

Definition all_points (slots : list slot) : list (num * num) :=
  flat_map slot_points slots.

Definition finite_points (slots : list slot) : list (num * num) :=
  filter finite_point (all_points slots).

(** The corners of the region attachments only. *)
Definition region_corners (s : slot) : list (num * num) :=
  match s with
  | Some (RegionAttachment p0 p1 p2 p3) => region_points p0 p1 p2 p3
  | _ => []
  end.

(** [x0, y0, x1, y1] is the union bounding box of the points [pts]: it
    contains every point, and each side touches one. *)
Definition union_box (pts : list (num * num)) (x0 y0 x1 y1 : Q) : Prop :=
  (forall a b, In (Fin a, Fin b) pts ->
     x0 <= a /\ a <= x1 /\ y0 <= b /\ b <= y1) /\
  (exists b, In (Fin x0, b) pts) /\ (exists b, In (Fin x1, b) pts) /\
  (exists a, In (a, Fin y0) pts) /\ (exists a, In (a, Fin y1) pts).

(** [clamp(x, lo, hi)]. *)
Definition clamp (x lo hi : num) : num := Math_min hi (Math_max lo x).

(** The zoom of the specification's [fitCamera], on the width and height
    of the bounds as they are. *)
Definition spec_zoom (b : extrema) (vw vh paddingRatio lo hi : num) : num :=
  clamp (Math_max (div (mul (sub (maxX b) (minX b)) paddingRatio) vw)
                  (div (mul (sub (maxY b) (minY b)) paddingRatio) vh))
        lo hi.

(** The arithmetic midpoint of an interval. *)
Definition midpoint (lo hi : num) : num := div (add lo hi) (of_Z 2).

(** The scale of the specification's [layoutGrid], on the width and
    height of the shape as they are. *)
Definition spec_scale (a : SpineCanvasGrid.aabb) (cellW cellH : num) : num :=
  mul (Math_min (div cellW (SpineCanvasGrid.width a))
                (div cellH (SpineCanvasGrid.height a)))
      SpineCanvasGrid.PADDING_RATIO.

(** *** Invariants of the scan *)

(** A component that can no longer become a valid lower (upper) bound. *)
Definition stuck_lo (x : num) : Prop := x = NaN \/ x = NegInf.
Definition stuck_hi (x : num) : Prop := x = NaN \/ x = PosInf.

Definition stuck (e : extrema) : Prop :=
  stuck_lo (minX e) \/ stuck_hi (maxX e) \/
  stuck_lo (minY e) \/ stuck_hi (maxY e).

(** The extrema are finite, ordered, and are the union box of [seen]. *)
Definition covers (seen : list (num * num)) (e : extrema) : Prop :=
  exists x0 y0 x1 y1,
    e = mkExtrema (Fin x0) (Fin y0) (Fin x1) (Fin y1) /\
    x0 <= x1 /\ y0 <= y1 /\ union_box seen x0 y0 x1 y1.

(** *** Sample poses *)

(** A region attachment whose first corner has a [NaN] abscissa; its
    three other corners are finite. *)
Definition region_with_nan : list slot :=
  [Some (RegionAttachment (NaN, of_Z 0) (of_Z 0, of_Z 0)
                          (of_Z 10, of_Z 0) (of_Z 10, of_Z 10))].

(** The same four vertices carried by a mesh attachment. *)
Definition mesh_with_nan : list slot :=
  [Some (MeshAttachment [NaN; of_Z 0; of_Z 0; of_Z 0;
                         of_Z 10; of_Z 0; of_Z 10; of_Z 10])].

(** A mesh spanning the square from (0, 0) to (10, 10). *)
Definition small_mesh : list slot :=
  [Some (MeshAttachment [of_Z 0; of_Z 0; of_Z 10; of_Z 10])].

(** A mesh spanning the square from (0, 0) to (100, 100). *)
Definition large_mesh : list slot :=
  [Some (MeshAttachment [of_Z 0; of_Z 0; of_Z 100; of_Z 100])].

(** A runtime whose skeleton holds one mesh with the given world
    vertices, before any layout. *)
Definition mesh_runtime (v : list num) : SpineCanvasGrid.Runtime :=
  SpineCanvasGrid.mkRuntime
    (SpineCanvasGrid.mkSkeleton [Some (MeshAttachment v)]
       (of_Z 1) (of_Z 1) (of_Z 0) (of_Z 0)).

(** The two shapes of the end-to-end example: bounds [0, 0, 10, 10] and
    [0, 0, 20, 5]. *)
Definition shape1 : SpineCanvasGrid.Runtime :=
  mesh_runtime [of_Z 0; of_Z 0; of_Z 10; of_Z 10].
Definition shape2 : SpineCanvasGrid.Runtime :=
  mesh_runtime [of_Z 0; of_Z 0; of_Z 20; of_Z 5].

(** A shape half a unit wide and high. *)
Definition half_unit_shape : SpineCanvasGrid.Runtime :=
  mesh_runtime [of_Z 0; of_Z 0; Fin (1 # 2); Fin (1 # 2)].

(** The placement of the skeleton of [rt] at index [i] of [n] shapes in
    a [W] x [H] viewport, in closed form: cell [(i mod cols, i div cols)]
    of size [W / cols] x [H / rows], the scale taken on the width and
    height of the shape raised to at least 1, the centre of that raised
    box moved onto the centre of the cell. *)
Definition placement (n : Z) (W H : num) (i : Z)
  (rt : SpineCanvasGrid.Runtime) : SpineCanvasGrid.skeleton :=
  let cols := SpineCanvasGrid.grid_cols n in
  let rows := SpineCanvasGrid.grid_rows n in
  let cellW := div W (of_Z cols) in
  let cellH := div H (of_Z rows) in
  let a := SpineCanvasGrid.computeAABB (SpineCanvasGrid.rt_skeleton rt) in
  let bw := Math_max (SpineCanvasGrid.width a) (of_Z 1) in
  let bh := Math_max (SpineCanvasGrid.height a) (of_Z 1) in
  let scale :=
    mul (Math_min (div cellW bw) (div cellH bh))
        SpineCanvasGrid.PADDING_RATIO in
  let cellCx := add (mul (of_Z (i mod cols)) cellW) (div cellW (of_Z 2)) in
  let cellCy := add (mul (of_Z (i / cols)) cellH) (div cellH (of_Z 2)) in
  let centerX := add (minX (SpineCanvasGrid.box a)) (div bw (of_Z 2)) in
  let centerY := add (minY (SpineCanvasGrid.box a)) (div bh (of_Z 2)) in
  SpineCanvasGrid.mkSkeleton
    (SpineCanvasGrid.slots (SpineCanvasGrid.rt_skeleton rt))
    scale scale
    (sub cellCx (mul centerX scale))
    (sub cellCy (mul centerY scale)).

(** *** The render loop and its parent *)

(** The number of calls of [onError] in a run of the watchdog. *)
Definition onError_calls (fired : list bool) : nat :=
  List.length (filter (fun b : bool => b) fired).

(** What the parent receives: one [OnError] per call. *)
Definition onError_events (fired : list bool) : list SpineRenderer.event :=
  map (fun _ => SpineRenderer.OnError) (filter (fun b : bool => b) fired).


(** Props of a WebGL preview with the automatic fallback enabled. *)
Definition webgl_props (skeletonPath atlasPath : string) : SpineRenderer.props :=
  SpineRenderer.mkProps SpineRenderer.webgl true skeletonPath atlasPath.

(** A skeleton of the grid revision holding the given slots. *)
Definition grid_skeleton (sl : list slot) : SpineCanvasGrid.skeleton :=
  SpineCanvasGrid.mkSkeleton sl (of_Z 1) (of_Z 1) (of_Z 0) (of_Z 0).

(* ------------------------------------------------------------------ *)
(** ** Strings, as the path helpers use them

    A string is its sequence of characters; [lastIndexOf], [slice] and
    [+] act on that sequence and on nothing else. *)

Module JSString.

(** [s.lastIndexOf(c)] for a one-character needle: the index of the last
    occurrence, or -1. *)
Fixpoint lastIndexOf (s : string) (c : ascii) : Z :=
  match s with
  | EmptyString => (-1)%Z
  | String a s' =>
      let r := lastIndexOf s' c in
      if (0 <=? r)%Z then (r + 1)%Z
      else if Ascii.eqb a c then 0%Z else (-1)%Z
  end.

(** [s.slice(start, stop)] and [s.substring(start, stop)] for indices
    that are not negative: the characters from [start] up to, not
    including, [stop], cut at the end of the string; empty when
    [stop <= start]. *)
Definition slice (s : string) (start stop : nat) : string :=
  substring start (stop - start) s.

(** [s.slice(start)]. *)
Definition slice_from (s : string) (start : nat) : string :=
  slice s start (String.length s).

(** Whether the character occurs in the string. *)
Fixpoint occurs (c : ascii) (s : string) : bool :=
  match s with
  | EmptyString => false
  | String a s' => Ascii.eqb a c || occurs c s'
  end.

(** [array.includes(s)] on an array of strings. *)
Definition includes (l : list string) (s : string) : bool :=
  existsb (String.eqb s) l.

(** The truthiness of an optional string argument: [undefined] and the
    empty string are falsy. *)
Definition truthy (s : option string) : bool :=
  match s with
  | Some t => negb (String.eqb t EmptyString)
  | None => false
  end.

(** A counter in a template literal prints in decimal. *)
Definition decimal (n : nat) : string :=
  NilEmpty.string_of_uint (Nat.to_uint n).

End JSString.

(* ------------------------------------------------------------------ *)
(** ** SpineCanvas.tsx: [splitDirAndFile] and the names handed to the
       asset manager *)

Module SpineCanvasAssets.

Record dir_file : Type := mkDirFile { dir : string; file : string }.

Definition splitDirAndFile (path : string) : dir_file :=
  let i := JSString.lastIndexOf path "/" in
  if (i =? -1)%Z then mkDirFile EmptyString path
  else mkDirFile (JSString.slice path 0 (Z.to_nat (i + 1)))
                 (JSString.slice_from path (Z.to_nat (i + 1))).

(** What the loading effect passes to the asset manager: the prefix it
    is created with ([new AssetManager(ctx, atlasDir)]), the name given
    to [loadText] / [loadBinary], and the name given to
    [loadTextureAtlas]. *)
Record asset_names : Type := mkAssetNames {
  pathPrefix : string; skeletonName : string; atlasName : string
}.

Definition assetNames (skeletonPath atlasPath : string) : asset_names :=
  let a := splitDirAndFile atlasPath in
  let s := splitDirAndFile skeletonPath in
  mkAssetNames (dir a)
    (if String.eqb (dir s) (dir a) then file s else skeletonPath)
    (file a).

End SpineCanvasAssets.

(* ------------------------------------------------------------------ *)
(** ** utils/spineUtils.ts *)

Module SpineUtils.

Local Open Scope string_scope.

Definition getAssetPath (fileName : string) : string :=
  "/assets/spine/" ++ fileName.

Definition getSkeletonPath (name : string) (binary : bool) : string :=
  getAssetPath (name ++ (if binary then ".skel" else ".json")).

Definition getAtlasPath (name : string) (pma : bool) : string :=
  getAssetPath (name ++ (if pma then "-pma" else "") ++ ".atlas").

Definition commonDefaultAnimations : list string :=
  ["idle"; "Idle"; "default"; "Default"; "stand"; "Stand"].

(** [animations[0]] is read only on a non-empty array. *)
Definition getDefaultAnimation (animations : list string)
  (preferredAnimation : option string) : string :=
  match animations with
  | [] => ""
  | first :: _ =>
      if JSString.truthy preferredAnimation
         && JSString.includes animations
              (match preferredAnimation with Some p => p | None => "" end)
      then match preferredAnimation with Some p => p | None => "" end
      else
        match find (JSString.includes animations) commonDefaultAnimations with
        | Some defaultAnim => defaultAnim
        | None => first
        end
  end.

Definition getDefaultSkin (skins : list string)
  (preferredSkin : option string) : string :=
  match skins with
  | [] => "default"
  | first :: _ =>
      if JSString.truthy preferredSkin
         && JSString.includes skins
              (match preferredSkin with Some p => p | None => "" end)
      then match preferredSkin with Some p => p | None => "" end
      else if JSString.includes skins "default" then "default"
      else first
  end.

End SpineUtils.

(* ------------------------------------------------------------------ *)
(** ** app/page.tsx: the preview *)

Module Page.

(** [SpineModel], without its display name. *)
Record SpineModel : Type := mkModel {
  id : string;
  defaultAnimation : string;
  atlasName : option string
}.


(** The props that the page gives to [<SpineRenderer>]: the paths of the
    selected model ([selectedModel.atlasName || selectedModel.id] for the
    atlas) and the render mode of the hook.  The element has no [key],
    and [enableAutoFallback] is left to its default. *)
Definition previewProps (selectedModel : SpineModel)
  (renderMode : SpineRenderer.RenderMode) : SpineRenderer.props :=
  SpineRenderer.mkProps renderMode true
    (SpineUtils.getSkeletonPath (id selectedModel) false)
    (SpineUtils.getAtlasPath
       (match atlasName selectedModel with
        | Some a => if JSString.truthy (Some a) then a else id selectedModel
        | None => id selectedModel
        end)
       false).

(** [isLoading ? <loading indicator> : <SpineRenderer ... />]. *)
Definition preview (isLoading : bool) (selectedModel : SpineModel)
  (renderMode : SpineRenderer.RenderMode) : option SpineRenderer.props :=
  if isLoading then None else Some (previewProps selectedModel renderMode).


End Page.


(** The [SkeletonBounds] of a skeleton that shows nothing: a single
    point. *)
Definition point_bounds : extrema :=
  mkExtrema (of_Z 0) (of_Z 0) (of_Z 0) (of_Z 0).

(** Props of a WebGL preview with the automatic fallback switched off. *)
Definition webgl_props_no_fallback (skeletonPath atlasPath : string)
  : SpineRenderer.props :=
  SpineRenderer.mkProps SpineRenderer.webgl false skeletonPath atlasPath.

(* ------------------------------------------------------------------ *)
(** ** More of [Math] and of the operators on numbers *)

Module JSMath.

(** [Math.floor(x)]. *)
Definition Math_floor (x : num) : num :=
  match x with
  | Fin q => of_Z (Qfloor q)
  | _ => x
  end.

(** The truthiness of a number: [NaN] and zero are falsy. *)
Definition truthy (x : num) : bool :=
  match x with
  | NaN => false
  | Fin q => negb (Qeq_bool q 0)
  | _ => true
  end.

(** [x || d] on numbers. *)
Definition or_else (x d : num) : num := if truthy x then x else d.

End JSMath.

(* ------------------------------------------------------------------ *)
(** ** The rounding of binary64 *)

Module Binary64.

(** [2^e]. *)
Definition pow2 (e : Z) : Q :=
  if (0 <=? e)%Z then inject_Z (2 ^ e) else / inject_Z (2 ^ (- e)).

(** For [q > 0], the exponent [e] with [2^e <= q < 2^(e + 1)]. *)
Definition ilog2 (q : Q) : Z :=
  let c := (Z.log2 (Qnum q) - Z.log2 (Zpos (Qden q)))%Z in
  if Qle_bool (pow2 c) q then c else (c - 1)%Z.

(** The nearest integer, the even one of two that are equally near. *)
Definition nearest_even (m : Q) : Z :=
  let k := Qfloor m in
  let f := m - inject_Z k in
  if Qltb f (1 # 2) then k
  else if Qltb (1 # 2) f then (k + 1)%Z
  else if Z.even k then k else (k + 1)%Z.

(** For [q > 0], the nearest multiple of the unit in the last place of
    [q]: 53 significant bits, and never finer than [2^-1074]. *)
Definition round_pos (q : Q) : Q :=
  let s := Z.max (ilog2 q - 52) (-1074) in
  inject_Z (nearest_even (q / pow2 s)) * pow2 s.

(** The binary64 number that stands for the exact result [q] (round to
    nearest, ties to even): an infinity from [2^1024] on. *)
Definition round (q : Q) : num :=
  if Qeq_bool q 0 then Fin 0
  else if Qltb 0 q
       then let r := round_pos q in
            if Qle_bool (pow2 1024) r then PosInf else Fin (Qred r)
       else let r := round_pos (- q) in
            if Qle_bool (pow2 1024) r then NegInf else Fin (Qred (- r)).

(** [x * y] as the machine computes it. *)
Definition mul (x y : num) : num :=
  match JS.mul x y with
  | Fin q => round q
  | other => other
  end.

End Binary64.

(* ------------------------------------------------------------------ *)
(** ** LoadingIndicator.tsx *)

Module LoadingIndicator.

Definition clampedProgress (progress : num) : num :=
  Math_max (of_Z 0) (Math_min (of_Z 100) progress).

End LoadingIndicator.

(* ------------------------------------------------------------------ *)
(** ** SpineCanvas.tsx, current revision: the canvas size and the whole
       frame of the render loop *)

Module SpineCanvasLoop.

(** [typeof window !== 'undefined' ? window.devicePixelRatio || 1 : 1];
    [None] stands for the absence of [window]. *)
Definition dpr (devicePixelRatio : option num) : num :=
  match devicePixelRatio with
  | Some r => JSMath.or_else r (of_Z 1)
  | None => of_Z 1
  end.

(** [Math.max(1, Math.floor(width * dpr))], the size given to
    [canvas.width] (and, with the height, to [canvas.height]). *)
Definition canvasSize (cssSize dpr : num) : num :=
  Math_max (of_Z 1) (JSMath.Math_floor (Binary64.mul cssSize dpr)).

(** The variables that the frames of one run of the effect share:
    [last], [watchdogStart], [relayoutFramesRef.current] and the camera
    of the renderer. *)
Record loop_state : Type := mkLoop {
  last : Q;
  watchdogStart : Q;
  relayoutFrames : Z;
  cam : SpineCanvas.camera
}.

(** What a frame did: the [dt] it advanced the animation by, whether it
    fitted the camera again, whether it called [onError]. *)
Record frame_report : Type := mkReport {
  dt : Q; refitted : bool; reported : bool
}.

(** One call of [loopFrame] of a canvas of CSS size [width] x [height].
    [pose] is the skeleton as the runtime poses it for this frame, or
    [None] while a ref is still unset: the frame then returns at once,
    without touching the shared variables. *)
Definition loopFrame (width height : num) (st : loop_state) (now : Q)
  (pose : option (list slot)) : loop_state * option frame_report :=
  match pose with
  | None => (st, None)
  | Some slots =>
      let dt := (now - last st) / 1000 in
      let refit := (0 <? relayoutFrames st)%Z in
      let cam' :=
        if refit
        then SpineCanvas.fitCamera slots width height
               SpineCanvas.default_padding
        else cam st in
      let frames' :=
        if refit then (relayoutFrames st - 1)%Z else relayoutFrames st in
      let wd := SpineCanvas.watchdog
                  (SpineCanvas.invisible (SpineCanvas.getBounds slots))
                  (watchdogStart st) now in
      (mkLoop now (fst wd) frames' cam', Some (mkReport dt refit (snd wd)))
  end.

(** Successive frames. *)
Fixpoint loop (width height : num) (st : loop_state)
  (fs : list (Q * option (list slot)))
  : loop_state * list (option frame_report) :=
  match fs with
  | [] => (st, [])
  | (now, pose) :: rest =>
      let r := loopFrame width height st now pose in
      let r' := loop width height (fst r) rest in
      (fst r', snd r :: snd r')
  end.

(** The frames that did run, and how many of a kind. *)
Definition ran (reports : list (option frame_report)) : list frame_report :=
  flat_map (fun o => match o with Some r => [r] | None => [] end) reports.

Definition refits (reports : list (option frame_report)) : Z :=
  Z.of_nat (List.length (filter refitted (ran reports))).

Definition reports_sent (reports : list (option frame_report)) : nat :=
  List.length (filter reported (ran reports)).

End SpineCanvasLoop.

(** Whether one of the four extrema is [NaN]. *)
Definition has_nan (e : extrema) : bool :=
  match minX e, minY e, maxX e, maxY e with
  | NaN, _, _, _ | _, NaN, _, _ | _, _, NaN, _ | _, _, _, NaN => true
  | _, _, _, _ => false
  end.

(** A mesh whose vertices have a finite and a non-finite part. *)
Definition mesh_with_bad_vertices : list slot :=
  [Some (MeshAttachment [of_Z 3; of_Z 4; NaN; of_Z 900; of_Z 7; PosInf;
                         of_Z (-2); of_Z 9]);
   None;
   Some (RegionAttachment (of_Z 0, of_Z 0) (of_Z 5, of_Z 0)
                          (of_Z 5, of_Z 5) (of_Z 0, of_Z 5))].

(* ------------------------------------------------------------------ *)
(** ** hooks/useSpine: the list of spawned objects *)

Module UseSpine.

Record SpineObject : Type := mkObject {
  id : string;
  x : num; y : num; scale : num;
  animation : string; skin : string;
  skeleton : string; atlas : string;
  renderMode : SpineRenderer.RenderMode;
  loop : option bool;
  showAnimationEndMessage : option bool
}.

(** The optional second argument of [createSpineObject]. *)
Record SpineObjectOptions : Type := mkOptions {
  opt_loop : option bool;
  opt_showAnimationEndMessage : option bool
}.

(** The values of the hook that a callback sees: those of the render in
    which the callback was built. *)
Record closure : Type := mkClosure {
  isLoading : bool;
  animations : list string;
  skins : list string;
  spineObjects : list SpineObject;
  currentAnimation : string;
  currentSkin : string;
  isOverlapping : bool;
  c_renderMode : SpineRenderer.RenderMode;
  skeletonPath : string;
  atlasPath : string
}.

(** What one new object takes from the clock and from [Math.random()]:
    [stamp] stands for
    [`${Date.now()}-${Math.random().toString(36).substr(2, 9)}`], and
    [rx], [ry], [rs] are the three further results of [Math.random()]. *)
Record draw : Type := mkDraw {
  stamp : string; rx : num; ry : num; rs : num
}.

(** [assetManager.getLoaded() / Math.max(1, assetManager.getToLoad()) * 100]. *)
Definition loadingProgress (loaded toLoad : num) : num :=
  mul (div loaded (Math_max (of_Z 1) toLoad)) (of_Z 100).

(** [animations.includes(currentAnimation) ? currentAnimation : animations[0]];
    [animations[0]] is read on a non-empty array only. *)
Definition validAnimation (c : closure) : string :=
  if JSString.includes (animations c) (currentAnimation c)
  then currentAnimation c
  else nth 0 (animations c) EmptyString.

Definition validSkin (c : closure) : string :=
  if JSString.includes (skins c) (currentSkin c)
  then currentSkin c
  else "default"%string.

(** The object literal built for one new object; [suffix] is empty for
    a single object and [`-${i}`] in a batch. *)
Definition newObject (c : closure) (options : option SpineObjectOptions)
  (d : draw) (suffix : string) : SpineObject :=
  mkObject
    ("spine-" ++ stamp d ++ suffix)%string
    (sub (mul (rx d) (of_Z 80)) (of_Z 40))
    (sub (mul (ry d) (of_Z 80)) (of_Z 40))
    (add (Fin (1 # 2)) (mul (rs d) (Fin (1 # 2))))
    (validAnimation c) (validSkin c)
    (skeletonPath c) (atlasPath c)
    (c_renderMode c)
    (match options with Some o => opt_loop o | None => None end)
    (match options with
     | Some o => opt_showAnimationEndMessage o
     | None => None
     end).

Definition batchSize : Z := 3.

(** [Math.min(count, 10)]. *)
Definition safeCount (count : Z) : Z := Z.min count 10.

(** [Math.ceil(safeCount / batchSize)]. *)
Definition batches (count : Z) : Z :=
  Qceiling (inject_Z (safeCount count) / inject_Z batchSize).

(** [for (let i = start; i < end; i++) newObjects.push(...)], [n]
    iterations from [i] on. *)
Fixpoint build (mk : Z -> SpineObject) (i : Z) (n : nat) : list SpineObject :=
  match n with
  | O => []
  | S n' => mk i :: build mk (i + 1) n'
  end.

(** The object of index [i] of a batched creation. *)
Definition batchObject (c : closure) (options : option SpineObjectOptions)
  (draws : Z -> draw) (i : Z) : SpineObject :=
  newObject c options (draws i)
    ("-" ++ JSString.decimal (Z.to_nat i))%string.

(** One call of [createBatch(batchIndex)]: [None] when it returns at
    once, otherwise the list that its state update produces from
    [prev]. *)
Definition createBatch (c : closure) (options : option SpineObjectOptions)
  (draws : Z -> draw) (count : Z) (batchIndex : Z)
  (prev : list SpineObject) : option (list SpineObject) :=
  if (batches count <=? batchIndex)%Z then None
  else
    let start := (batchIndex * batchSize)%Z in
    let stop := Z.min (start + batchSize) (safeCount count) in
    let newObjects :=
      build (batchObject c options draws) start (Z.to_nat (stop - start)) in
    Some (if isOverlapping c then prev ++ newObjects
          else if (batchIndex =? 0)%Z then newObjects
          else prev ++ newObjects).

(** The chain of batches, each started by the timeout of the one
    before, from [batchIndex] on; at most [fuel] of them. *)
Fixpoint batchesFrom (fuel : nat) (c : closure)
  (options : option SpineObjectOptions) (draws : Z -> draw) (count : Z)
  (batchIndex : Z) (prev : list SpineObject) : list SpineObject :=
  match fuel with
  | O => prev
  | S fuel' =>
      match createBatch c options draws count batchIndex prev with
      | None => prev
      | Some next =>
          batchesFrom fuel' c options draws count (batchIndex + 1) next
      end
  end.

(** [createSpineObject(count, options)]: the list of objects once its
    state updates have run, when nothing else updates the list between
    the batches.  [c] holds the values captured by the callback,
    [prev] is the list at the time of the update. *)
Definition createSpineObject (c : closure) (count : Z)
  (options : option SpineObjectOptions) (draws : Z -> draw)
  (prev : list SpineObject) : list SpineObject :=
  if isLoading c || (List.length (animations c) =? 0)%nat then prev
  else if (count =? 1)%Z then
    if isOverlapping c then prev ++ [newObject c options (draws 0%Z) ""]
    else [newObject c options (draws 0%Z) ""]
  else batchesFrom (Z.to_nat (batches count)) c options draws count 0 prev.

(** [deleteSpineObject(id)]: with a truthy id, the objects of that id
    are filtered out; without, the last object is dropped, provided the
    list captured by the callback is not empty. *)
Definition deleteSpineObject (c : closure) (id_arg : option string)
  (prev : list SpineObject) : list SpineObject :=
  if JSString.truthy id_arg then
    filter (fun obj =>
              negb (String.eqb (id obj)
                      (match id_arg with Some i => i | None => EmptyString end)))
           prev
  else if (0 <? List.length (spineObjects c))%nat then removelast prev
  else prev.

Definition deleteAllSpineObjects : list SpineObject := [].

Definition with_animation (a : string) (obj : SpineObject) : SpineObject :=
  mkObject (id obj) (x obj) (y obj) (scale obj) a (skin obj)
    (skeleton obj) (atlas obj) (renderMode obj) (loop obj)
    (showAnimationEndMessage obj).

Definition with_skin (s : string) (obj : SpineObject) : SpineObject :=
  mkObject (id obj) (x obj) (y obj) (scale obj) (animation obj) s
    (skeleton obj) (atlas obj) (renderMode obj) (loop obj)
    (showAnimationEndMessage obj).

Definition with_renderMode (m : SpineRenderer.RenderMode) (obj : SpineObject)
  : SpineObject :=
  mkObject (id obj) (x obj) (y obj) (scale obj) (animation obj) (skin obj)
    (skeleton obj) (atlas obj) m (loop obj) (showAnimationEndMessage obj).

(** The list updates of [changeAnimation], [changeSkin] and
    [changeRenderMode]. *)
Definition changeAnimation (a : string) (prev : list SpineObject) :=
  map (with_animation a) prev.
Definition changeSkin (s : string) (prev : list SpineObject) :=
  map (with_skin s) prev.
Definition changeRenderMode (m : SpineRenderer.RenderMode)
  (prev : list SpineObject) := map (with_renderMode m) prev.

(** [prev.map((obj, index) => ...)], from index [i] on. *)
Fixpoint map_index (f : SpineObject -> nat -> SpineObject) (i : nat)
  (l : list SpineObject) : list SpineObject :=
  match l with
  | [] => []
  | obj :: rest => f obj i :: map_index f (S i) rest
  end.

(** [Math.floor(Math.random() * length)] as an index, [r] being the
    result of [Math.random()]. *)
Definition randomIndex (r : Q) (length : nat) : nat :=
  Z.to_nat (Qfloor (r * inject_Z (Z.of_nat length))).

(** One tick of the 5 s interval: with more than one animation, the
    object at a random index gets a random animation. *)
Definition timerTick (c : closure) (r1 r2 : Q) (prev : list SpineObject)
  : list SpineObject :=
  if (1 <? List.length (animations c))%nat then
    let index := randomIndex r1 (List.length (spineObjects c)) in
    let randomAnimation :=
      nth (randomIndex r2 (List.length (animations c))) (animations c)
          EmptyString in
    map_index (fun obj i =>
                 if (i =? index)%nat then with_animation randomAnimation obj
                 else obj) 0 prev
  else prev.

(** *** The hook as a state machine *)

(** The state of the hook after a render, and the render mode that the
    memoized [createSpineObject] still holds: its dependency list names
    the animation, the skin, the overlap flag, the paths, the loading
    flag and the two name lists, and not the render mode. *)
Record hook : Type := mkHook {
  current : closure;
  createMode : SpineRenderer.RenderMode
}.

Definition set_objects (c : closure) (l : list SpineObject) : closure :=
  mkClosure (isLoading c) (animations c) (skins c) l
    (currentAnimation c) (currentSkin c) (isOverlapping c)
    (c_renderMode c) (skeletonPath c) (atlasPath c).

Definition set_mode (c : closure) (m : SpineRenderer.RenderMode) : closure :=
  mkClosure (isLoading c) (animations c) (skins c) (spineObjects c)
    (currentAnimation c) (currentSkin c) (isOverlapping c)
    m (skeletonPath c) (atlasPath c).

(** The values that the memoized [createSpineObject] sees. *)
Definition createClosure (h : hook) : closure :=
  set_mode (current h) (createMode h).

Inductive event : Type :=
| Create (count : Z) (options : option SpineObjectOptions) (draws : Z -> draw)
| Delete (id_arg : option string)
| DeleteAll
| ToggleOverlap
| ChangeAnimation (a : string)
| ChangeSkin (s : string)
| ChangeRenderMode (m : SpineRenderer.RenderMode)
| Tick (r1 r2 : Q).

(** One user action or timer tick, handled by the callbacks of the
    latest render. *)
Definition step (h : hook) (e : event) : hook :=
  let c := current h in
  match e with
  | Create count options draws =>
      mkHook (set_objects c
                (createSpineObject (createClosure h) count options draws
                   (spineObjects c)))
             (createMode h)
  | Delete id_arg =>
      mkHook (set_objects c (deleteSpineObject c id_arg (spineObjects c)))
             (createMode h)
  | DeleteAll => mkHook (set_objects c deleteAllSpineObjects) (createMode h)
  | ToggleOverlap =>
      mkHook (mkClosure (isLoading c) (animations c) (skins c)
                (spineObjects c) (currentAnimation c) (currentSkin c)
                (negb (isOverlapping c)) (c_renderMode c)
                (skeletonPath c) (atlasPath c))
             (c_renderMode c)
  | ChangeAnimation a =>
      mkHook (mkClosure (isLoading c) (animations c) (skins c)
                (changeAnimation a (spineObjects c)) a (currentSkin c)
                (isOverlapping c) (c_renderMode c)
                (skeletonPath c) (atlasPath c))
             (if String.eqb a (currentAnimation c) then createMode h
              else c_renderMode c)
  | ChangeSkin s =>
      mkHook (mkClosure (isLoading c) (animations c) (skins c)
                (changeSkin s (spineObjects c)) (currentAnimation c) s
                (isOverlapping c) (c_renderMode c)
                (skeletonPath c) (atlasPath c))
             (if String.eqb s (currentSkin c) then createMode h
              else c_renderMode c)
  | ChangeRenderMode m =>
      mkHook (mkClosure (isLoading c) (animations c) (skins c)
                (changeRenderMode m (spineObjects c)) (currentAnimation c)
                (currentSkin c) (isOverlapping c) m
                (skeletonPath c) (atlasPath c))
             (createMode h)
  | Tick r1 r2 =>
      mkHook (set_objects c (timerTick c r1 r2 (spineObjects c)))
             (createMode h)
  end.

Definition run (h : hook) (es : list event) : hook := fold_left step es h.

(** An event that the page can produce once the assets are loaded: the
    selects offer the loaded names only, and [Math.random()] is in
    [[0, 1)]. *)
Definition offered (c : closure) (e : event) : Prop :=
  match e with
  | ChangeAnimation a => In a (animations c)
  | Tick r1 r2 => 0 <= r1 /\ r1 < 1 /\ 0 <= r2 /\ r2 < 1
  | _ => True
  end.

End UseSpine.

(** *** Sample values of the hook *)

(** The hook after the assets of a model with three animations and two
    skins are loaded, with no object yet. *)
Definition loaded_closure : UseSpine.closure :=
  UseSpine.mkClosure false ["idle"; "walk"; "run"]%string
    ["default"; "red"]%string [] "idle"%string "default"%string false
    SpineRenderer.player "/assets/spine/a/a.json"%string
    "/assets/spine/a/a.atlas"%string.

(** Draws with [Math.random()] at 1/4, 1/2 and 3/4. *)
Definition sample_draw (i : Z) : UseSpine.draw :=
  UseSpine.mkDraw ("1700000000000-abc" ++ JSString.decimal (Z.to_nat i))%string
    (Fin (1 # 4)) (Fin (1 # 2)) (Fin (3 # 4)).

(** Every object of the list carries an animation of the loaded names. *)
Definition animations_valid (c : UseSpine.closure) : Prop :=
  Forall (fun obj => In (UseSpine.animation obj) (UseSpine.animations c))
         (UseSpine.spineObjects c).

(* ------------------------------------------------------------------ *)
(** ** ControlPanel.tsx: the delayed spawn *)

Module ControlPanel.

Inductive Phase : Type := idle | arming | alive.

Definition Phase_eqb (a b : Phase) : bool :=
  match a, b with
  | idle, idle | arming, arming | alive, alive => true
  | _, _ => false
  end.

(** The state and the refs of the panel.  [ticker] tells whether the
    interval of [tickerRef] runs; [armTO] is the pending timeout of
    [armTORef], with the render mode that its callback captured;
    [deleteTO] is the pending timeout of [deleteTORef], with its
    delay. *)
Record panel : Type := mkPanel {
  phase : Phase;
  timeLeftMs : Q;
  ticker : bool;
  armTO : option SpineRenderer.RenderMode;
  deleteTO : option Q;
  deadline : Q;
  mounted : bool
}.

Definition initial : panel := mkPanel idle 0 false None None 0 true.

(** The callbacks of the page that the timeouts call. *)
Inductive call : Type := CreateSpine | DeleteSpine.

Definition armMs : Q := 2000.
Definition aliveMs : Q := 5000.

(** [renderMode === 'player' ? 500 : 0]. *)
Definition grace (m : SpineRenderer.RenderMode) : Q :=
  match m with
  | SpineRenderer.player => 500
  | SpineRenderer.webgl => 0
  end.

(** [handleDelayedSpawn], clicked at time [now] in a render with the
    prop [renderMode]. *)
Definition handleDelayedSpawn (p : panel) (now : Q)
  (renderMode : SpineRenderer.RenderMode) : panel :=
  if negb (Phase_eqb (phase p) idle) then p
  else mkPanel arming armMs true (Some renderMode) (deleteTO p)
         (now + armMs) (mounted p).

(** The callback of the arm timeout, run at time [now]. *)
Definition armCallback (p : panel) (now : Q)
  (renderMode : SpineRenderer.RenderMode) : panel * list call :=
  let total := grace renderMode + aliveMs in
  (mkPanel (if mounted p then alive else phase p)
           (if mounted p then total else timeLeftMs p)
           true None (Some total) (now + total) (mounted p),
   [CreateSpine]).

(** The callback of the delete timeout. *)
Definition deleteCallback (p : panel) : panel * list call :=
  (mkPanel (if mounted p then idle else phase p)
           (if mounted p then 0 else timeLeftMs p)
           (ticker p) (armTO p) None (deadline p) (mounted p),
   [DeleteSpine]).

(** The callback of the interval, run at time [now]:
    [left = Math.max(0, deadlineRef.current - Date.now())]. *)
Definition tickCallback (p : panel) (now : Q) : panel :=
  let left := if Qltb 0 (deadline p - now) then deadline p - now else 0 in
  mkPanel (phase p) (if mounted p then left else timeLeftMs p)
          (if Qle_bool left 0 then false else ticker p)
          (armTO p) (deleteTO p) (deadline p) (mounted p).

(** The cleanup of the mount effect: [clearTickerAndArm]; the delete
    timeout is left alone. *)
Definition unmount (p : panel) : panel :=
  mkPanel (phase p) (timeLeftMs p) false None (deleteTO p) (deadline p) false.

Inductive event : Type :=
| Click (now : Q) (renderMode : SpineRenderer.RenderMode)
| ArmFires (now : Q)
| DeleteFires
| TickFires (now : Q)
| Unmount.

(** A timer fires only while it is pending; a panel that is not
    mounted gets no click. *)
Definition step (p : panel) (e : event) : panel * list call :=
  match e with
  | Click now m => (if mounted p then handleDelayedSpawn p now m else p, [])
  | ArmFires now =>
      match armTO p with
      | Some m => armCallback p now m
      | None => (p, [])
      end
  | DeleteFires =>
      match deleteTO p with
      | Some _ => deleteCallback p
      | None => (p, [])
      end
  | TickFires now => (if ticker p then tickCallback p now else p, [])
  | Unmount => (unmount p, [])
  end.

Fixpoint run (p : panel) (es : list event) : panel * list call :=
  match es with
  | [] => (p, [])
  | e :: rest =>
      let r := step p e in
      let r' := run (fst r) rest in
      (fst r', snd r ++ snd r')
  end.

Definition is_create (c : call) : bool :=
  match c with CreateSpine => true | DeleteSpine => false end.

Definition creates (cs : list call) : nat := List.length (filter is_create cs).
Definition deletes (cs : list call) : nat :=
  List.length (filter (fun c => negb (is_create c)) cs).

Definition pending_delete (p : panel) : nat :=
  match deleteTO p with Some _ => 1 | None => 0 end.

(** What the phase tells about the timeouts. *)
Definition consistent (p : panel) : Prop :=
  if mounted p then
    match phase p with
    | idle => armTO p = None /\ deleteTO p = None
    | arming => armTO p <> None /\ deleteTO p = None
    | alive => armTO p = None /\ deleteTO p <> None
    end
  else armTO p = None.

End ControlPanel.

(* ------------------------------------------------------------------ *)
(** ** page.tsx: the callbacks given to the panel *)

Module PageWiring.

(** [onCreateSpine={() => createSpineObject(1)}] and
    [onDeleteSpine={deleteSpineObject}]: a timeout of the panel calls
    the props of the render in which the button was clicked, so both
    callbacks work on the values [clicked] of that render, whatever the
    list [prev] is by the time they run. *)
Definition apply_call (clicked : UseSpine.closure) (d : UseSpine.draw)
  (prev : list UseSpine.SpineObject) (c : ControlPanel.call)
  : list UseSpine.SpineObject :=
  match c with
  | ControlPanel.CreateSpine =>
      UseSpine.createSpineObject clicked 1 None (fun _ => d) prev
  | ControlPanel.DeleteSpine => UseSpine.deleteSpineObject clicked None prev
  end.

Definition apply_calls (clicked : UseSpine.closure) (d : UseSpine.draw)
  (cs : list ControlPanel.call) (prev : list UseSpine.SpineObject)
  : list UseSpine.SpineObject :=
  fold_left (apply_call clicked d) cs prev.

End PageWiring.

(** A first delayed spawn, run to its end. *)
Definition one_cycle : list ControlPanel.event :=
  [ControlPanel.Click 0 SpineRenderer.webgl; ControlPanel.ArmFires 2000;
   ControlPanel.TickFires 2100; ControlPanel.DeleteFires].

(* ------------------------------------------------------------------ *)
(** ** Facts about numbers *)

Lemma Qltb_true (a b : Q) : Qltb a b = true <-> a < b.
Proof.
  unfold Qltb. rewrite negb_true_iff.
  split; intro H.
  - apply Qnot_le_lt. intro Hle. apply Qle_bool_iff in Hle. congruence.
  - destruct (Qle_bool b a) eqn:E; [|reflexivity].
    apply Qle_bool_iff in E. exfalso. apply (Qlt_not_le _ _ H E).
Qed.

Lemma Qltb_false (a b : Q) : Qltb a b = false <-> b <= a.
Proof.
  unfold Qltb. rewrite negb_false_iff. apply Qle_bool_iff.
Qed.

Lemma Qltb_spec (a b : Q) : BoolSpec (a < b) (b <= a) (Qltb a b).
Proof.
  destruct (Qltb a b) eqn:E; constructor.
  - now apply Qltb_true.
  - now apply Qltb_false.
Qed.

Lemma isFinite_Fin (x : num) : isFinite x = true -> exists q, x = Fin q.
Proof. destruct x; simpl; try discriminate. intros _. now exists q. Qed.

Lemma Math_min_Fin (a b : Q) :
  Math_min (Fin a) (Fin b) = Fin (if Qltb b a then b else a).
Proof. simpl. now destruct (Qltb b a). Qed.

Lemma Math_max_Fin (a b : Q) :
  Math_max (Fin a) (Fin b) = Fin (if Qltb a b then b else a).
Proof. simpl. now destruct (Qltb a b). Qed.

Lemma stuck_lo_min (x y : num) : stuck_lo x -> stuck_lo (Math_min x y).
Proof. intros [-> | ->]; destruct y; simpl; unfold stuck_lo; auto. Qed.

Lemma stuck_hi_max (x y : num) : stuck_hi x -> stuck_hi (Math_max x y).
Proof. intros [-> | ->]; destruct y; simpl; unfold stuck_hi; auto. Qed.

Lemma stuck_lo_not_finite (x : num) : stuck_lo x -> isFinite x = false.
Proof. now intros [-> | ->]. Qed.

Lemma stuck_hi_not_finite (x : num) : stuck_hi x -> isFinite x = false.
Proof. now intros [-> | ->]. Qed.

Lemma not_finite_stuck (lo hi x : num) :
  isFinite x = false ->
  stuck_lo (Math_min lo x) \/ stuck_hi (Math_max hi x).
Proof.
  destruct x; simpl; try discriminate; intros _.
  - left. destruct lo; simpl; unfold stuck_lo; auto.
  - destruct lo; simpl; unfold stuck_lo; auto.
  - destruct hi; simpl; unfold stuck_hi; auto.
Qed.

(* ------------------------------------------------------------------ *)
(** ** [getBounds]: the scan *)

Section GetBoundsScan.
Import SpineCanvas.

Lemma stuck_extend (e : extrema) (p : num * num) :
  stuck e -> stuck (extend e p).
Proof.
  unfold stuck, extend; simpl.
  intros [H | [H | [H | H]]];
    eauto using stuck_lo_min, stuck_hi_max.
Qed.

Lemma stuck_extend_not_finite (e : extrema) (p : num * num) :
  finite_point p = false -> stuck (extend e p).
Proof.
  unfold finite_point. rewrite andb_false_iff.
  unfold stuck, extend; simpl. intros [H | H].
  - destruct (not_finite_stuck (minX e) (maxX e) _ H); auto.
  - destruct (not_finite_stuck (minY e) (maxY e) _ H); auto.
Qed.

Lemma stuck_fold_extend (pts : list (num * num)) (e : extrema) :
  stuck e -> stuck (fold_left extend pts e).
Proof.
  revert e. induction pts as [|p pts IH]; simpl; intros e H; auto.
  apply IH. now apply stuck_extend.
Qed.

Lemma stuck_fold_extend_if_finite (pts : list (num * num)) (e : extrema) :
  stuck e -> stuck (fold_left extend_if_finite pts e).
Proof.
  revert e. induction pts as [|p pts IH]; simpl; intros e H; auto.
  apply IH. unfold extend_if_finite.
  destruct (finite_point p); auto using stuck_extend.
Qed.

Lemma stuck_invalid (e : extrema) : stuck e -> hasInvalidBounds e = true.
Proof.
  unfold stuck, hasInvalidBounds.
  intros [H | [H | [H | H]]];
    [apply stuck_lo_not_finite in H | apply stuck_hi_not_finite in H
    | apply stuck_lo_not_finite in H | apply stuck_hi_not_finite in H];
    rewrite H; simpl; rewrite ?orb_true_r; reflexivity.
Qed.

(** Scanning vertices none of which is finite leaves the extrema at
    their start or stuck. *)
Lemma fold_extend_none_finite (pts : list (num * num)) (e : extrema) :
  filter finite_point pts = [] ->
  e = start \/ stuck e ->
  fold_left extend pts e = e /\ pts = [] \/ stuck (fold_left extend pts e).
Proof.
  destruct pts as [|p pts]; simpl; intros Hf He; auto.
  right. apply stuck_fold_extend.
  destruct (finite_point p) eqn:Ep; [discriminate|].
  now apply stuck_extend_not_finite.
Qed.

Lemma fold_extend_if_finite_none (pts : list (num * num)) (e : extrema) :
  filter finite_point pts = [] ->
  fold_left extend_if_finite pts e = e.
Proof.
  revert e. induction pts as [|p pts IH]; simpl; intros e Hf; auto.
  unfold extend_if_finite at 2.
  destruct (finite_point p); [discriminate|]. now apply IH.
Qed.

Lemma filter_app_nil {A} (f : A -> bool) (l1 l2 : list A) :
  filter f (l1 ++ l2) = [] -> filter f l1 = [] /\ filter f l2 = [].
Proof.
  rewrite filter_app. intros H. now apply app_eq_nil in H.
Qed.

Lemma scan_slot_none_finite (s : slot) (e : extrema) :
  filter finite_point (slot_points s) = [] ->
  e = start \/ stuck e ->
  scan_slot e s = start \/ stuck (scan_slot e s).
Proof.
  intros Hf He.
  destruct s as [[p0 p1 p2 p3 | v | ] | ]; simpl in *; auto.
  - destruct (fold_extend_none_finite (region_points p0 p1 p2 p3) e Hf He)
      as [[_ Hnil] | H]; [discriminate | auto].
  - rewrite (fold_extend_if_finite_none _ _ Hf). exact He.
Qed.

Lemma scan_none_finite (slots : list slot) (e : extrema) :
  filter finite_point (all_points slots) = [] ->
  e = start \/ stuck e ->
  let e' := fold_left scan_slot slots e in e' = start \/ stuck e'.
Proof.
  revert e. induction slots as [|s slots IH]; simpl; intros e Hf He; auto.
  unfold all_points in Hf. simpl in Hf.
  apply filter_app_nil in Hf. destruct Hf as [Hs Hrest].
  apply IH; [exact Hrest|]. now apply scan_slot_none_finite.
Qed.

End GetBoundsScan.

(** C2.  When the skeleton offers no finite point (no vertex at all, or
    only vertices with a [NaN] or infinite coordinate), [getBounds]
    returns the default box [-100, -100, 100, 100]. *)
Theorem getBounds_default_box (slots : list slot) :
  finite_points slots = [] ->
  SpineCanvas.box (SpineCanvas.getBounds slots) = SpineCanvas.default_box.
Proof.
  intros Hf. unfold SpineCanvas.getBounds. simpl.
  assert (Hinv : SpineCanvas.hasInvalidBounds (SpineCanvas.scan slots) = true).
  { destruct (scan_none_finite slots SpineCanvas.start Hf (or_introl eq_refl))
      as [H | H].
    - unfold SpineCanvas.scan. rewrite H. reflexivity.
    - now apply stuck_invalid. }
  rewrite Hinv. reflexivity.
Qed.

Lemma getBounds_default_box_witness :
  finite_points
    [None; Some (MeshAttachment [NaN; of_Z 3; of_Z 4]);
     Some (RegionAttachment (PosInf, of_Z 1) (of_Z 2, NaN)
                            (NegInf, NegInf) (NaN, NaN))] = [] /\
  SpineCanvas.box
    (SpineCanvas.getBounds
       [None; Some (MeshAttachment [NaN; of_Z 3; of_Z 4]);
        Some (RegionAttachment (PosInf, of_Z 1) (of_Z 2, NaN)
                               (NegInf, NegInf) (NaN, NaN))])
  = SpineCanvas.default_box.
Proof.
  split; [reflexivity | apply getBounds_default_box; reflexivity].
Defined.

(* ------------------------------------------------------------------ *)
(** ** [getBounds]: finite vertices *)

Section GetBoundsUnion.
Import SpineCanvas.

Lemma fold_extend_if_finite_filter (pts : list (num * num)) (e : extrema) :
  fold_left extend_if_finite pts e
  = fold_left extend (filter finite_point pts) e.
Proof.
  revert e. induction pts as [|p pts IH]; simpl; intros e; auto.
  unfold extend_if_finite at 2. destruct (finite_point p); simpl; apply IH.
Qed.

Lemma filter_all {A} (f : A -> bool) (l : list A) :
  forallb f l = true -> filter f l = l.
Proof.
  induction l as [|a l IH]; simpl; auto.
  rewrite andb_true_iff. intros [Ha Hl]. rewrite Ha. f_equal. auto.
Qed.

Lemma scan_slot_filter (s : slot) (e : extrema) :
  forallb finite_point (region_corners s) = true ->
  scan_slot e s = fold_left extend (filter finite_point (slot_points s)) e.
Proof.
  intros Hr. destruct s as [[p0 p1 p2 p3 | v | ] | ]; auto.
  - cbn [scan_slot slot_points]. cbn [region_corners] in Hr.
    now rewrite (filter_all _ _ Hr).
  - cbn [scan_slot slot_points]. apply fold_extend_if_finite_filter.
Qed.

Lemma scan_filter (slots : list slot) (e : extrema) :
  forallb finite_point (flat_map region_corners slots) = true ->
  fold_left scan_slot slots e = fold_left extend (finite_points slots) e.
Proof.
  unfold finite_points, all_points.
  revert e. induction slots as [|s slots IH]; simpl; intros e Hr; auto.
  rewrite forallb_app, andb_true_iff in Hr. destruct Hr as [Hs Hrest].
  rewrite filter_app, fold_left_app, <- (scan_slot_filter s e Hs).
  now apply IH.
Qed.

Lemma covers_first (a b : Q) :
  covers [(Fin a, Fin b)] (extend start (Fin a, Fin b)).
Proof.
  exists a, b, a, b. repeat split; try apply Qle_refl;
    try (eexists; left; reflexivity);
    destruct H as [H | []]; injection H as <- <-; apply Qle_refl.
Qed.

Lemma covers_extend (seen : list (num * num)) (e : extrema) (a b : Q) :
  covers seen e -> covers (seen ++ [(Fin a, Fin b)]) (extend e (Fin a, Fin b)).
Proof.
  intros (x0 & y0 & x1 & y1 & -> & Hx & Hy & Hin & Hx0 & Hx1 & Hy0 & Hy1).
  unfold extend. cbn [minX minY maxX maxY fst snd].
  rewrite !Math_min_Fin, !Math_max_Fin.
  do 4 eexists. split; [reflexivity|].
  assert (Hnew : In (Fin a, Fin b) (seen ++ [(Fin a, Fin b)]))
    by (apply in_or_app; right; now left).
  destruct (Qltb_spec a x0) as [Ha0 | Ha0], (Qltb_spec x1 a) as [Ha1 | Ha1],
           (Qltb_spec b y0) as [Hb0 | Hb0], (Qltb_spec y1 b) as [Hb1 | Hb1];
    (split; [lra|]); (split; [lra|]);
    (split; [|repeat split;
               first [ now (eexists; exact Hnew)
                     | destruct Hx0 as [t Ht]; exists t; apply in_or_app; now left
                     | destruct Hx1 as [t Ht]; exists t; apply in_or_app; now left
                     | destruct Hy0 as [t Ht]; exists t; apply in_or_app; now left
                     | destruct Hy1 as [t Ht]; exists t; apply in_or_app; now left ]]);
    intros a' b' Hab; apply in_app_or in Hab;
    (destruct Hab as [Hab | [Hab | []]];
     [ specialize (Hin a' b' Hab); lra
     | injection Hab as <- <-; lra ]).
Qed.

Lemma covers_fold (pts seen : list (num * num)) (e : extrema) :
  forallb finite_point pts = true ->
  covers seen e -> covers (seen ++ pts) (fold_left extend pts e).
Proof.
  revert seen e. induction pts as [|[x y] pts IH]; simpl; intros seen e Hf Hc.
  - now rewrite app_nil_r.
  - rewrite andb_true_iff in Hf. destruct Hf as [Hp Hf].
    unfold finite_point in Hp. simpl in Hp. rewrite andb_true_iff in Hp.
    destruct Hp as [Hx Hy].
    apply isFinite_Fin in Hx, Hy. destruct Hx as [a ->], Hy as [b ->].
    change (seen ++ (Fin a, Fin b) :: pts)
      with (seen ++ [(Fin a, Fin b)] ++ pts).
    rewrite app_assoc. apply IH; [exact Hf|]. now apply covers_extend.
Qed.

Lemma forallb_filter {A} (f : A -> bool) (l : list A) :
  forallb f (filter f l) = true.
Proof.
  induction l as [|a l IH]; simpl; auto.
  destruct (f a) eqn:E; simpl; [rewrite E|]; auto.
Qed.

Lemma covers_start (pts : list (num * num)) :
  forallb finite_point pts = true -> pts <> [] ->
  covers pts (fold_left extend pts start).
Proof.
  destruct pts as [|[x y] pts]; [congruence|]. simpl. intros Hf _.
  rewrite andb_true_iff in Hf. destruct Hf as [Hp Hf].
  unfold finite_point in Hp. simpl in Hp. rewrite andb_true_iff in Hp.
  destruct Hp as [Hx Hy].
  apply isFinite_Fin in Hx, Hy. destruct Hx as [a ->], Hy as [b ->].
  change ((Fin a, Fin b) :: pts) with ([(Fin a, Fin b)] ++ pts).
  apply covers_fold; [exact Hf|]. apply covers_first.
Qed.

Lemma covers_valid (seen : list (num * num)) (e : extrema) :
  covers seen e -> hasInvalidBounds e = false.
Proof.
  intros (x0 & y0 & x1 & y1 & -> & Hx & Hy & _).
  unfold hasInvalidBounds, gt. simpl.
  apply orb_false_iff. split; now apply Qltb_false.
Qed.

(** X26.  When every corner of every region attachment is finite and some
    vertex is finite, the box that [getBounds] returns is the union box
    of the finite vertices: the non-finite mesh vertices are skipped. *)
Lemma getBounds_union (slots : list slot) :
  forallb finite_point (flat_map region_corners slots) = true ->
  finite_points slots <> [] ->
  exists x0 y0 x1 y1,
    box (getBounds slots) = mkExtrema (Fin x0) (Fin y0) (Fin x1) (Fin y1) /\
    union_box (finite_points slots) x0 y0 x1 y1.
Proof.
  intros Hr Hne.
  assert (Hc : covers (finite_points slots) (scan slots)).
  { unfold scan. rewrite (scan_filter slots start Hr).
    apply covers_start; [apply forallb_filter | exact Hne]. }
  unfold getBounds. cbn [box].
  rewrite (covers_valid _ _ Hc).
  destruct Hc as (x0 & y0 & x1 & y1 & He & _ & _ & Hu).
  now exists x0, y0, x1, y1.
Qed.

End GetBoundsUnion.

(** C1.  A region attachment with one [NaN] corner and three finite
    corners: the finite vertices span the box [0, 0, 10, 10], but
    [getBounds] returns the default box, because the region branch feeds
    every corner to [Math.min] / [Math.max] without the [isFinite] test of
    the mesh branch.  The same vertices in a mesh attachment give the
    union box. *)
Theorem getBounds_region_corner_not_skipped :
  finite_points region_with_nan
  = [(of_Z 0, of_Z 0); (of_Z 10, of_Z 0); (of_Z 10, of_Z 10)] /\
  union_box (finite_points region_with_nan) 0 0 10 10 /\
  SpineCanvas.box (SpineCanvas.getBounds region_with_nan)
  = SpineCanvas.default_box /\
  SpineCanvas.box (SpineCanvas.getBounds mesh_with_nan)
  = mkExtrema (of_Z 0) (of_Z 0) (of_Z 10) (of_Z 10).
Proof.
  split; [reflexivity|]. split; [|split; reflexivity].
  change (finite_points region_with_nan)
    with [(Fin 0, Fin 0); (Fin 10, Fin 0); (Fin 10, Fin 10)].
  split; [|repeat split; eexists; simpl; eauto].
  intros a b [H | [H | [H | []]]]; injection H as <- <-; lra.
Qed.

(* ------------------------------------------------------------------ *)
(** ** [getBounds] and [fitCamera]: the returned values *)

Section FitCamera.
Import SpineCanvas.

Lemma invalid_false_finite (e : extrema) :
  hasInvalidBounds e = false ->
  exists x0 y0 x1 y1,
    e = mkExtrema (Fin x0) (Fin y0) (Fin x1) (Fin y1) /\ x0 <= x1 /\ y0 <= y1.
Proof.
  destruct e as [[| | |x0] [| | |y0] [| | |x1] [| | |y1]];
    unfold hasInvalidBounds, gt; simpl; try discriminate;
    rewrite ?orb_true_r; try discriminate.
  rewrite orb_false_iff, !Qltb_false. intros [Hx Hy].
  now exists x0, y0, x1, y1.
Qed.

(** The box of [getBounds] is always finite and ordered. *)
Lemma getBounds_box_finite (slots : list slot) :
  exists x0 y0 x1 y1,
    box (getBounds slots) = mkExtrema (Fin x0) (Fin y0) (Fin x1) (Fin y1) /\
    x0 <= x1 /\ y0 <= y1.
Proof.
  unfold getBounds. cbn [box].
  destruct (hasInvalidBounds (scan slots)) eqn:E.
  - exists (inject_Z (-100)), (inject_Z (-100)), (inject_Z 100), (inject_Z 100).
    split; [reflexivity|]. split; unfold Qle; simpl; lia.
  - now apply invalid_false_finite.
Qed.

Lemma getBounds_w (slots : list slot) :
  w (getBounds slots)
  = Math_max (of_Z 50) (sub (maxX (box (getBounds slots)))
                            (minX (box (getBounds slots)))).
Proof. reflexivity. Qed.

Lemma getBounds_h (slots : list slot) :
  h (getBounds slots)
  = Math_max (of_Z 50) (sub (maxY (box (getBounds slots)))
                            (minY (box (getBounds slots)))).
Proof. reflexivity. Qed.

Lemma max_100_max_50 (d : Q) :
  Math_max minSize (Math_max (of_Z 50) (Fin d)) = Math_max minSize (Fin d).
Proof.
  unfold minSize, of_Z. rewrite !Math_max_Fin.
  destruct (Qltb_spec (inject_Z 50) d) as [H | H].
  - reflexivity.
  - destruct (Qltb_spec (inject_Z 100) (inject_Z 50)) as [H1 | H1];
      [exfalso; revert H1; unfold Qlt; simpl; lia|].
    destruct (Qltb_spec (inject_Z 100) d) as [H2 | H2]; [|reflexivity].
    exfalso. assert (inject_Z 50 < inject_Z 100) by (unfold Qlt; simpl; lia).
    lra.
Qed.

Lemma max_100_floor (d : Q) :
  exists r, Math_max minSize (Fin d) = Fin r /\ 100 <= r.
Proof.
  unfold minSize, of_Z. rewrite Math_max_Fin.
  destruct (Qltb_spec (inject_Z 100) d) as [H | H]; eexists; split;
    try reflexivity.
  - change (inject_Z 100) with 100 in H. lra.
  - apply Qle_refl.
Qed.

Lemma div_Fin_pos (a c : Q) : 0 < c -> div (Fin a) (Fin c) = Fin (Qred (a / c)).
Proof.
  intros Hc. simpl. destruct (Qeq_bool c 0) eqn:E; [|reflexivity].
  apply Qeq_bool_iff in E. lra.
Qed.

Lemma clamp_range (r : Q) :
  exists z, clamp (Fin r) zoom_lo zoom_hi = Fin z /\ 5 # 1000 <= z /\ z <= 5.
Proof.
  unfold clamp, zoom_lo, zoom_hi, of_Z. rewrite Math_max_Fin, Math_min_Fin.
  change (inject_Z 5) with 5.
  eexists; split; [reflexivity|].
  destruct (Qltb_spec (5 # 1000) r) as [H | H].
  - destruct (Qltb_spec r 5) as [H' | H']; lra.
  - destruct (Qltb_spec (5 # 1000) 5) as [H' | H']; lra.
Qed.

End FitCamera.

(** C3, as the code has it.  For every pose, every positive viewport and
    every finite padding, [fitCamera] sets
    [zoom = clamp(max(W * padding / cssW, H * padding / cssH), 0.005, 5)]
    where [W] and [H] are the width and height of the bounds raised to
    at least [minSize = 100]; the zoom is a finite number of
    [[0.005, 5]]. *)
Theorem fitCamera_zoom_clamped (slots : list slot) (cw ch p : Q) :
  0 < cw -> 0 < ch ->
  let b := SpineCanvas.box (SpineCanvas.getBounds slots) in
  let cam := SpineCanvas.fitCamera slots (Fin cw) (Fin ch) (Fin p) in
  let W := Math_max SpineCanvas.minSize (sub (maxX b) (minX b)) in
  let H := Math_max SpineCanvas.minSize (sub (maxY b) (minY b)) in
  SpineCanvas.zoom cam
  = clamp (Math_max (div (mul W (Fin p)) (Fin cw))
                    (div (mul H (Fin p)) (Fin ch)))
          SpineCanvas.zoom_lo SpineCanvas.zoom_hi /\
  exists z, SpineCanvas.zoom cam = Fin z /\ 5 # 1000 <= z /\ z <= 5.
Proof.
  intros Hcw Hch b cam W H.
  assert (Hz : SpineCanvas.zoom cam
               = clamp (Math_max (div (mul W (Fin p)) (Fin cw))
                                 (div (mul H (Fin p)) (Fin ch)))
                       SpineCanvas.zoom_lo SpineCanvas.zoom_hi).
  { subst cam W H b. unfold SpineCanvas.fitCamera. cbn [SpineCanvas.zoom].
    rewrite getBounds_w, getBounds_h.
    destruct (getBounds_box_finite slots)
      as (x0 & y0 & x1 & y1 & -> & _ & _).
    cbn [minX minY maxX maxY sub]. now rewrite !max_100_max_50. }
  split; [exact Hz|]. rewrite Hz. subst W H b.
  destruct (getBounds_box_finite slots) as (x0 & y0 & x1 & y1 & -> & _ & _).
  cbn [minX minY maxX maxY sub].
  destruct (max_100_floor (Qred (x1 - x0))) as (wq & -> & _).
  destruct (max_100_floor (Qred (y1 - y0))) as (hq & -> & _).
  cbn [mul]. rewrite (div_Fin_pos _ _ Hcw), (div_Fin_pos _ _ Hch).
  rewrite Math_max_Fin. apply clamp_range.
Qed.

Lemma fitCamera_zoom_clamped_witness :
  (0 < 400 /\ 0 < 400) /\
  exists z,
    SpineCanvas.zoom
      (SpineCanvas.fitCamera small_mesh (of_Z 400) (of_Z 400)
         SpineCanvas.default_padding) = Fin z /\
    5 # 1000 <= z /\ z <= 5.
Proof.
  split; [split; reflexivity|].
  refine (proj2 (fitCamera_zoom_clamped small_mesh 400 400 (3 # 2) _ _));
    reflexivity.
Defined.

(** C3, counterexample.  For the 10 x 10 square in a 400 x 400 viewport
    the zoom of [fitCamera] is [100 * 1.5 / 400 = 0.375], not the
    [10 * 1.5 / 400 = 0.0375] of the formula on the width as it is. *)
Lemma fitCamera_zoom_not_on_raw_width :
  SpineCanvas.zoom
    (SpineCanvas.fitCamera small_mesh (of_Z 400) (of_Z 400)
       SpineCanvas.default_padding) = Fin (3 # 8) /\
  spec_zoom (SpineCanvas.box (SpineCanvas.getBounds small_mesh))
    (of_Z 400) (of_Z 400) SpineCanvas.default_padding
    SpineCanvas.zoom_lo SpineCanvas.zoom_hi = Fin (3 # 80) /\
  SpineCanvas.zoom
    (SpineCanvas.fitCamera small_mesh (of_Z 400) (of_Z 400)
       SpineCanvas.default_padding)
  <> spec_zoom (SpineCanvas.box (SpineCanvas.getBounds small_mesh))
       (of_Z 400) (of_Z 400) SpineCanvas.default_padding
       SpineCanvas.zoom_lo SpineCanvas.zoom_hi.
Proof.
  split; [reflexivity|]. split; [reflexivity|].
  vm_compute. discriminate.
Qed.

(* ------------------------------------------------------------------ *)
(** ** [fitCamera]: the camera position *)

Section CameraCenter.
Import SpineCanvas.

Lemma center_midpoint (x0 x1 : Q) :
  lt (sub (Fin x1) (Fin x0)) (of_Z 50) = false ->
  add (Fin x0) (div (Math_max (of_Z 50) (sub (Fin x1) (Fin x0))) (of_Z 2))
  = midpoint (Fin x0) (Fin x1).
Proof.
  unfold midpoint, of_Z. cbn [sub lt add]. rewrite Math_max_Fin.
  intros H. apply Qltb_false in H.
  rewrite !div_Fin_pos by reflexivity. cbn [add]. f_equal.
  apply Qred_complete.
  rewrite Qred_correct in H.
  change (inject_Z 2) with 2. change (inject_Z 50) with 50 in *.
  destruct (Qltb_spec 50 (Qred (x1 - x0))) as [H' | H'];
    rewrite Qred_correct in H'; rewrite !Qred_correct.
  - field.
  - assert (E : x1 == x0 + 50) by lra.
    rewrite E. field.
Qed.

(** On an axis on which the bounds extend over less than 50, the
    position lies beyond the midpoint, by half of what is missing. *)
Lemma center_off_midpoint (x0 x1 : Q) :
  lt (sub (Fin x1) (Fin x0)) (of_Z 50) = true ->
  exists c m,
    add (Fin x0) (div (Math_max (of_Z 50) (sub (Fin x1) (Fin x0))) (of_Z 2))
    = Fin c /\
    midpoint (Fin x0) (Fin x1) = Fin m /\
    c == m + (50 - (x1 - x0)) / 2 /\ m < c.
Proof.
  unfold midpoint, of_Z. cbn [sub lt add]. rewrite Math_max_Fin.
  intros H. apply Qltb_true in H. rewrite Qred_correct in H.
  change (inject_Z 50) with 50 in *.
  destruct (Qltb_spec 50 (Qred (x1 - x0))) as [H' | _];
    [rewrite Qred_correct in H'; lra|].
  rewrite !div_Fin_pos by reflexivity. cbn [add].
  eexists _, _. split; [reflexivity|]. split; [reflexivity|].
  change (inject_Z 2) with 2.
  rewrite !Qred_correct.
  split; [field|].
  setoid_replace ((x0 + x1) / 2) with ((x0 + x1) * (1 # 2)) by field.
  setoid_replace (50 / 2) with 25 by field.
  lra.
Qed.

End CameraCenter.

(** C7.  The bounds [0, 0, 10, 10] of a 10 x 10 square have the
    midpoint (5, 5), but [fitCamera] places the camera at (25, 25):
    [getBounds] computes the centre as [minX + w / 2] after raising [w]
    (and [h]) to at least 50, where its comment announces the centre of
    the box.  In general the camera sits at [minX + max(50, maxX - minX)
    / 2] of the bounds that [getBounds] produced: on an axis on which
    they extend over less than 50 it lies beyond the midpoint by half of
    what is missing, and on the other axes it is the midpoint. *)
Theorem fitCamera_center_not_midpoint :
  (let b := SpineCanvas.box (SpineCanvas.getBounds small_mesh) in
   let cam := SpineCanvas.fitCamera small_mesh (of_Z 400) (of_Z 400)
                SpineCanvas.default_padding in
   b = mkExtrema (of_Z 0) (of_Z 0) (of_Z 10) (of_Z 10) /\
   SpineCanvas.positionX cam = of_Z 25 /\
   SpineCanvas.positionY cam = of_Z 25 /\
   midpoint (minX b) (maxX b) = of_Z 5 /\
   midpoint (minY b) (maxY b) = of_Z 5 /\
   SpineCanvas.positionX cam <> midpoint (minX b) (maxX b) /\
   SpineCanvas.positionY cam <> midpoint (minY b) (maxY b)) /\
  (forall (slots : list slot) (cssW cssH padding : num),
     let b := SpineCanvas.box (SpineCanvas.getBounds slots) in
     let cam := SpineCanvas.fitCamera slots cssW cssH padding in
     SpineCanvas.positionX cam
     = add (minX b)
           (div (Math_max (of_Z 50) (sub (maxX b) (minX b))) (of_Z 2)) /\
     SpineCanvas.positionY cam
     = add (minY b)
           (div (Math_max (of_Z 50) (sub (maxY b) (minY b))) (of_Z 2)) /\
     (lt (sub (maxX b) (minX b)) (of_Z 50) = true ->
      SpineCanvas.positionX cam <> midpoint (minX b) (maxX b)) /\
     (lt (sub (maxY b) (minY b)) (of_Z 50) = true ->
      SpineCanvas.positionY cam <> midpoint (minY b) (maxY b)) /\
     (lt (sub (maxX b) (minX b)) (of_Z 50) = false ->
      SpineCanvas.positionX cam = midpoint (minX b) (maxX b)) /\
     (lt (sub (maxY b) (minY b)) (of_Z 50) = false ->
      SpineCanvas.positionY cam = midpoint (minY b) (maxY b))).
Proof.
  split.
  - repeat split; try reflexivity; vm_compute; discriminate.
  - intros slots cssW cssH padding b cam.
    assert (Hx : SpineCanvas.positionX cam
                 = add (minX b)
                     (div (Math_max (of_Z 50) (sub (maxX b) (minX b)))
                        (of_Z 2)))
      by reflexivity.
    assert (Hy : SpineCanvas.positionY cam
                 = add (minY b)
                     (div (Math_max (of_Z 50) (sub (maxY b) (minY b)))
                        (of_Z 2)))
      by reflexivity.
    split; [exact Hx|]. split; [exact Hy|].
    rewrite Hx, Hy. subst b.
    destruct (getBounds_box_finite slots) as (x0 & y0 & x1 & y1 & -> & _ & _).
    cbn [minX minY maxX maxY].
    split; [|split; [|split; apply center_midpoint]].
    + intros H. destruct (center_off_midpoint x0 x1 H) as (c & m & -> & -> & _ & Hlt).
      intros E. injection E as E. rewrite E in Hlt. lra.
    + intros H. destruct (center_off_midpoint y0 y1 H) as (c & m & -> & -> & _ & Hlt).
      intros E. injection E as E. rewrite E in Hlt. lra.
Qed.

(* ------------------------------------------------------------------ *)
(** ** [layoutGrid] *)

Section LayoutGrid.
Import SpineCanvasGrid.

(** [ceil_sqrt n] is the least [c] with [n <= c * c]. *)
Lemma ceil_sqrt_spec (n : Z) :
  (0 < n)%Z ->
  (0 < ceil_sqrt n /\
   (ceil_sqrt n - 1) * (ceil_sqrt n - 1) < n <= ceil_sqrt n * ceil_sqrt n)%Z.
Proof.
  intros Hn. unfold ceil_sqrt.
  pose proof (Z.sqrt_spec n (Z.lt_le_incl _ _ Hn)) as Hs.
  pose proof (Z.sqrt_nonneg n) as Hs0.
  unfold Z.succ in Hs.
  destruct (Z.eqb_spec (Z.sqrt n * Z.sqrt n) n) as [E | E]; nia.
Qed.

(** [ceil_quot n c] is the least [r] with [n <= r * c]. *)
Lemma ceil_quot_spec (n c : Z) :
  (0 < c)%Z ->
  ((ceil_quot n c - 1) * c < n <= ceil_quot n c * c)%Z.
Proof.
  intros Hc. unfold ceil_quot.
  set (q := inject_Z n / inject_Z c).
  assert (Hcq : 0 < inject_Z c)
    by (change 0 with (inject_Z 0); rewrite <- Zlt_Qlt; exact Hc).
  assert (Hq : q * inject_Z c == inject_Z n).
  { unfold q. field. intro E. rewrite E in Hcq. now apply Qlt_irrefl in Hcq. }
  pose proof (Qle_ceiling q) as Hle.
  pose proof (Qceiling_lt q) as Hlt.
  split.
  - rewrite Zlt_Qlt, inject_Z_mult, <- Hq.
    now apply Qmult_lt_compat_r.
  - rewrite Zle_Qle, inject_Z_mult, <- Hq.
    apply Qmult_le_compat_r; [exact Hle | now apply Qlt_le_weak].
Qed.

Lemma layout_from_nth (cols : Z) (cellW cellH : num) (rts : list Runtime) :
  forall (i : Z) (k : nat),
    nth_error (layout_from cols cellW cellH i rts) k
    = option_map (place cols cellW cellH (i + Z.of_nat k)) (nth_error rts k).
Proof.
  induction rts as [|rt rts IH]; intros i k.
  - now destruct k.
  - destruct k as [|k].
    + simpl. now rewrite Z.add_0_r.
    + cbn [layout_from nth_error]. rewrite IH. do 2 f_equal. lia.
Qed.

Lemma place_placement (n : Z) (W H : num) (i : Z) (rt : Runtime) :
  place (grid_cols n) (div W (of_Z (grid_cols n)))
        (div H (of_Z (grid_rows n))) i rt
  = mkRuntime (placement n W H i rt).
Proof. reflexivity. Qed.

(** Every element of the result is the placement of the element of the
    same index, computed from that element, the index, the count and the
    viewport. *)
Lemma layoutGrid_nth (runtimes : list Runtime) (W H : num) (k : nat) :
  nth_error (layoutGrid runtimes W H) k
  = option_map
      (fun rt => mkRuntime
                   (placement (Z.of_nat (List.length runtimes)) W H
                      (Z.of_nat k) rt))
      (nth_error runtimes k).
Proof.
  destruct runtimes as [|rt0 rts]; [now destruct k|].
  unfold layoutGrid. rewrite layout_from_nth. simpl Z.add.
  destruct (nth_error (rt0 :: rts) k); [|reflexivity].
  simpl option_map. now rewrite place_placement.
Qed.

Lemma layoutGrid_length (runtimes : list Runtime) (W H : num) :
  List.length (layoutGrid runtimes W H) = List.length runtimes.
Proof.
  destruct runtimes as [|rt0 rts]; [reflexivity|].
  unfold layoutGrid.
  generalize (grid_cols (Z.of_nat (List.length (rt0 :: rts)))).
  generalize (div W (of_Z (grid_cols (Z.of_nat (List.length (rt0 :: rts)))))).
  generalize (div H (of_Z (grid_rows (Z.of_nat (List.length (rt0 :: rts)))))).
  intros cellH cellW cols. generalize 0%Z. generalize (rt0 :: rts).
  induction l as [|a l IH]; intros i; simpl; auto.
Qed.

End LayoutGrid.

(** C4, as the code has it.  For [N >= 1] shapes, [layoutGrid] takes
    [cols = ceil(sqrt(N))] (the least [c] with [N <= c * c]) and
    [rows = ceil(N / cols)] (the least [r] with [N <= r * cols]) from the
    count alone; shape [i] goes to cell [(i mod cols, i div cols)], a
    cell of the grid, of size [W / cols] by [H / rows]; its scale is
    [min(cellW / max(width, 1), cellH / max(height, 1)) * 0.9].  For the
    two shapes [0, 0, 10, 10] and [0, 0, 20, 5] in a 400 x 400 viewport:
    2 columns, 1 row, cells of 200 x 400, scales 18 and 9. *)
Theorem layoutGrid_placements :
  (forall (runtimes : list SpineCanvasGrid.Runtime) (W H : num)
          (i : nat) (rt : SpineCanvasGrid.Runtime),
     nth_error runtimes i = Some rt ->
     let n := Z.of_nat (List.length runtimes) in
     let cols := SpineCanvasGrid.grid_cols n in
     let rows := SpineCanvasGrid.grid_rows n in
     let cellW := div W (of_Z cols) in
     let cellH := div H (of_Z rows) in
     let a := SpineCanvasGrid.computeAABB (SpineCanvasGrid.rt_skeleton rt) in
     let sk := placement n W H (Z.of_nat i) rt in
     ((cols - 1) * (cols - 1) < n <= cols * cols)%Z /\
     ((rows - 1) * cols < n <= rows * cols)%Z /\
     (0 <= Z.of_nat i mod cols < cols)%Z /\
     (0 <= Z.of_nat i / cols < rows)%Z /\
     nth_error (SpineCanvasGrid.layoutGrid runtimes W H) i
     = Some (SpineCanvasGrid.mkRuntime sk) /\
     SpineCanvasGrid.scaleX sk
     = mul (Math_min
              (div cellW (Math_max (SpineCanvasGrid.width a) (of_Z 1)))
              (div cellH (Math_max (SpineCanvasGrid.height a) (of_Z 1))))
           SpineCanvasGrid.PADDING_RATIO /\
     SpineCanvasGrid.scaleY sk = SpineCanvasGrid.scaleX sk) /\
  (SpineCanvasGrid.grid_cols 2 = 2%Z /\
   SpineCanvasGrid.grid_rows 2 = 1%Z /\
   div (of_Z 400) (of_Z (SpineCanvasGrid.grid_cols 2)) = of_Z 200 /\
   div (of_Z 400) (of_Z (SpineCanvasGrid.grid_rows 2)) = of_Z 400 /\
   map (fun rt => SpineCanvasGrid.scaleX (SpineCanvasGrid.rt_skeleton rt))
       (SpineCanvasGrid.layoutGrid [shape1; shape2] (of_Z 400) (of_Z 400))
   = [of_Z 18; of_Z 9]).
Proof.
  split; [|repeat split; reflexivity].
  intros runtimes W H i rt Hi n cols rows cellW cellH a sk.
  assert (Hlen : (i < List.length runtimes)%nat)
    by (apply nth_error_Some; congruence).
  assert (Hn : (0 < n)%Z) by (subst n; lia).
  assert (Hcs : (0 < cols /\ (cols - 1) * (cols - 1) < n <= cols * cols)%Z)
    by exact (ceil_sqrt_spec n Hn).
  destruct Hcs as [Hc0 Hc].
  assert (Hr : ((rows - 1) * cols < n <= rows * cols)%Z)
    by exact (ceil_quot_spec n cols Hc0).
  assert (Hi' : (0 <= Z.of_nat i < n)%Z) by (subst n; lia).
  pose proof (Z.mod_pos_bound (Z.of_nat i) cols Hc0) as Hm.
  assert (Hd : (0 <= Z.of_nat i / cols < rows)%Z).
  { split; [apply Z.div_pos; lia|].
    apply Z.div_lt_upper_bound; [exact Hc0|]. nia. }
  split; [exact Hc|]. split; [exact Hr|].
  split; [exact Hm|]. split; [exact Hd|].
  split; [|split; reflexivity].
  rewrite layoutGrid_nth, Hi. reflexivity.
Qed.

Lemma layoutGrid_placements_witness :
  nth_error [shape1; shape2] 1 = Some shape2 /\
  nth_error (SpineCanvasGrid.layoutGrid [shape1; shape2] (of_Z 400) (of_Z 400))
            1
  = Some (SpineCanvasGrid.mkRuntime
            (placement 2 (of_Z 400) (of_Z 400) 1 shape2)).
Proof.
  split; [reflexivity|].
  apply (proj1 layoutGrid_placements [shape1; shape2] (of_Z 400) (of_Z 400)
           1%nat shape2 eq_refl).
Defined.

(** C4, counterexample.  A single shape half a unit wide and high in a
    400 x 400 viewport gets the scale [min(400 / 1, 400 / 1) * 0.9 = 360],
    not [min(400 / 0.5, 400 / 0.5) * 0.9 = 720]. *)
Lemma layoutGrid_scale_not_on_raw_size :
  let a := SpineCanvasGrid.computeAABB
             (SpineCanvasGrid.rt_skeleton half_unit_shape) in
  let out := SpineCanvasGrid.layoutGrid [half_unit_shape]
               (of_Z 400) (of_Z 400) in
  SpineCanvasGrid.width a = Fin (1 # 2) /\
  SpineCanvasGrid.height a = Fin (1 # 2) /\
  map (fun rt => SpineCanvasGrid.scaleX (SpineCanvasGrid.rt_skeleton rt)) out
  = [of_Z 360] /\
  spec_scale a (of_Z 400) (of_Z 400) = of_Z 720 /\
  map (fun rt => SpineCanvasGrid.scaleX (SpineCanvasGrid.rt_skeleton rt)) out
  <> [spec_scale a (of_Z 400) (of_Z 400)].
Proof.
  repeat split; try reflexivity. vm_compute. discriminate.
Qed.

(** C9.  With the count and the viewport fixed, replacing the shape at
    index [i] changes no other element of the result of [layoutGrid]. *)
Theorem layoutGrid_independent
  (l l' : list SpineCanvasGrid.Runtime) (W H : num) (i : nat) :
  List.length l = List.length l' ->
  (forall j, j <> i -> nth_error l j = nth_error l' j) ->
  forall j, j <> i ->
    nth_error (SpineCanvasGrid.layoutGrid l W H) j
    = nth_error (SpineCanvasGrid.layoutGrid l' W H) j.
Proof.
  intros Hlen Hsame j Hj.
  rewrite !layoutGrid_nth, Hlen, (Hsame j Hj). reflexivity.
Qed.

Lemma layoutGrid_independent_witness :
  List.length [shape1; shape2] = List.length [half_unit_shape; shape2] /\
  (forall j, j <> 0%nat ->
     nth_error [shape1; shape2] j = nth_error [half_unit_shape; shape2] j) /\
  nth_error (SpineCanvasGrid.layoutGrid [shape1; shape2]
               (of_Z 400) (of_Z 400)) 1
  = nth_error (SpineCanvasGrid.layoutGrid [half_unit_shape; shape2]
               (of_Z 400) (of_Z 400)) 1.
Proof.
  assert (Hsame : forall j, j <> 0%nat ->
            nth_error [shape1; shape2] j
            = nth_error [half_unit_shape; shape2] j)
    by (intros [|[|j]] Hj; [congruence | reflexivity | reflexivity]).
  split; [reflexivity|]. split; [exact Hsame|].
  apply (layoutGrid_independent [shape1; shape2] [half_unit_shape; shape2]
           (of_Z 400) (of_Z 400) 0%nat eq_refl Hsame).
  discriminate.
Defined.

(* ------------------------------------------------------------------ *)
(** ** The watchdog *)

Section Watchdog.
Import SpineCanvas.

Lemma watchdog_visible (ws now : Q) : watchdog false ws now = (0, false).
Proof. reflexivity. Qed.

Lemma watchdog_arm (now : Q) : watchdog true 0 now = (now, false).
Proof. reflexivity. Qed.

Lemma watchdog_wait (ws now : Q) :
  ~ ws == 0 -> now - ws <= 600 -> watchdog true ws now = (ws, false).
Proof.
  intros Hws Hd. unfold watchdog, watchdogLimitMs.
  destruct (Qeq_bool ws 0) eqn:E; [apply Qeq_bool_iff in E; contradiction|].
  destruct (Qltb_spec 600 (now - ws)); [lra | reflexivity].
Qed.

Lemma watchdog_fire (ws now : Q) :
  ~ ws == 0 -> 600 < now - ws -> watchdog true ws now = (0, true).
Proof.
  intros Hws Hd. unfold watchdog, watchdogLimitMs.
  destruct (Qeq_bool ws 0) eqn:E; [apply Qeq_bool_iff in E; contradiction|].
  destruct (Qltb_spec 600 (now - ws)); [reflexivity | lra].
Qed.

(** The three ways a frame can leave the watchdog. *)
Lemma watchdog_cases (inv : bool) (ws now : Q) :
  (inv = false /\ watchdog inv ws now = (0, false)) \/
  (inv = true /\ ws == 0 /\ watchdog inv ws now = (now, false)) \/
  (inv = true /\ ~ ws == 0 /\ now - ws <= 600 /\
   watchdog inv ws now = (ws, false)) \/
  (inv = true /\ ~ ws == 0 /\ 600 < now - ws /\
   watchdog inv ws now = (0, true)).
Proof.
  destruct inv; [|now left]. right.
  unfold watchdog, watchdogLimitMs.
  destruct (Qeq_bool ws 0) eqn:E.
  - apply Qeq_bool_iff in E. now left.
  - apply Qeq_bool_neq in E. right.
    destruct (Qltb_spec 600 (now - ws)); [right | left]; auto.
Qed.

(** A call of [onError] at frame [k]: either the timer was already
    running at the start of the run, every frame up to [k] was invisible
    and more than 600 ms have passed since the timer's start, or some
    frame [j] before [k] started the timer and the same holds from [j]. *)
Lemma frames_fired (fs : list (Q * bool)) :
  forall (ws : Q) (k : nat),
    nth k (frames ws fs) false = true ->
    (~ ws == 0 /\
     (forall i, (i <= k)%nat -> snd (nth i fs (0, false)) = true) /\
     600 < fst (nth k fs (0, false)) - ws) \/
    (exists j, (j < k)%nat /\
       (forall i, (j <= i <= k)%nat -> snd (nth i fs (0, false)) = true) /\
       600 < fst (nth k fs (0, false)) - fst (nth j fs (0, false))).
Proof.
  induction fs as [|[now inv] fs IH]; intros ws k Hk.
  - destruct k; discriminate.
  - cbn [frames] in Hk.
    destruct k as [|k].
    + cbn [nth] in Hk. left.
      destruct (watchdog_cases inv ws now)
        as [[_ E] | [[_ [_ E]] | [[_ [_ [_ E]]] | [Hi [Hws [Hd _]]]]]];
        try (rewrite E in Hk; discriminate).
      split; [exact Hws|]. split; [|exact Hd].
      intros i Hi0. replace i with 0%nat by lia. exact Hi.
    + cbn [nth] in Hk. apply IH in Hk.
      destruct (watchdog_cases inv ws now)
        as [[_ E] | [[Hi [_ E]] | [[Hi [Hws [_ E]]] | [_ [_ [_ E]]]]]];
        rewrite E in Hk; cbn [fst] in Hk;
        destruct Hk as [[Hws' [Hall Hd]] | [j [Hj [Hall Hd]]]];
        try (exfalso; apply Hws'; reflexivity);
        try (right; exists (S j); split; [lia|]; split;
             [intros [|i] Hi'; [lia | apply Hall; lia] | exact Hd]).
      * right. exists 0%nat. split; [lia|]. split; [|exact Hd].
        intros [|i] Hi'; [exact Hi | apply Hall; lia].
      * left. split; [exact Hws|]. split; [|exact Hd].
        intros [|i] Hi'; [exact Hi | apply Hall; lia].
Qed.

Lemma frames_length (fs : list (Q * bool)) :
  forall ws, List.length (frames ws fs) = List.length fs.
Proof.
  induction fs as [|[now inv] fs IH]; intros ws; simpl; auto.
Qed.

Lemma all_false_no_call (l : list bool) :
  (forall k, nth k l false = false) -> filter (fun b : bool => b) l = [].
Proof.
  induction l as [|b l IH]; intros H; [reflexivity|].
  pose proof (H 0%nat) as H0. simpl in H0. subst b. simpl.
  apply IH. intros k. exact (H (S k)).
Qed.

End Watchdog.

(** C6.  Started with its timer at rest, the watchdog calls [onError] at
    a frame only if the timer was started at an earlier frame, every
    frame from that one to this one was invisible, and more than 600 ms
    separate the two; from rest, an invisible frame starts the timer at
    its own timestamp; a visible frame puts the timer back to zero;
    hence, when no stretch of invisible frames spans more than 600 ms,
    [onError] is never called and the parent never switches. *)
Theorem watchdog_debounce :
  (forall (fs : list (Q * bool)) (k : nat),
     nth k (SpineCanvas.frames 0 fs) false = true ->
     exists j, (j < k)%nat /\
       (forall i, (j <= i <= k)%nat -> snd (nth i fs (0, false)) = true) /\
       600 < fst (nth k fs (0, false)) - fst (nth j fs (0, false))) /\
  (forall now : Q, SpineCanvas.watchdog true 0 now = (now, false)) /\
  (forall ws now : Q, SpineCanvas.watchdog false ws now = (0, false)) /\
  (forall (fs : list (Q * bool)) (c : SpineRenderer.props * SpineRenderer.state),
     (forall j k, (j <= k)%nat ->
        (forall i, (j <= i <= k)%nat -> snd (nth i fs (0, false)) = true) ->
        fst (nth k fs (0, false)) - fst (nth j fs (0, false)) <= 600) ->
     onError_calls (SpineCanvas.frames 0 fs) = 0%nat /\
     SpineRenderer.run c (onError_events (SpineCanvas.frames 0 fs)) = (c, [])).
Proof.
  assert (Hfired : forall (fs : list (Q * bool)) (k : nat),
     nth k (SpineCanvas.frames 0 fs) false = true ->
     exists j, (j < k)%nat /\
       (forall i, (j <= i <= k)%nat -> snd (nth i fs (0, false)) = true) /\
       600 < fst (nth k fs (0, false)) - fst (nth j fs (0, false))).
  { intros fs k Hk.
    destruct (frames_fired fs 0 k Hk) as [[Hws _] | H]; [|exact H].
    exfalso. apply Hws. reflexivity. }
  split; [exact Hfired|]. split; [reflexivity|]. split; [reflexivity|].
  intros fs c Hshort.
  assert (Hnone : filter (fun b : bool => b) (SpineCanvas.frames 0 fs) = []).
  { apply all_false_no_call. intros k.
    destruct (nth k (SpineCanvas.frames 0 fs) false) eqn:E; [|reflexivity].
    destruct (Hfired fs k E) as (j & Hj & Hall & Hd).
    assert (Hle : (j <= k)%nat) by lia.
    specialize (Hshort j k Hle Hall). lra. }
  unfold onError_calls, onError_events. rewrite Hnone. split; reflexivity.
Qed.

Lemma watchdog_debounce_witness :
  (nth 2 (SpineCanvas.frames 0 [(100, true); (400, true); (701, true)]) false
   = true /\
   exists j, (j < 2)%nat /\
     (forall i, (j <= i <= 2)%nat ->
        snd (nth i [(100, true); (400, true); (701, true)] (0, false)) = true) /\
     600 < fst (nth 2 [(100, true); (400, true); (701, true)] (0, false))
           - fst (nth j [(100, true); (400, true); (701, true)] (0, false))) /\
  onError_calls
    (SpineCanvas.frames 0 [(100, true); (400, false); (500, true)]) = 0%nat.
Proof.
  split.
  - split; [reflexivity|].
    apply (proj1 watchdog_debounce
             [(100, true); (400, true); (701, true)] 2%nat eq_refl).
  - refine (proj1 (proj2 (proj2 (proj2 watchdog_debounce))
                     [(100, true); (400, false); (500, true)]
                     (SpineRenderer.mkProps SpineRenderer.webgl true
                        EmptyString EmptyString, SpineRenderer.initial) _)).
    intros j k _ _.
    destruct j as [|[|[|[|j]]]], k as [|[|[|[|k]]]];
      vm_compute; discriminate.
Defined.

(* ------------------------------------------------------------------ *)
(** ** The fallback flag of [SpineRenderer] *)

Section Fallback.
Import SpineRenderer.

Lemma handleWebglError_primary (p : props) (st : state) :
  enableAutoFallback p = true -> forcePlayer st = false ->
  handleWebglError p st
  = (undefined, [ConsoleError; ConsoleLog; SetForcePlayer true]).
Proof. intros Hp Hs. unfold handleWebglError. now rewrite Hp, Hs. Qed.

Lemma handleWebglError_noop (p : props) (st : state) :
  enableAutoFallback p = false \/ forcePlayer st = true ->
  handleWebglError p st = (undefined, [ConsoleError]).
Proof.
  intros [H | H]; unfold handleWebglError; rewrite H; simpl;
    rewrite ?andb_false_r; reflexivity.
Qed.







End Fallback.

(* ------------------------------------------------------------------ *)
(** ** The preview on the page *)

Section PagePreview.
Import SpineRenderer.



End PagePreview.




(** C8, as the code has it.  [handleWebglError] returns nothing
    ([undefined]); when the automatic fallback is enabled and the state
    is primary it requests exactly one state update, which takes the
    state to fallback, and otherwise it requests none and the state
    stays.  After the call a WebGL preview with the fallback enabled
    renders the player backend. *)
Theorem handleWebglError_outcome
  (p : SpineRenderer.props) (st : SpineRenderer.state) :
  let r := SpineRenderer.handleWebglError p st in
  let st' := fold_left SpineRenderer.apply_effect (snd r) st in
  fst r = SpineRenderer.undefined /\
  SpineRenderer.switches (snd r)
  = (if SpineRenderer.enableAutoFallback p
        && negb (SpineRenderer.forcePlayer st) then 1 else 0)%nat /\
  SpineRenderer.forcePlayer st'
  = SpineRenderer.forcePlayer st || SpineRenderer.enableAutoFallback p /\
  SpineRenderer.effectiveMode
    (webgl_props (SpineRenderer.skeletonPath p) (SpineRenderer.atlasPath p))
    (fold_left SpineRenderer.apply_effect
       (snd (SpineRenderer.handleWebglError
               (webgl_props (SpineRenderer.skeletonPath p)
                            (SpineRenderer.atlasPath p)) st)) st)
  = SpineRenderer.player.
Proof.
  destruct st as [fp]. unfold SpineRenderer.handleWebglError.
  cbn [fst snd SpineRenderer.forcePlayer].
  destruct (SpineRenderer.enableAutoFallback p), fp; repeat split.
Qed.

(** C8, counterexample.  In the primary state with the fallback enabled
    a call of [handleWebglError] makes the transition, and its value is
    [undefined], not the boolean [true]. *)
Lemma handleWebglError_returns_no_boolean :
  let p := webgl_props "a.json" "a.atlas" in
  let r := SpineRenderer.handleWebglError p SpineRenderer.initial in
  SpineRenderer.forcePlayer
    (fold_left SpineRenderer.apply_effect (snd r) SpineRenderer.initial)
  = true /\
  fst r = SpineRenderer.undefined /\
  fst r <> SpineRenderer.boolean true.
Proof. repeat split. discriminate. Qed.

(* ------------------------------------------------------------------ *)
(** ** The other revisions, and the watchdog's input *)

(** In the current revision the flag that feeds the watchdog is never
    set: [getBounds] returns a finite width and height of at least 50. *)
Lemma getBounds_never_invisible (slots : list slot) :
  SpineCanvas.invisible (SpineCanvas.getBounds slots) = false.
Proof.
  unfold SpineCanvas.invisible.
  rewrite getBounds_w, getBounds_h.
  destruct (getBounds_box_finite slots) as (x0 & y0 & x1 & y1 & -> & _ & _).
  cbn [minX minY maxX maxY sub]. unfold of_Z. rewrite !Math_max_Fin.
  cbn [isFinite negb orb lt].
  apply orb_false_iff; split; apply Qltb_false.
  - destruct (Qltb_spec (inject_Z 50) (Qred (x1 - x0))) as [H | H].
    + change (inject_Z 50) with 50 in H. lra.
    + unfold Qle; simpl; lia.
  - destruct (Qltb_spec (inject_Z 50) (Qred (y1 - y0))) as [H | H].
    + change (inject_Z 50) with 50 in H. lra.
    + unfold Qle; simpl; lia.
Qed.

Lemma loopFrame_never_calls (ws now : Q) (pose : option (list slot)) :
  snd (SpineCanvas.loopFrame ws now pose) = false.
Proof.
  destruct pose as [slots|]; [|reflexivity].
  unfold SpineCanvas.loopFrame. now rewrite getBounds_never_invisible.
Qed.

(** In the [SkeletonBounds] revision a degenerate box sets the flag, and
    the zoom is not clamped. *)
Lemma skeletonBounds_invisible :
  SpineCanvasSkeletonBounds.invisible
    (SpineCanvasSkeletonBounds.getBounds
       (mkExtrema (of_Z 0) (of_Z 0) (of_Z 0) (of_Z 0))) = true.
Proof. reflexivity. Qed.

Lemma skeletonBounds_zoom_unclamped :
  SpineCanvas.zoom
    (SpineCanvasSkeletonBounds.fitCamera
       (mkExtrema (of_Z 0) (of_Z 0) (of_Z 4000) (of_Z 4000))
       (of_Z 400) (of_Z 400) SpineCanvasSkeletonBounds.default_padding)
  = of_Z 11.
Proof. reflexivity. Qed.

(** [computeAABB] of the grid revision: a skeleton without vertices gets
    the unit box, and an infinite coordinate is kept. *)
Lemma computeAABB_no_vertex :
  SpineCanvasGrid.box (SpineCanvasGrid.computeAABB (grid_skeleton [None]))
  = SpineCanvasGrid.unit_box.
Proof. reflexivity. Qed.

Lemma computeAABB_keeps_infinity :
  SpineCanvasGrid.box
    (SpineCanvasGrid.computeAABB
       (grid_skeleton
          [Some (MeshAttachment [PosInf; of_Z 0; of_Z 0; of_Z 0])]))
  = mkExtrema (of_Z 0) (of_Z 0) PosInf (of_Z 0).
Proof. reflexivity. Qed.

(* ------------------------------------------------------------------ *)
(** ** The watchdog under its parent *)

Section PreviewLoop.
Import SpineRenderer.

Lemma effectiveMode_initial (p : props) :
  effectiveMode p initial = renderMode p.
Proof.
  unfold effectiveMode. cbn [forcePlayer initial].
  now rewrite andb_false_r.
Qed.

(** The canvas is rendered only under a configuration that the guard of
    [handleWebglError] lets pass as soon as the fallback is enabled. *)
Lemma effectiveMode_webgl (p : props) (st : state) :
  effectiveMode p st = webgl ->
  renderMode p = webgl /\ enableAutoFallback p && forcePlayer st = false.
Proof.
  unfold effectiveMode.
  destruct (renderMode p), (enableAutoFallback p), (forcePlayer st);
    cbn; intros H; try discriminate H; now split.
Qed.

Lemma render_canvas (p : props) (st : state) (ws : Q) :
  Preview.canvas (Preview.render p st) = Some ws ->
  effectiveMode p st = webgl.
Proof.
  unfold Preview.render. cbn [Preview.canvas].
  destruct (effectiveMode p st); [discriminate | reflexivity].
Qed.

Lemma step_canvas {P : Type} (lf : Q -> Q -> option P -> Q * bool)
  (v : Preview.preview) (e : Preview.event P) :
  (forall ws, Preview.canvas v = Some ws ->
     effectiveMode (Preview.props v) (Preview.state v) = webgl) ->
  forall ws, Preview.canvas (fst (Preview.step lf v e)) = Some ws ->
    effectiveMode (Preview.props (fst (Preview.step lf v e)))
                  (Preview.state (fst (Preview.step lf v e))) = webgl.
Proof.
  intros Hv ws. destruct e as [now pose | p']; cbn [Preview.step].
  - unfold Preview.frame.
    destruct (Preview.canvas v) as [w0|] eqn:Ec; [|cbn [fst]; rewrite Ec; discriminate].
    specialize (Hv w0 eq_refl).
    destruct (snd (lf w0 now pose)); [|cbn [fst Preview.canvas Preview.props Preview.state]; auto].
    destruct (existsb is_switch
                (snd (handleWebglError (Preview.props v) (Preview.state v))));
      cbn [fst Preview.canvas Preview.props Preview.state]; auto.
    apply render_canvas.
  - cbn [fst]. apply render_canvas.
Qed.

Lemma run_canvas {P : Type} (lf : Q -> Q -> option P -> Q * bool)
  (es : list (Preview.event P)) :
  forall v,
    (forall ws, Preview.canvas v = Some ws ->
       effectiveMode (Preview.props v) (Preview.state v) = webgl) ->
    forall ws, Preview.canvas (fst (Preview.run lf v es)) = Some ws ->
      effectiveMode (Preview.props (fst (Preview.run lf v es)))
                    (Preview.state (fst (Preview.run lf v es))) = webgl.
Proof.
  induction es as [|e es IH]; intros v Hv; [exact Hv|].
  cbn [Preview.run fst]. apply IH. now apply step_canvas.
Qed.

(** Without a canvas the frames do nothing. *)
Lemma run_no_canvas {P : Type} (lf : Q -> Q -> option P -> Q * bool)
  (pose : P) (m : nat) :
  forall v t,
    Preview.canvas v = None ->
    Preview.run lf v (Preview.sustained pose t m) = (v, []).
Proof.
  induction m as [|m IH]; intros v t Hv; [reflexivity|].
  cbn [Preview.sustained Preview.run Preview.step]. unfold Preview.frame.
  rewrite Hv. cbn [fst snd app]. now rewrite (IH v (t + 100) Hv).
Qed.

(** A frame of the loop that calls nothing. *)
Lemma frame_quiet {P : Type} (lf : Q -> Q -> option P -> Q * bool)
  (p : props) (st : state) (ws now : Q) (pose : option P) (ws' : Q) :
  lf ws now pose = (ws', false) ->
  Preview.frame lf (Preview.mkPreview p st (Some ws)) now pose
  = (Preview.mkPreview p st (Some ws'), []).
Proof.
  intros E. unfold Preview.frame. cbn [Preview.canvas]. now rewrite E.
Qed.

Lemma run_frame_quiet {P : Type} (lf : Q -> Q -> option P -> Q * bool)
  (p : props) (st : state) (ws now : Q) (pose : option P) (ws' : Q)
  (rest : list (Preview.event P)) :
  lf ws now pose = (ws', false) ->
  Preview.run lf (Preview.mkPreview p st (Some ws))
    (Preview.Frame now pose :: rest)
  = Preview.run lf (Preview.mkPreview p st (Some ws')) rest.
Proof.
  intros E. cbn [Preview.run Preview.step].
  rewrite (frame_quiet lf p st ws now pose ws' E). cbn [fst snd app].
  now destruct (Preview.run lf (Preview.mkPreview p st (Some ws')) rest).
Qed.

(** A frame of the loop that calls [onError]. *)
Lemma run_frame_call {P : Type} (lf : Q -> Q -> option P -> Q * bool)
  (p : props) (st : state) (ws now : Q) (pose : option P) (ws' : Q)
  (rest : list (Preview.event P)) (v' : Preview.preview) :
  lf ws now pose = (ws', true) ->
  v' = (if existsb is_switch (snd (handleWebglError p st))
        then Preview.render p
               (fold_left apply_effect (snd (handleWebglError p st)) st)
        else Preview.mkPreview p st (Some ws')) ->
  Preview.run lf (Preview.mkPreview p st (Some ws))
    (Preview.Frame now pose :: rest)
  = (fst (Preview.run lf v' rest),
     snd (handleWebglError p st) ++ snd (Preview.run lf v' rest)).
Proof.
  intros E ->. cbn [Preview.run Preview.step]. unfold Preview.frame.
  cbn [Preview.canvas Preview.props Preview.state]. rewrite E. cbn [fst snd].
  now destruct (existsb is_switch (snd (handleWebglError p st))).
Qed.

(** In the current revision no frame calls [onError]. *)
Lemma run_current_quiet (es : list (Preview.event (list slot))) :
  forall v, snd (Preview.run SpineCanvas.loopFrame v es) = [].
Proof.
  induction es as [|e es IH]; intros v; [reflexivity|].
  cbn [Preview.run snd]. rewrite IH, app_nil_r.
  destruct e as [now pose | p']; [|reflexivity].
  cbn [Preview.step]. unfold Preview.frame.
  destruct (Preview.canvas v) as [ws|]; [|reflexivity].
  now rewrite loopFrame_never_calls.
Qed.

Section SkeletonBoundsLoop.
Import SpineCanvas.
Variable sb : extrema.
Hypothesis Hsb :
  SpineCanvasSkeletonBounds.invisible
    (SpineCanvasSkeletonBounds.getBounds sb) = true.

Lemma skb_frame (ws now : Q) :
  SpineCanvasSkeletonBounds.loopFrame ws now (Some sb) = watchdog true ws now.
Proof. unfold SpineCanvasSkeletonBounds.loopFrame. now rewrite Hsb. Qed.

(** Seven invisible frames 100 ms apart, from rest: the timer is
    started by the first and nothing is called. *)
Lemma skb_seven (p : props) (st : state) (t : Q) :
  0 < t ->
  Preview.run SpineCanvasSkeletonBounds.loopFrame
    (Preview.mkPreview p st (Some 0)) (Preview.sustained sb t 7)
  = (Preview.mkPreview p st (Some t), []).
Proof.
  intros Ht. cbn [Preview.sustained].
  rewrite (run_frame_quiet _ p st 0 t (Some sb) t)
    by (rewrite skb_frame; apply watchdog_arm).
  do 6 (rewrite (run_frame_quiet _ p st t _ (Some sb) t)
          by (rewrite skb_frame; apply watchdog_wait; lra)).
  reflexivity.
Qed.

Lemma sustained_app (t : Q) (a b : nat) :
  exists t',
    Preview.sustained sb t (a + b)
    = Preview.sustained sb t a ++ Preview.sustained sb t' b /\
    t' == t + 100 * inject_Z (Z.of_nat a).
Proof.
  revert t. induction a as [|a IH]; intros t.
  - exists t. split; [reflexivity|].
    change (inject_Z (Z.of_nat 0)) with 0. lra.
  - destruct (IH (t + 100)) as (t' & E & Ht').
    exists t'. cbn [Nat.add Preview.sustained app]. rewrite E.
    split; [reflexivity|].
    rewrite Ht', Nat2Z.inj_succ, <- Z.add_1_r, inject_Z_plus.
    change (inject_Z 1) with 1. lra.
Qed.

Lemma run_app {P : Type} (lf : Q -> Q -> option P -> Q * bool)
  (es1 es2 : list (Preview.event P)) :
  forall v,
    Preview.run lf v (es1 ++ es2)
    = (fst (Preview.run lf (fst (Preview.run lf v es1)) es2),
       snd (Preview.run lf v es1)
       ++ snd (Preview.run lf (fst (Preview.run lf v es1)) es2)).
Proof.
  induction es1 as [|e es1 IH]; intros v.
  - cbn [app Preview.run fst snd]. now destruct (Preview.run lf v es2).
  - cbn [app Preview.run fst snd]. rewrite IH. cbn [fst snd].
    now rewrite app_assoc.
Qed.

(** The eighth frame calls [onError]. *)
Lemma skb_eighth (t now : Q) :
  0 < t -> 600 < now - t ->
  SpineCanvasSkeletonBounds.loopFrame t now (Some sb) = (0, true).
Proof.
  intros Ht Hd. rewrite skb_frame. apply watchdog_fire; lra.
Qed.

(** With the fallback switched off the parent stays as it is, the canvas
    stays mounted, and every eight frames bring one call. *)
Lemma skb_calls_no_fallback (p : props) (st : state) (n : nat) :
  enableAutoFallback p = false ->
  forall t, 0 < t ->
    let r := Preview.run SpineCanvasSkeletonBounds.loopFrame
               (Preview.mkPreview p st (Some 0))
               (Preview.sustained sb t (8 * n)) in
    fst r = Preview.mkPreview p st (Some 0) /\
    Preview.calls (snd r) = n /\ switches (snd r) = 0%nat.
Proof.
  intros Hp. induction n as [|n IH]; intros t Ht; [now repeat split|].
  replace (8 * S n)%nat with (7 + S (8 * n))%nat by lia.
  destruct (sustained_app t 7 (S (8 * n))) as (t7 & -> & Ht7).
  change (inject_Z (Z.of_nat 7)) with 7 in Ht7.
  cbv zeta. rewrite run_app, (skb_seven p st t Ht). cbn [fst snd app].
  cbn [Preview.sustained].
  assert (Ht8 : 0 < t7 + 100) by (rewrite Ht7; lra).
  destruct (IH (t7 + 100) Ht8) as (E1 & E2 & E3). cbv zeta in E1, E2, E3.
  rewrite (run_frame_call _ p st t t7 (Some sb) 0 _
             (Preview.mkPreview p st (Some 0)))
    by (try (apply skb_eighth; [exact Ht | rewrite Ht7; lra]);
        now rewrite (handleWebglError_noop p st (or_introl Hp))).
  rewrite (handleWebglError_noop p st (or_introl Hp)). cbn [fst snd].
  split; [exact E1|]. split.
  - unfold Preview.calls in *. cbn [app filter Preview.is_call List.length].
    now rewrite E2.
  - unfold switches in *. cbn [app filter is_switch]. exact E3.
Qed.

(** With the fallback enabled the first call switches and takes the
    canvas down; nothing is called after it. *)
Lemma skb_calls_fallback (p : props) (n : nat) (t : Q) :
  enableAutoFallback p = true -> renderMode p = webgl -> 0 < t ->
  Preview.run SpineCanvasSkeletonBounds.loopFrame
    (Preview.mkPreview p initial (Some 0))
    (Preview.sustained sb t (8 * S n))
  = (Preview.mkPreview p (mkState true) None,
     [ConsoleError; ConsoleLog; SetForcePlayer true]).
Proof.
  intros Hp Hm Ht.
  replace (8 * S n)%nat with (7 + S (8 * n))%nat by lia.
  destruct (sustained_app t 7 (S (8 * n))) as (t7 & -> & Ht7).
  change (inject_Z (Z.of_nat 7)) with 7 in Ht7.
  rewrite run_app, (skb_seven p initial t Ht). cbn [fst snd app].
  cbn [Preview.sustained].
  assert (Er : Preview.render p (mkState true)
               = Preview.mkPreview p (mkState true) None).
  { unfold Preview.render, effectiveMode. rewrite Hm, Hp. reflexivity. }
  rewrite (run_frame_call _ p initial t t7 (Some sb) 0 _
             (Preview.mkPreview p (mkState true) None))
    by (try (apply skb_eighth; [exact Ht | rewrite Ht7; lra]);
        rewrite (handleWebglError_primary p initial Hp eq_refl);
        cbn [snd existsb is_switch orb fold_left apply_effect];
        now rewrite Er).
  rewrite (handleWebglError_primary p initial Hp eq_refl).
  rewrite run_no_canvas by reflexivity.
  cbn [fst snd]. now rewrite app_nil_r.
Qed.

End SkeletonBoundsLoop.

End PreviewLoop.

(** C10, as the code has it.  A call of [onError] puts the timer of the
    watchdog back to zero, so the next invisible frame starts it again.
    In the [SkeletonBounds] revision, over [8 * n] frames 100 ms apart
    of a pose that the loop finds invisible, under a parent in WebGL
    mode: with the fallback switched off the canvas stays mounted and
    [onError] is called [n] times (once every 800 ms), without any
    switch; with the fallback enabled the first call switches, the
    parent then renders the player instead of the canvas, which ends the
    loop, and there is one call and one switch however long the pose
    lasts.  Whatever the loop and the events, while the canvas is mounted
    the parent is not both enabled for the fallback and in the fallback
    state, so that a call from the canvas switches exactly when the
    fallback is enabled.  In the current revision no frame calls
    [onError] at all.  A frame skipped for a missing ref changes
    nothing. *)
Theorem watchdog_rearms (n : nat) (t0 : Q) (p : SpineRenderer.props)
  (sb : extrema) :
  0 < t0 ->
  SpineRenderer.renderMode p = SpineRenderer.webgl ->
  SpineCanvasSkeletonBounds.invisible
    (SpineCanvasSkeletonBounds.getBounds sb) = true ->
  let r := Preview.run SpineCanvasSkeletonBounds.loopFrame (Preview.mount p)
             (Preview.sustained sb t0 (8 * n)) in
  (forall ws now : Q,
     snd (SpineCanvas.watchdog true ws now) = true ->
     fst (SpineCanvas.watchdog true ws now) = 0) /\
  (SpineRenderer.enableAutoFallback p = false ->
   Preview.calls (snd r) = n /\
   SpineRenderer.switches (snd r) = 0%nat /\
   fst r = Preview.mkPreview p SpineRenderer.initial (Some 0)) /\
  (SpineRenderer.enableAutoFallback p = true ->
   Preview.calls (snd r) = Nat.min 1 n /\
   SpineRenderer.switches (snd r) = Nat.min 1 n /\
   ((0 < n)%nat ->
    fst r = Preview.mkPreview p (SpineRenderer.mkState true) None)) /\
  (forall (P : Type) (loopFrame : Q -> Q -> option P -> Q * bool)
          (q : SpineRenderer.props) (es : list (Preview.event P)) (ws : Q),
     let v := fst (Preview.run loopFrame (Preview.mount q) es) in
     Preview.canvas v = Some ws ->
     SpineRenderer.enableAutoFallback (Preview.props v)
     && SpineRenderer.forcePlayer (Preview.state v) = false /\
     snd (SpineRenderer.handleWebglError (Preview.props v) (Preview.state v))
     = SpineRenderer.ConsoleError
       :: (if SpineRenderer.enableAutoFallback (Preview.props v)
           then [SpineRenderer.ConsoleLog; SpineRenderer.SetForcePlayer true]
           else [])) /\
  (forall (q : SpineRenderer.props) (es : list (Preview.event (list slot))),
     snd (Preview.run SpineCanvas.loopFrame (Preview.mount q) es) = []) /\
  (forall (v : Preview.preview) (now : Q),
     Preview.frame SpineCanvasSkeletonBounds.loopFrame v now None = (v, []) /\
     Preview.frame SpineCanvas.loopFrame v now None = (v, [])).
Proof.
  intros Ht Hm Hsb r.
  assert (Emount : Preview.mount p
                   = Preview.mkPreview p SpineRenderer.initial (Some 0)).
  { unfold Preview.mount, Preview.render.
    now rewrite effectiveMode_initial, Hm. }
  split; [|split; [|split; [|split; [|split]]]].
  - intros ws now H.
    destruct (watchdog_cases true ws now)
      as [[_ E] | [[_ [_ E]] | [[_ [_ [_ E]]] | [_ [_ [_ E]]]]]];
      rewrite E in *; try discriminate. reflexivity.
  - intros Hp. subst r. rewrite Emount.
    destruct (skb_calls_no_fallback sb Hsb p SpineRenderer.initial n Hp t0 Ht)
      as (E1 & E2 & E3).
    cbv zeta in E1, E2, E3. now repeat split.
  - intros Hp. subst r. rewrite Emount. destruct n as [|n].
    + repeat split. intros H. inversion H.
    + rewrite (skb_calls_fallback sb Hsb p n t0 Hp Hm Ht). now repeat split.
  - intros P lf q es ws v Hv.
    assert (Hw : SpineRenderer.effectiveMode (Preview.props v) (Preview.state v)
                 = SpineRenderer.webgl).
    { revert Hv. subst v. apply run_canvas.
      intros ws'. unfold Preview.mount. apply render_canvas. }
    destruct (effectiveMode_webgl _ _ Hw) as [_ Hg].
    split; [exact Hg|].
    unfold SpineRenderer.handleWebglError. cbn [snd].
    destruct (SpineRenderer.enableAutoFallback (Preview.props v));
      [|reflexivity].
    cbn [andb] in Hg. now rewrite Hg.
  - intros q es. apply run_current_quiet.
  - intros [p' st' [ws|]] now; split; reflexivity.
Qed.

Lemma watchdog_rearms_witness :
  (0 < 100 /\
   SpineRenderer.renderMode (webgl_props_no_fallback "a.json" "a.atlas")
   = SpineRenderer.webgl /\
   SpineCanvasSkeletonBounds.invisible
     (SpineCanvasSkeletonBounds.getBounds point_bounds) = true) /\
  Preview.calls
    (snd (Preview.run SpineCanvasSkeletonBounds.loopFrame
            (Preview.mount (webgl_props_no_fallback "a.json" "a.atlas"))
            (Preview.sustained point_bounds 100 (8 * 3)))) = 3%nat.
Proof.
  split; [repeat split|].
  exact (proj1 (proj1 (proj2
    (watchdog_rearms 3 100 (webgl_props_no_fallback "a.json" "a.atlas")
       point_bounds eq_refl eq_refl eq_refl)) eq_refl)).
Defined.

(** C10, counterexample.  A pose that the [SkeletonBounds] revision
    finds invisible lasts for 24 frames 100 ms apart, three times the
    span after which the watchdog calls.  With the fallback switched off
    [onError] is called three times.  Under the props that the page
    gives (the fallback enabled) it is called once: the call switches,
    the canvas is unmounted and its loop ends, so that no second call
    ever reaches the test of [forcePlayer].  In the current revision a
    skeleton without any attachment over the same frames brings no call
    at all: its bounds are the default box, 200 wide and high. *)
Lemma watchdog_calls_once_under_fallback :
  let fs := Preview.sustained point_bounds 100 24 in
  Preview.calls
    (snd (Preview.run SpineCanvasSkeletonBounds.loopFrame
            (Preview.mount (webgl_props_no_fallback "a.json" "a.atlas")) fs))
  = 3%nat /\
  Preview.calls
    (snd (Preview.run SpineCanvasSkeletonBounds.loopFrame
            (Preview.mount (webgl_props "a.json" "a.atlas")) fs))
  = 1%nat /\
  SpineRenderer.switches
    (snd (Preview.run SpineCanvasSkeletonBounds.loopFrame
            (Preview.mount (webgl_props "a.json" "a.atlas")) fs))
  = 1%nat /\
  Preview.canvas
    (fst (Preview.run SpineCanvasSkeletonBounds.loopFrame
            (Preview.mount (webgl_props "a.json" "a.atlas")) fs))
  = None /\
  Preview.calls
    (snd (Preview.run SpineCanvas.loopFrame
            (Preview.mount (webgl_props "a.json" "a.atlas"))
            (Preview.sustained [] 100 24)))
  = 0%nat /\
  SpineCanvas.w (SpineCanvas.getBounds []) = of_Z 200 /\
  SpineCanvas.h (SpineCanvas.getBounds []) = of_Z 200.
Proof.
  cbv zeta. repeat (split; [vm_compute; reflexivity|]).
  vm_compute; reflexivity.
Qed.

(* ------------------------------------------------------------------ *)
(** ** Paths *)

Section Paths.
Import JSString SpineCanvasAssets SpineUtils.
Local Open Scope string_scope.

Lemma string_app_assoc (a b c : string) : (a ++ b) ++ c = a ++ b ++ c.
Proof. induction a as [|x a IH]; simpl; [reflexivity | now rewrite IH]. Qed.

Lemma string_app_nil_r (a : string) : a ++ "" = a.
Proof. induction a as [|x a IH]; simpl; [reflexivity | now rewrite IH]. Qed.

Lemma string_length_app (a b : string) :
  String.length (a ++ b) = (String.length a + String.length b)%nat.
Proof. induction a as [|x a IH]; simpl; [reflexivity | now rewrite IH]. Qed.

Lemma occurs_app (c : ascii) (a b : string) :
  occurs c (a ++ b) = occurs c a || occurs c b.
Proof.
  induction a as [|x a IH]; simpl; [reflexivity|].
  now rewrite IH, orb_assoc.
Qed.

Lemma lastIndexOf_lower (s : string) (c : ascii) : (-1 <= lastIndexOf s c)%Z.
Proof.
  induction s as [|a s IH]; simpl; [lia|].
  destruct (0 <=? lastIndexOf s c)%Z eqn:E; [apply Z.leb_le in E; lia|].
  destruct (Ascii.eqb a c); lia.
Qed.

(** Either the character does not occur and the index is -1, or the
    index is the length of what precedes the last occurrence. *)
Lemma lastIndexOf_cases (s : string) (c : ascii) :
  (lastIndexOf s c = (-1)%Z /\ occurs c s = false) \/
  (exists u v, s = u ++ String c v /\
               lastIndexOf s c = Z.of_nat (String.length u) /\
               occurs c v = false).
Proof.
  induction s as [|a s IH]; [now left|].
  cbn [lastIndexOf occurs].
  destruct IH as [[Hr Ho] | (u & v & Hs & Hr & Ho)].
  - rewrite Hr, Ho. cbn [Z.leb Z.compare]. rewrite orb_false_r.
    destruct (Ascii.eqb_spec a c) as [-> | Hac]; [right | now left].
    exists "", s. now repeat split.
  - right. rewrite Hr.
    destruct (Z.leb_spec 0 (Z.of_nat (String.length u))); [|lia].
    exists (String a u), v. subst s. repeat split; auto.
    cbn [String.length]. lia.
Qed.

Lemma lastIndexOf_app (u v : string) (c : ascii) :
  occurs c v = false ->
  lastIndexOf (u ++ String c v) c = Z.of_nat (String.length u).
Proof.
  intros Hv. induction u as [|a u IH].
  - cbn [append lastIndexOf String.length].
    destruct (lastIndexOf_cases v c) as [[Hr _] | (u' & v' & Hs & _ & _)].
    + rewrite Hr. cbn [Z.leb Z.compare]. now rewrite Ascii.eqb_refl.
    + subst v. rewrite occurs_app in Hv. cbn [occurs] in Hv.
      rewrite Ascii.eqb_refl, orb_true_r in Hv. discriminate.
  - cbn [append lastIndexOf String.length]. rewrite IH.
    destruct (Z.leb_spec 0 (Z.of_nat (String.length u))); lia.
Qed.

Lemma substring_prefix (u w : string) :
  substring 0 (String.length u) (u ++ w) = u.
Proof.
  induction u as [|a u IH]; simpl.
  - now destruct w.
  - now rewrite IH.
Qed.

Lemma substring_all (w : string) : substring 0 (String.length w) w = w.
Proof. induction w as [|a w IH]; simpl; [reflexivity | now rewrite IH]. Qed.

Lemma substring_suffix (u w : string) :
  substring (String.length u) (String.length w) (u ++ w) = w.
Proof.
  induction u as [|a u IH]; simpl; [apply substring_all | exact IH].
Qed.

Lemma split_at_last (u v : string) :
  occurs "/" v = false ->
  splitDirAndFile (u ++ String "/" v) = mkDirFile (u ++ "/") v.
Proof.
  intros Hv. unfold splitDirAndFile.
  rewrite (lastIndexOf_app u v "/" Hv).
  destruct (Z.eqb_spec (Z.of_nat (String.length u)) (-1)); [lia|].
  replace (Z.to_nat (Z.of_nat (String.length u) + 1))
    with (String.length (u ++ "/"))
    by (rewrite string_length_app; simpl; lia).
  unfold slice_from, slice. rewrite Nat.sub_0_r.
  replace (u ++ String "/" v) with ((u ++ "/") ++ v)
    by (rewrite string_app_assoc; reflexivity).
  rewrite substring_prefix.
  replace (String.length ((u ++ "/") ++ v) - String.length (u ++ "/"))%nat
    with (String.length v)
    by (rewrite (string_length_app (u ++ "/") v); lia).
  now rewrite substring_suffix.
Qed.

Lemma split_without_slash (f : string) :
  occurs "/" f = false -> splitDirAndFile f = mkDirFile "" f.
Proof.
  intros Hf. unfold splitDirAndFile.
  destruct (lastIndexOf_cases f "/") as [[Hr _] | (u & v & Hs & _ & _)].
  - now rewrite Hr.
  - subst f. rewrite occurs_app in Hf. cbn [occurs] in Hf.
    rewrite Ascii.eqb_refl, orb_true_r in Hf. discriminate.
Qed.

Lemma split_roundtrip (path : string) :
  dir (splitDirAndFile path) ++ file (splitDirAndFile path) = path.
Proof.
  destruct (lastIndexOf_cases path "/") as [[_ Ho] | (u & v & Hs & _ & Ho)].
  - now rewrite (split_without_slash path Ho).
  - subst path. rewrite (split_at_last u v Ho). cbn [dir file].
    apply string_app_assoc.
Qed.

End Paths.

(** X1.  [splitDirAndFile] cuts a path after its last slash: the two
    parts put together give the path back, the file part holds no slash,
    and the directory part is empty (exactly when the path holds no
    slash) or ends with a slash. *)
Theorem splitDirAndFile_parts (path : string) :
  let r := SpineCanvasAssets.splitDirAndFile path in
  (SpineCanvasAssets.dir r ++ SpineCanvasAssets.file r)%string = path /\
  JSString.occurs "/" (SpineCanvasAssets.file r) = false /\
  (if JSString.occurs "/" path
   then exists u, SpineCanvasAssets.dir r = (u ++ "/")%string
   else SpineCanvasAssets.dir r = EmptyString).
Proof.
  cbv zeta. split; [apply split_roundtrip|].
  destruct (lastIndexOf_cases path "/") as [[Hr Ho] | (u & v & Hs & Hr & Ho)].
  - rewrite (split_without_slash path Ho), Ho. now split.
  - subst path. rewrite (split_at_last u v Ho).
    cbn [SpineCanvasAssets.dir SpineCanvasAssets.file].
    split; [exact Ho|].
    rewrite occurs_app. cbn [JSString.occurs]. rewrite Ascii.eqb_refl.
    rewrite orb_true_r. now exists u.
Qed.

(** X2.  Splitting undoes joining: a directory, a slash and a file name
    without slash are split back into the directory with its slash and
    the file name, and a bare file name without slash gets the empty
    directory; so a path is split in one way only. *)
Theorem splitDirAndFile_join (d f : string) :
  JSString.occurs "/" f = false ->
  SpineCanvasAssets.splitDirAndFile (d ++ "/" ++ f)%string
  = SpineCanvasAssets.mkDirFile (d ++ "/")%string f /\
  SpineCanvasAssets.splitDirAndFile f
  = SpineCanvasAssets.mkDirFile EmptyString f /\
  (forall d' f', JSString.occurs "/" f' = false ->
                 (d' ++ "/" ++ f')%string = (d ++ "/" ++ f)%string ->
                 d' = d /\ f' = f).
Proof.
  intros Hf. split; [exact (split_at_last d f Hf)|].
  split; [exact (split_without_slash f Hf)|].
  intros d' f' Hf' E.
  assert (E' : SpineCanvasAssets.mkDirFile (d' ++ "/")%string f'
               = SpineCanvasAssets.mkDirFile (d ++ "/")%string f).
  { rewrite <- (split_at_last d' f' Hf'), <- (split_at_last d f Hf).
    now f_equal. }
  injection E' as Ed Ef. split; [|exact Ef].
  clear - Ed. revert d' Ed.
  induction d as [|c d IH]; intros [|c' d'] Ed; cbn [append] in Ed.
  - reflexivity.
  - injection Ed as _ Ed. now destruct d'.
  - injection Ed as _ Ed. now destruct d.
  - injection Ed as -> Ed. f_equal. now apply IH.
Qed.

Lemma splitDirAndFile_join_witness :
  JSString.occurs "/" "worMonster.json" = false /\
  SpineCanvasAssets.splitDirAndFile
    ("/assets/spine/monster" ++ "/" ++ "worMonster.json")%string
  = SpineCanvasAssets.mkDirFile "/assets/spine/monster/" "worMonster.json".
Proof.
  split; [reflexivity|].
  apply (splitDirAndFile_join "/assets/spine/monster" "worMonster.json").
  reflexivity.
Defined.

(** X3.  The names handed to the asset manager: the prefix followed by
    the atlas name spells the atlas path; when the skeleton lies in the
    directory of the atlas, the prefix followed by the skeleton name
    spells the skeleton path, and otherwise the skeleton name is the
    whole skeleton path. *)
Theorem assetNames_spell (skeletonPath atlasPath : string) :
  let n := SpineCanvasAssets.assetNames skeletonPath atlasPath in
  (SpineCanvasAssets.pathPrefix n ++ SpineCanvasAssets.atlasName n)%string
  = atlasPath /\
  (if String.eqb
        (SpineCanvasAssets.dir (SpineCanvasAssets.splitDirAndFile skeletonPath))
        (SpineCanvasAssets.dir (SpineCanvasAssets.splitDirAndFile atlasPath))
   then (SpineCanvasAssets.pathPrefix n ++ SpineCanvasAssets.skeletonName n)%string
        = skeletonPath
   else SpineCanvasAssets.skeletonName n = skeletonPath).
Proof.
  unfold SpineCanvasAssets.assetNames.
  cbn [SpineCanvasAssets.pathPrefix SpineCanvasAssets.skeletonName
       SpineCanvasAssets.atlasName].
  split; [apply (split_roundtrip atlasPath)|].
  destruct (String.eqb_spec
              (SpineCanvasAssets.dir
                 (SpineCanvasAssets.splitDirAndFile skeletonPath))
              (SpineCanvasAssets.dir
                 (SpineCanvasAssets.splitDirAndFile atlasPath)))
    as [E | E]; [|reflexivity].
  rewrite <- E. apply (split_roundtrip skeletonPath).
Qed.

(** X4.  For a skeleton [d/n] and an atlas [d/m] of one directory [d]
    of the catalogue ([n] and [m] without slash), the asset manager gets
    the prefix [/assets/spine/d/] and the two bare file names, whatever
    the binary and PMA flags. *)
Theorem assetNames_same_directory (d n m : string) (binary pma : bool) :
  JSString.occurs "/" n = false ->
  JSString.occurs "/" m = false ->
  SpineCanvasAssets.assetNames
    (SpineUtils.getSkeletonPath (d ++ "/" ++ n)%string binary)
    (SpineUtils.getAtlasPath (d ++ "/" ++ m)%string pma)
  = SpineCanvasAssets.mkAssetNames
      ("/assets/spine/" ++ d ++ "/")%string
      (n ++ (if binary then ".skel" else ".json"))%string
      (m ++ (if pma then "-pma" else "") ++ ".atlas")%string.
Proof.
  intros Hn Hm.
  assert (Hs : SpineUtils.getSkeletonPath (d ++ "/" ++ n)%string binary
               = (("/assets/spine/" ++ d) ++ "/"
                    ++ (n ++ (if binary then ".skel" else ".json")))%string).
  { unfold SpineUtils.getSkeletonPath, SpineUtils.getAssetPath.
    now rewrite !string_app_assoc. }
  assert (Ha : SpineUtils.getAtlasPath (d ++ "/" ++ m)%string pma
               = (("/assets/spine/" ++ d) ++ "/"
                    ++ (m ++ (if pma then "-pma" else "") ++ ".atlas"))%string).
  { unfold SpineUtils.getAtlasPath, SpineUtils.getAssetPath.
    now rewrite !string_app_assoc. }
  assert (Hn' : JSString.occurs "/"
                  (n ++ (if binary then ".skel" else ".json"))%string = false)
    by (rewrite occurs_app, Hn; now destruct binary).
  assert (Hm' : JSString.occurs "/"
                  (m ++ (if pma then "-pma" else "") ++ ".atlas")%string
                = false)
    by (rewrite !occurs_app, Hm; now destruct pma).
  unfold SpineCanvasAssets.assetNames. rewrite Hs, Ha.
  rewrite (split_at_last _ _ Hn'), (split_at_last _ _ Hm').
  cbn [SpineCanvasAssets.dir SpineCanvasAssets.file].
  rewrite String.eqb_refl. now rewrite !string_app_assoc.
Qed.

Lemma assetNames_same_directory_witness :
  (JSString.occurs "/" "worMonster" = false /\
   JSString.occurs "/" "monsterAll" = false) /\
  SpineCanvasAssets.assetNames
    (SpineUtils.getSkeletonPath "monster/worMonster" false)
    (SpineUtils.getAtlasPath "monster/monsterAll" false)
  = SpineCanvasAssets.mkAssetNames
      "/assets/spine/monster/" "worMonster.json" "monsterAll.atlas".
Proof.
  split; [split; reflexivity|].
  apply (assetNames_same_directory "monster" "worMonster" "monsterAll"
           false false eq_refl eq_refl).
Defined.

(* ------------------------------------------------------------------ *)
(** ** Default animation and skin *)

Section Defaults.
Import JSString SpineUtils.

Lemma includes_In (l : list string) (s : string) :
  includes l s = true <-> In s l.
Proof.
  unfold includes. rewrite existsb_exists. split.
  - intros (x & Hx & E). apply String.eqb_eq in E. now subst.
  - intros H. exists s. split; [exact H | apply String.eqb_refl].
Qed.

Lemma truthy_Some (p : string) :
  p <> EmptyString -> truthy (Some p) = true.
Proof.
  intros H. unfold truthy. apply negb_true_iff. now apply String.eqb_neq.
Qed.

End Defaults.

(** X5.  [getDefaultAnimation] returns the empty string for an empty
    list and otherwise a member of the list: the preferred animation
    when it is a non-empty name of the list; failing that, ["idle"] when
    the list has it. *)
Theorem getDefaultAnimation_choice
  (animations : list string) (preferred : option string) :
  let r := SpineUtils.getDefaultAnimation animations preferred in
  (animations = [] -> r = EmptyString) /\
  (animations <> [] -> In r animations) /\
  (forall p, preferred = Some p -> p <> EmptyString -> In p animations ->
             r = p) /\
  ((forall p, preferred = Some p -> ~ In p animations) ->
   In "idle"%string animations -> r = "idle"%string).
Proof.
  unfold SpineUtils.getDefaultAnimation.
  destruct animations as [|first rest]; cbv zeta.
  - repeat split; try congruence; intros; contradiction.
  - split; [discriminate|]. split; [|split].
    + intros _.
      destruct (JSString.truthy preferred
                && JSString.includes (first :: rest)
                     match preferred with Some p => p | None => EmptyString end)
        eqn:E.
      * apply andb_true_iff in E. destruct E as [_ E].
        now apply includes_In in E.
      * destruct (find (JSString.includes (first :: rest))
                    SpineUtils.commonDefaultAnimations) eqn:F.
        -- apply find_some in F. now apply includes_In, F.
        -- now left.
    + intros p -> Hp Hin.
      rewrite (truthy_Some p Hp).
      apply includes_In in Hin. now rewrite Hin.
    + intros Hnot Hidle.
      assert (E : JSString.truthy preferred
                  && JSString.includes (first :: rest)
                       match preferred with Some p => p | None => EmptyString end
                  = false).
      { destruct preferred as [p|]; [|reflexivity].
        apply andb_false_iff. right.
        destruct (JSString.includes (first :: rest) p) eqn:I; [|reflexivity].
        apply includes_In in I. exfalso. exact (Hnot p eq_refl I). }
      rewrite E.
      apply includes_In in Hidle.
      unfold SpineUtils.commonDefaultAnimations. cbn [find].
      now rewrite Hidle.
Qed.

Lemma getDefaultAnimation_choice_witness :
  (["walk"; "idle"; "run"]%string <> [] /\
   In (SpineUtils.getDefaultAnimation ["walk"; "idle"; "run"]%string
         (Some "jump"%string))
      ["walk"; "idle"; "run"]%string) /\
  (Some "run"%string = Some "run"%string /\ "run"%string <> EmptyString /\
   In "run"%string ["walk"; "idle"; "run"]%string /\
   SpineUtils.getDefaultAnimation ["walk"; "idle"; "run"]%string
     (Some "run"%string) = "run"%string).
Proof.
  split.
  - split; [discriminate|].
    apply (proj1 (proj2 (getDefaultAnimation_choice
                           ["walk"; "idle"; "run"]%string
                           (Some "jump"%string)))).
    discriminate.
  - assert (H1 : "run"%string <> EmptyString) by discriminate.
    assert (H2 : In "run"%string ["walk"; "idle"; "run"]%string)
      by (simpl; auto).
    split; [reflexivity|]. split; [exact H1|]. split; [exact H2|].
    exact (proj1 (proj2 (proj2 (getDefaultAnimation_choice
                                  ["walk"; "idle"; "run"]%string
                                  (Some "run"%string))))
             "run"%string eq_refl H1 H2).
Defined.

(** X6.  [getDefaultSkin] returns ["default"] for an empty list and
    otherwise a member of the list: the preferred skin when it is a
    non-empty name of the list; failing that, ["default"] when the list
    has it, and else the first skin. *)
Theorem getDefaultSkin_choice
  (skins : list string) (preferred : option string) :
  let r := SpineUtils.getDefaultSkin skins preferred in
  (skins = [] -> r = "default"%string) /\
  (skins <> [] -> In r skins) /\
  (forall p, preferred = Some p -> p <> EmptyString -> In p skins -> r = p) /\
  ((forall p, preferred = Some p -> ~ In p skins) ->
   r = if JSString.includes skins "default"
       then "default"%string else hd "default"%string skins).
Proof.
  unfold SpineUtils.getDefaultSkin.
  destruct skins as [|first rest]; cbv zeta.
  - repeat split; try congruence; intros; contradiction.
  - split; [discriminate|]. split; [|split].
    + intros _.
      destruct (JSString.truthy preferred
                && JSString.includes (first :: rest)
                     match preferred with Some p => p | None => EmptyString end)
        eqn:E.
      * apply andb_true_iff in E. destruct E as [_ E].
        now apply includes_In in E.
      * destruct (JSString.includes (first :: rest) "default") eqn:F.
        -- now apply includes_In.
        -- now left.
    + intros p -> Hp Hin.
      rewrite (truthy_Some p Hp).
      apply includes_In in Hin. now rewrite Hin.
    + intros Hnot.
      assert (E : JSString.truthy preferred
                  && JSString.includes (first :: rest)
                       match preferred with Some p => p | None => EmptyString end
                  = false).
      { destruct preferred as [p|]; [|reflexivity].
        apply andb_false_iff. right.
        destruct (JSString.includes (first :: rest) p) eqn:I; [|reflexivity].
        apply includes_In in I. exfalso. exact (Hnot p eq_refl I). }
      rewrite E. reflexivity.
Qed.

Lemma getDefaultSkin_choice_witness :
  ["red"; "blue"]%string <> [] /\
  In (SpineUtils.getDefaultSkin ["red"; "blue"]%string (Some "green"%string))
     ["red"; "blue"]%string.
Proof.
  split; [discriminate|].
  apply (proj1 (proj2 (getDefaultSkin_choice ["red"; "blue"]%string
                         (Some "green"%string)))).
  discriminate.
Defined.
(* ------------------------------------------------------------------ *)
(** ** The progress bar, the canvas size, the render loop *)

Lemma clampedProgress_bounds (progress : num) :
  (progress = NaN -> LoadingIndicator.clampedProgress progress = NaN) /\
  (progress <> NaN ->
   exists z, LoadingIndicator.clampedProgress progress = Fin z /\
             0 <= z /\ z <= 100).
Proof.
  unfold LoadingIndicator.clampedProgress, of_Z.
  split; [intros ->; reflexivity|].
  intros Hp. destruct progress as [| | |q]; [congruence| | |].
  - exists 0. cbn. repeat split; lra.
  - exists 100. cbn. repeat split; lra.
  - rewrite Math_min_Fin, Math_max_Fin. eexists; split; [reflexivity|].
    change (inject_Z 0) with 0. change (inject_Z 100) with 100.
    destruct (Qltb_spec q 100);
      [destruct (Qltb_spec 0 q) | destruct (Qltb_spec 0 100)]; lra.
Qed.

(** X7.  The progress shown by the loading indicator: [NaN] stays
    [NaN]; every other input, the infinities included, is brought into
    [[0, 100]], a finite value of that range keeping its value. *)
Theorem clampedProgress_range (progress : num) :
  (progress = NaN -> LoadingIndicator.clampedProgress progress = NaN) /\
  (progress <> NaN ->
   exists z, LoadingIndicator.clampedProgress progress = Fin z /\
             0 <= z /\ z <= 100) /\
  (forall q, progress = Fin q -> 0 <= q -> q <= 100 ->
   exists z, LoadingIndicator.clampedProgress progress = Fin z /\ z == q).
Proof.
  split; [apply clampedProgress_bounds|].
  split; [apply clampedProgress_bounds|].
  intros q -> H0 H100. unfold LoadingIndicator.clampedProgress, of_Z.
  rewrite Math_min_Fin, Math_max_Fin. eexists; split; [reflexivity|].
  change (inject_Z 0) with 0. change (inject_Z 100) with 100.
  destruct (Qltb_spec q 100);
    [destruct (Qltb_spec 0 q) | destruct (Qltb_spec 0 100)]; lra.
Qed.

Lemma clampedProgress_range_witness :
  (PosInf <> NaN /\
   exists z, LoadingIndicator.clampedProgress PosInf = Fin z /\
             0 <= z /\ z <= 100) /\
  (Fin 250 <> NaN /\
   exists z, LoadingIndicator.clampedProgress (Fin 250) = Fin z /\
             0 <= z /\ z <= 100).
Proof.
  split; (split; [discriminate|]).
  - apply (proj1 (proj2 (clampedProgress_range PosInf))). discriminate.
  - apply (proj1 (proj2 (clampedProgress_range (Fin 250)))). discriminate.
Defined.

Section CanvasSize.
Import JSMath SpineCanvasLoop.

Lemma dpr_truthy (ratio : option num) : truthy (dpr ratio) = true.
Proof.
  destruct ratio as [r|]; [|reflexivity].
  unfold dpr, or_else. destruct (truthy r) eqn:E; [exact E | reflexivity].
Qed.

Lemma dpr_finite (ratio : option num) :
  ratio <> Some PosInf -> ratio <> Some NegInf ->
  exists d, dpr ratio = Fin d /\ ~ d == 0.
Proof.
  intros Hp Hn. destruct ratio as [[ | | |q]|]; try congruence.
  - exists 1. split; [reflexivity | lra].
  - unfold dpr, or_else. cbn [truthy].
    destruct (Qeq_bool q 0) eqn:E; cbn [negb].
    + exists 1. split; [reflexivity | lra].
    + exists q. split; [reflexivity | now apply Qeq_bool_neq].
  - exists 1. split; [reflexivity | lra].
Qed.

Lemma max_1_Z (n : Z) : Math_max (of_Z 1) (of_Z n) = of_Z (Z.max 1 n).
Proof.
  unfold of_Z. rewrite Math_max_Fin. f_equal.
  destruct (Qltb_spec (inject_Z 1) (inject_Z n)) as [H | H].
  - rewrite <- Zlt_Qlt in H. f_equal. lia.
  - rewrite <- Zle_Qle in H. f_equal. lia.
Qed.

(** The size is an integer from 1 on, or [Infinity] when the product
    is. *)
Lemma canvasSize_shape (x : num) :
  x <> NaN ->
  Math_max (of_Z 1) (Math_floor x) = PosInf \/
  exists n, Math_max (of_Z 1) (Math_floor x) = of_Z n /\ (1 <= n)%Z.
Proof.
  intros Hx. destruct x as [ | | |q]; [congruence | right | now left | right].
  - exists 1%Z. split; [reflexivity | lia].
  - exists (Z.max 1 (Qfloor q)). cbn [Math_floor]. rewrite max_1_Z.
    split; [reflexivity | lia].
Qed.

Lemma round_not_NaN (q : Q) : Binary64.round q <> NaN.
Proof.
  unfold Binary64.round.
  destruct (Qeq_bool q 0); [discriminate|].
  destruct (Qltb 0 q).
  - destruct (Qle_bool (Binary64.pow2 1024) (Binary64.round_pos q));
      discriminate.
  - destruct (Qle_bool (Binary64.pow2 1024) (Binary64.round_pos (- q)));
      discriminate.
Qed.

Lemma Qred_inject_Z (z : Z) : Qred (inject_Z z) = inject_Z z.
Proof.
  unfold inject_Z, Qred.
  pose proof (Z.ggcd_gcd z 1) as Hg.
  pose proof (Z.ggcd_correct_divisors z 1) as Hd.
  destruct (Z.ggcd z 1) as [g [a b]]. cbn [fst snd] in *.
  rewrite Z.gcd_1_r in Hg. subst g. destruct Hd as [Ha Hb].
  rewrite Z.mul_1_l in Ha, Hb. subst a b. reflexivity.
Qed.

Lemma pow2_nonpos (s : Z) :
  (s <= 0)%Z ->
  Binary64.pow2 s == / inject_Z (2 ^ (- s)) /\ (0 < 2 ^ (- s))%Z.
Proof.
  intros Hs. split; [|apply Z.pow_pos_nonneg; lia].
  unfold Binary64.pow2. destruct (Z.leb_spec 0 s); [|reflexivity].
  replace s with 0%Z by lia. reflexivity.
Qed.

Lemma nearest_even_Z (k : Z) : Binary64.nearest_even (inject_Z k) = k.
Proof.
  unfold Binary64.nearest_even. rewrite Qfloor_Z.
  destruct (Qltb_spec (inject_Z k - inject_Z k) (1 # 2)) as [_ | H];
    [reflexivity | lra].
Qed.

Lemma nearest_even_comp (a b : Q) :
  a == b -> Binary64.nearest_even a = Binary64.nearest_even b.
Proof.
  intros E. unfold Binary64.nearest_even. rewrite (Qfloor_comp _ _ E).
  set (k := Qfloor b).
  destruct (Qltb_spec (a - inject_Z k) (1 # 2)),
           (Qltb_spec (b - inject_Z k) (1 # 2)); try lra; try reflexivity.
  destruct (Qltb_spec (1 # 2) (a - inject_Z k)),
           (Qltb_spec (1 # 2) (b - inject_Z k)); try lra; reflexivity.
Qed.

Lemma ilog2_Z (z : Z) :
  (0 < z < 2 ^ 53)%Z -> (Binary64.ilog2 (inject_Z z) <= 52)%Z.
Proof.
  intros Hz. unfold Binary64.ilog2. cbn [inject_Z Qnum Qden].
  change (Z.log2 1) with 0%Z. rewrite Z.sub_0_r.
  assert (Z.log2 z < 53)%Z by (apply Z.log2_lt_pow2; lia).
  destruct (Qle_bool _ _); lia.
Qed.

(** An integer below [2^53] is a binary64 number. *)
Lemma round_pos_Z (z : Z) :
  (0 < z < 2 ^ 53)%Z -> Binary64.round_pos (inject_Z z) == inject_Z z.
Proof.
  intros Hz. unfold Binary64.round_pos.
  pose proof (ilog2_Z z Hz) as Hl.
  set (s := Z.max (Binary64.ilog2 (inject_Z z) - 52) (-1074)).
  assert (Hs : (s <= 0)%Z) by (subst s; lia).
  destruct (pow2_nonpos s Hs) as [Ep Hp]. generalize dependent (2 ^ (- s))%Z.
  intros P Ep HP.
  assert (HP' : ~ inject_Z P == 0)
    by (intros E; unfold Qeq in E; cbn [inject_Z Qnum Qden] in E; lia).
  assert (E : inject_Z z / Binary64.pow2 s == inject_Z (z * P)).
  { rewrite Ep, inject_Z_mult. now field. }
  assert (En : Binary64.nearest_even (inject_Z z / Binary64.pow2 s) = (z * P)%Z).
  { rewrite (nearest_even_comp _ _ E). apply nearest_even_Z. }
  rewrite En, Ep, inject_Z_mult. now field.
Qed.

Lemma round_Z (z : Z) :
  (Z.abs z < 2 ^ 53)%Z -> Binary64.round (inject_Z z) = of_Z z.
Proof.
  intros Hz. unfold Binary64.round.
  assert (Hbig : forall r, r == inject_Z (Z.abs z) ->
                           Qle_bool (Binary64.pow2 1024) r = false).
  { intros r Er. destruct (Qle_bool (Binary64.pow2 1024) r) eqn:E;
      [|reflexivity].
    apply Qle_bool_iff in E. rewrite Er in E.
    change (Binary64.pow2 1024) with (inject_Z (2 ^ 1024)) in E.
    rewrite <- Zle_Qle in E.
    assert (2 ^ 53 < 2 ^ 1024)%Z by (apply Z.pow_lt_mono_r; lia). lia. }
  destruct (Qeq_bool (inject_Z z) 0) eqn:E0.
  - apply Qeq_bool_iff in E0. unfold Qeq in E0.
    cbn [inject_Z Qnum Qden] in E0.
    assert (z = 0)%Z by lia. now subst z.
  - apply Qeq_bool_neq in E0.
    destruct (Qltb_spec 0 (inject_Z z)) as [Hpos | Hneg].
    + change 0 with (inject_Z 0) in Hpos. rewrite <- Zlt_Qlt in Hpos.
      assert (Hr : Binary64.round_pos (inject_Z z) == inject_Z z)
        by (apply round_pos_Z; lia).
      assert (Hb : Qle_bool (Binary64.pow2 1024)
                     (Binary64.round_pos (inject_Z z)) = false)
        by (apply Hbig; rewrite Hr; now rewrite Z.abs_eq by lia).
      rewrite Hb.
      unfold of_Z. f_equal.
      rewrite (Qred_complete _ _ Hr). apply Qred_inject_Z.
    + assert (Hz0 : (z < 0)%Z).
      { change 0 with (inject_Z 0) in Hneg, E0. rewrite <- Zle_Qle in Hneg.
        assert (z <> 0)%Z by (intros ->; now apply E0). lia. }
      assert (Eo : - inject_Z z = inject_Z (- z)) by reflexivity.
      rewrite Eo.
      assert (Hr : Binary64.round_pos (inject_Z (- z)) == inject_Z (- z))
        by (apply round_pos_Z; lia).
      assert (Hb : Qle_bool (Binary64.pow2 1024)
                     (Binary64.round_pos (inject_Z (- z))) = false)
        by (apply Hbig; rewrite Hr; now rewrite Z.abs_neq by lia).
      rewrite Hb.
      unfold of_Z. f_equal.
      assert (E : - Binary64.round_pos (inject_Z (- z)) == inject_Z z)
        by (rewrite Hr, inject_Z_opp; ring).
      rewrite (Qred_complete _ _ E). apply Qred_inject_Z.
Qed.

End CanvasSize.

(** X8.  The size given to the canvas, the product being rounded to
    binary64: for a finite CSS size and a device pixel ratio that is not
    infinite (finite, absent, zero or [NaN]) the ratio used is finite
    and never zero, and the size is an integer from 1 on, or [Infinity]
    when the product overflows; for an integral CSS size [w] and an
    integral ratio [k] with [|w * k| < 2^53] it is [max(1, w * k)].  The
    rounding counts: for the CSS size 400 and the ratio 1.2 the size is
    480, where the exact product of the two binary64 numbers has the
    floor 479. *)
Theorem canvasSize_positive_integer (cssSize : Q) (ratio : option num) :
  ratio <> Some PosInf -> ratio <> Some NegInf ->
  (exists d,
     SpineCanvasLoop.dpr ratio = Fin d /\ ~ d == 0 /\
     (SpineCanvasLoop.canvasSize (Fin cssSize) (SpineCanvasLoop.dpr ratio)
      = PosInf \/
      exists n,
        SpineCanvasLoop.canvasSize (Fin cssSize) (SpineCanvasLoop.dpr ratio)
        = of_Z n /\ (1 <= n)%Z) /\
     (forall w k : Z,
        cssSize = inject_Z w -> d = inject_Z k ->
        (Z.abs (w * k) < 2 ^ 53)%Z ->
        SpineCanvasLoop.canvasSize (Fin cssSize) (SpineCanvasLoop.dpr ratio)
        = of_Z (Z.max 1 (w * k)))) /\
  (exists r,
     Binary64.round (6 # 5) = Fin r /\
     SpineCanvasLoop.canvasSize (of_Z 400) (Fin r) = of_Z 480 /\
     Qfloor (400 * r) = 479%Z).
Proof.
  intros Hp Hn. split.
  - destruct (dpr_finite ratio Hp Hn) as (d & Hd & Hd0).
    exists d. split; [exact Hd|]. split; [exact Hd0|].
    rewrite Hd. unfold SpineCanvasLoop.canvasSize, Binary64.mul. cbn [mul].
    split.
    + apply canvasSize_shape, round_not_NaN.
    + intros w k -> -> Hwk.
      assert (E : inject_Z w * inject_Z k == inject_Z (w * k))
        by (now rewrite inject_Z_mult).
      rewrite (Qred_complete _ _ E), Qred_inject_Z, (round_Z _ Hwk).
      cbn [JSMath.Math_floor of_Z]. rewrite Qfloor_Z. apply max_1_Z.
  - eexists. split; [vm_compute; reflexivity|].
    split; vm_compute; reflexivity.
Qed.

Lemma canvasSize_positive_integer_witness :
  (Some (Fin 2) <> Some PosInf /\ Some (Fin 2) <> Some NegInf) /\
  SpineCanvasLoop.canvasSize (Fin (inject_Z 401))
    (SpineCanvasLoop.dpr (Some (Fin 2))) = of_Z 802.
Proof.
  assert (H1 : Some (Fin 2) <> Some PosInf) by discriminate.
  assert (H2 : Some (Fin 2) <> Some NegInf) by discriminate.
  split; [split; assumption|].
  destruct (proj1 (canvasSize_positive_integer (inject_Z 401)
                     (Some (Fin 2)) H1 H2))
    as (d & Hd & _ & _ & Hc).
  change (SpineCanvasLoop.dpr (Some (Fin 2))) with (Fin (inject_Z 2)) in Hd.
  injection Hd as <-.
  exact (Hc 401%Z 2%Z eq_refl eq_refl ltac:(vm_compute; reflexivity)).
Defined.

Section RenderLoop.
Import SpineCanvasLoop.

Lemma loopFrame_report (width height : num) (st : loop_state) (now : Q)
  (slots : list slot) :
  loopFrame width height st now (Some slots)
  = (mkLoop now 0
       (if (0 <? relayoutFrames st)%Z
        then (relayoutFrames st - 1)%Z else relayoutFrames st)
       (if (0 <? relayoutFrames st)%Z
        then SpineCanvas.fitCamera slots width height
               SpineCanvas.default_padding
        else cam st),
     Some (mkReport ((now - last st) / 1000)
             (0 <? relayoutFrames st)%Z false)).
Proof.
  unfold loopFrame. now rewrite getBounds_never_invisible.
Qed.

Lemma ran_cons_some (r : frame_report) (l : list (option frame_report)) :
  ran (Some r :: l) = r :: ran l.
Proof. reflexivity. Qed.

Lemma ran_cons_none (l : list (option frame_report)) :
  ran (None :: l) = ran l.
Proof. reflexivity. Qed.

Lemma loop_budget (width height : num) (fs : list (Q * option (list slot))) :
  forall st,
    (0 <= relayoutFrames st)%Z ->
    let r := loop width height st fs in
    reports_sent (snd r) = 0%nat /\
    refits (snd r)
    = Z.min (relayoutFrames st) (Z.of_nat (List.length (ran (snd r)))) /\
    relayoutFrames (fst r) = (relayoutFrames st - refits (snd r))%Z.
Proof.
  induction fs as [|[now [slots|]] fs IH]; intros st Hst.
  - cbn. repeat split; lia.
  - cbn [loop]. rewrite loopFrame_report. cbn [fst snd].
    unfold reports_sent, refits in *. rewrite ran_cons_some.
    destruct (Z.ltb_spec 0 (relayoutFrames st)) as [Hpos | Hzero];
      cbn [filter refitted reported List.length];
      match goal with
      | |- context [loop width height ?s fs] =>
          destruct (IH s) as (H1 & H2 & H3); [cbn [relayoutFrames]; lia|];
          cbv zeta in H1, H2, H3; cbn [relayoutFrames] in H2, H3
      end;
      rewrite ?Nat2Z.inj_succ; repeat split; try exact H1; lia.
  - cbn [loop loopFrame fst snd].
    unfold reports_sent, refits in *. rewrite ran_cons_none.
    exact (IH st Hst).
Qed.

End RenderLoop.

(** X9.  The render loop of the current revision never calls [onError]
    for invisibility: [getBounds] returns a width and a height of at
    least 50, so the flag that feeds the watchdog is false for every
    pose, over any run of frames. *)
Theorem loop_never_reports (width height : num)
  (st : SpineCanvasLoop.loop_state)
  (fs : list (Q * option (list slot))) :
  (forall slots,
     exists wq hq,
       SpineCanvas.w (SpineCanvas.getBounds slots) = Fin wq /\ 50 <= wq /\
       SpineCanvas.h (SpineCanvas.getBounds slots) = Fin hq /\ 50 <= hq) /\
  (forall slots,
     SpineCanvas.invisible (SpineCanvas.getBounds slots) = false) /\
  SpineCanvasLoop.reports_sent
    (snd (SpineCanvasLoop.loop width height st fs)) = 0%nat.
Proof.
  split; [|split; [exact getBounds_never_invisible|]].
  - intros slots. rewrite getBounds_w, getBounds_h.
    destruct (getBounds_box_finite slots) as (x0 & y0 & x1 & y1 & -> & _ & _).
    cbn [minX minY maxX maxY sub]. unfold of_Z. rewrite !Math_max_Fin.
    do 2 eexists. split; [reflexivity|]. split; [|split; [reflexivity|]].
    + destruct (Qltb_spec (inject_Z 50) (Qred (x1 - x0))) as [H | H];
        change (inject_Z 50) with 50 in *; lra.
    + destruct (Qltb_spec (inject_Z 50) (Qred (y1 - y0))) as [H | H];
        change (inject_Z 50) with 50 in *; lra.
  - revert st. induction fs as [|[now [slots|]] fs IH]; intros st.
    + reflexivity.
    + cbn [SpineCanvasLoop.loop]. rewrite loopFrame_report. cbn [fst snd].
      unfold SpineCanvasLoop.reports_sent in *. rewrite ran_cons_some.
      cbn [filter SpineCanvasLoop.reported]. apply IH.
    + cbn [SpineCanvasLoop.loop SpineCanvasLoop.loopFrame fst snd].
      unfold SpineCanvasLoop.reports_sent in *. rewrite ran_cons_none.
      apply IH.
Qed.

(** X10.  A budget of [k >= 0] relayout frames makes exactly the next
    [k] frames that run fit the camera again (all of them when fewer
    run); the counter goes down by one per refit and never below
    zero. *)
Theorem loop_refit_budget (width height : num)
  (st : SpineCanvasLoop.loop_state)
  (fs : list (Q * option (list slot))) :
  (0 <= SpineCanvasLoop.relayoutFrames st)%Z ->
  let r := SpineCanvasLoop.loop width height st fs in
  SpineCanvasLoop.refits (snd r)
  = Z.min (SpineCanvasLoop.relayoutFrames st)
          (Z.of_nat (List.length (SpineCanvasLoop.ran (snd r)))) /\
  SpineCanvasLoop.relayoutFrames (fst r)
  = (SpineCanvasLoop.relayoutFrames st - SpineCanvasLoop.refits (snd r))%Z /\
  (0 <= SpineCanvasLoop.relayoutFrames (fst r))%Z.
Proof.
  intros Hst r.
  destruct (loop_budget width height fs st Hst) as (_ & H2 & H3).
  fold r in H2, H3. split; [exact H2|]. split; [exact H3|].
  rewrite H3, H2. lia.
Qed.

Lemma loop_refit_budget_witness :
  (0 <= 3)%Z /\
  SpineCanvasLoop.refits
    (snd (SpineCanvasLoop.loop (of_Z 400) (of_Z 400)
            (SpineCanvasLoop.mkLoop 0 0 3
               (SpineCanvas.mkCamera (of_Z 1) (of_Z 0) (of_Z 0)
                  (of_Z 400) (of_Z 400)))
            [(16, None); (33, Some small_mesh); (50, Some small_mesh);
             (66, Some large_mesh); (83, Some large_mesh);
             (100, Some small_mesh)])) = 3%Z.
Proof.
  split; [lia|].
  refine (eq_trans
            (proj1 (loop_refit_budget (of_Z 400) (of_Z 400)
                      (SpineCanvasLoop.mkLoop 0 0 3
                         (SpineCanvas.mkCamera (of_Z 1) (of_Z 0) (of_Z 0)
                            (of_Z 400) (of_Z 400)))
                      [(16, None); (33, Some small_mesh);
                       (50, Some small_mesh); (66, Some large_mesh);
                       (83, Some large_mesh); (100, Some small_mesh)] _)) _).
  - cbn. lia.
  - reflexivity.
Defined.
(* ------------------------------------------------------------------ *)
(** ** More on the bounds *)

Lemma getBounds_union_witness :
  (forallb finite_point (flat_map region_corners mesh_with_bad_vertices)
   = true /\
   finite_points mesh_with_bad_vertices <> []) /\
  SpineCanvas.box (SpineCanvas.getBounds mesh_with_bad_vertices)
  = mkExtrema (of_Z (-2)) (of_Z 0) (of_Z 5) (of_Z 9).
Proof.
  assert (H1 : forallb finite_point
                 (flat_map region_corners mesh_with_bad_vertices) = true)
    by reflexivity.
  assert (H2 : finite_points mesh_with_bad_vertices <> []) by discriminate.
  split; [split; assumption|].
  destruct (getBounds_union mesh_with_bad_vertices H1 H2)
    as (x0 & y0 & x1 & y1 & E & _).
  reflexivity.
Defined.

Section GridBounds.
Import SpineCanvasGrid.

Lemma lt_not_nan (x y : num) : lt x y = true -> x <> NaN.
Proof. destruct x; simpl; congruence. Qed.

Lemma lt_not_nan_r (x y : num) : lt x y = true -> y <> NaN.
Proof. destruct x, y; simpl; congruence. Qed.

Lemma has_nan_false (e : extrema) :
  has_nan e = false <->
  minX e <> NaN /\ minY e <> NaN /\ maxX e <> NaN /\ maxY e <> NaN.
Proof.
  unfold has_nan.
  destruct (minX e), (minY e), (maxX e), (maxY e); simpl;
    split; try discriminate; try (intros (? & ? & ? & ?); congruence);
    intros _; repeat split; discriminate.
Qed.

Lemma grid_extend_no_nan (e : extrema) (p : num * num) :
  has_nan e = false -> has_nan (extend e p) = false.
Proof.
  rewrite !has_nan_false. intros (H1 & H2 & H3 & H4).
  unfold extend, gt. cbn [minX minY maxX maxY].
  repeat split;
    match goal with
    | |- (if ?c then _ else _) <> NaN =>
        destruct c eqn:E;
          [first [exact (lt_not_nan _ _ E) | exact (lt_not_nan_r _ _ E)]
          | assumption]
    end.
Qed.

Lemma grid_fold_no_nan (pts : list (num * num)) (e : extrema) :
  has_nan e = false -> has_nan (fold_left extend pts e) = false.
Proof.
  revert e. induction pts as [|p pts IH]; simpl; intros e H; auto.
  apply IH. now apply grid_extend_no_nan.
Qed.

Lemma grid_scan_slot_points (s : slot) (e : extrema) :
  scan_slot e s = fold_left extend (slot_points s) e.
Proof. destruct s as [[p0 p1 p2 p3 | v | ] | ]; reflexivity. Qed.

Lemma grid_scan_points (sl : list slot) (e : extrema) :
  fold_left scan_slot sl e = fold_left extend (all_points sl) e.
Proof.
  unfold all_points. revert e.
  induction sl as [|s sl IH]; simpl; intros e; [reflexivity|].
  now rewrite fold_left_app, <- grid_scan_slot_points, IH.
Qed.

(** On a finite vertex and extrema free of [NaN], the comparisons of
    this revision and the [Math.min] / [Math.max] of the current one
    agree. *)
Lemma grid_extend_finite (e : extrema) (p : num * num) :
  has_nan e = false -> finite_point p = true ->
  extend e p = SpineCanvas.extend e p.
Proof.
  rewrite has_nan_false. intros (H1 & H2 & H3 & H4) Hp.
  unfold finite_point in Hp. apply andb_true_iff in Hp.
  destruct Hp as [Hx Hy]. destruct p as [x y]. cbn [fst snd] in *.
  apply isFinite_Fin in Hx, Hy. destruct Hx as [a ->], Hy as [b ->].
  unfold extend, SpineCanvas.extend, gt. cbn [fst snd].
  destruct e as [m1 m2 m3 m4]. cbn [minX minY maxX maxY] in *.
  f_equal;
    match goal with
    | |- context [Math_min ?m _] => destruct m; try congruence; reflexivity
    | |- context [Math_max ?m _] => destruct m; try congruence; reflexivity
    end.
Qed.

Lemma grid_fold_finite (pts : list (num * num)) (e : extrema) :
  has_nan e = false -> forallb finite_point pts = true ->
  fold_left extend pts e = fold_left SpineCanvas.extend pts e.
Proof.
  revert e. induction pts as [|p pts IH]; simpl; intros e He Hp;
    [reflexivity|].
  apply andb_true_iff in Hp. destruct Hp as [Hp Hps].
  rewrite <- (grid_extend_finite e p He Hp).
  apply IH; [now apply grid_extend_no_nan | exact Hps].
Qed.

Lemma grid_scan_covers (sl : list slot) :
  forallb finite_point (all_points sl) = true -> all_points sl <> [] ->
  covers (all_points sl) (scan sl).
Proof.
  intros Hf Hne. unfold scan. rewrite grid_scan_points.
  rewrite (grid_fold_finite _ start eq_refl Hf).
  change start with SpineCanvas.start. now apply covers_start.
Qed.

(** With finite vertices only, the box, the width and the height are
    finite. *)
Lemma computeAABB_finite (sk : skeleton) :
  forallb finite_point (all_points (slots sk)) = true ->
  exists x0 y0 wd hd,
    minX (box (computeAABB sk)) = Fin x0 /\
    minY (box (computeAABB sk)) = Fin y0 /\
    width (computeAABB sk) = Fin wd /\
    height (computeAABB sk) = Fin hd.
Proof.
  intros Hf. unfold computeAABB.
  destruct (all_points (slots sk)) as [|p ps] eqn:Ep.
  - unfold scan. rewrite grid_scan_points, Ep. cbn.
    now exists 0, 0, (Qred (1 - 0)), (Qred (1 - 0)).
  - assert (Hne : all_points (slots sk) <> []) by (rewrite Ep; discriminate).
    rewrite <- Ep in Hf.
    destruct (grid_scan_covers (slots sk) Hf Hne)
      as (x0 & y0 & x1 & y1 & -> & _).
    cbn. now do 4 eexists.
Qed.

End GridBounds.

(** X11.  [computeAABB] never puts a [NaN] into the box: a [NaN]
    coordinate fails every comparison and leaves the extrema of its axis
    untouched, while the other coordinate of the same vertex is still
    taken. *)
Theorem computeAABB_box_free_of_nan (sk : SpineCanvasGrid.skeleton) :
  has_nan (SpineCanvasGrid.box (SpineCanvasGrid.computeAABB sk)) = false /\
  (forall e y,
     minX (SpineCanvasGrid.extend e (NaN, y)) = minX e /\
     maxX (SpineCanvasGrid.extend e (NaN, y)) = maxX e /\
     minY (SpineCanvasGrid.extend e (NaN, y))
     = (if lt y (minY e) then y else minY e) /\
     maxY (SpineCanvasGrid.extend e (NaN, y))
     = (if lt (maxY e) y then y else maxY e)) /\
  (forall e x,
     minY (SpineCanvasGrid.extend e (x, NaN)) = minY e /\
     maxY (SpineCanvasGrid.extend e (x, NaN)) = maxY e).
Proof.
  split; [|split].
  - unfold SpineCanvasGrid.computeAABB. cbn [SpineCanvasGrid.box].
    destruct (strict_eq (minX (SpineCanvasGrid.scan _)) PosInf);
      [reflexivity|].
    unfold SpineCanvasGrid.scan. rewrite grid_scan_points.
    now apply grid_fold_no_nan.
  - intros e y. unfold SpineCanvasGrid.extend, gt. cbn [minX maxX minY maxY fst snd lt].
    repeat split. now destruct (maxX e).
  - intros e x. unfold SpineCanvasGrid.extend, gt. cbn [minX maxX minY maxY fst snd].
    split.
    + now destruct (minY e).
    + now destruct (maxY e).
Qed.

(** X12.  When every vertex is finite and there is one, the box of
    [computeAABB] is the union box of the vertices, and its width and
    height are the differences of its sides, not negative; without any
    vertex the box is the unit box. *)
Theorem computeAABB_union (sk : SpineCanvasGrid.skeleton) :
  forallb finite_point (all_points (SpineCanvasGrid.slots sk)) = true ->
  let a := SpineCanvasGrid.computeAABB sk in
  (all_points (SpineCanvasGrid.slots sk) = [] ->
   SpineCanvasGrid.box a = SpineCanvasGrid.unit_box /\
   SpineCanvasGrid.width a = of_Z 1 /\ SpineCanvasGrid.height a = of_Z 1) /\
  (all_points (SpineCanvasGrid.slots sk) <> [] ->
   exists x0 y0 x1 y1,
     SpineCanvasGrid.box a = mkExtrema (Fin x0) (Fin y0) (Fin x1) (Fin y1) /\
     union_box (all_points (SpineCanvasGrid.slots sk)) x0 y0 x1 y1 /\
     SpineCanvasGrid.width a = Fin (Qred (x1 - x0)) /\ 0 <= x1 - x0 /\
     SpineCanvasGrid.height a = Fin (Qred (y1 - y0)) /\ 0 <= y1 - y0).
Proof.
  intros Hf a. subst a. unfold SpineCanvasGrid.computeAABB.
  split.
  - intros E. unfold SpineCanvasGrid.scan. rewrite grid_scan_points, E.
    cbn. repeat split.
  - intros Hne.
    destruct (grid_scan_covers _ Hf Hne)
      as (x0 & y0 & x1 & y1 & -> & Hx & Hy & Hu).
    cbn [minX strict_eq SpineCanvasGrid.box SpineCanvasGrid.width
         SpineCanvasGrid.height maxX minY maxY sub].
    exists x0, y0, x1, y1.
    split; [reflexivity|]. split; [exact Hu|]. split; [reflexivity|].
    split; [lra|]. split; [reflexivity | lra].
Qed.

Lemma computeAABB_union_witness :
  (forallb finite_point
     (all_points (SpineCanvasGrid.slots (SpineCanvasGrid.rt_skeleton shape2)))
   = true /\
   all_points (SpineCanvasGrid.slots (SpineCanvasGrid.rt_skeleton shape2))
   <> []) /\
  SpineCanvasGrid.width
    (SpineCanvasGrid.computeAABB (SpineCanvasGrid.rt_skeleton shape2))
  = of_Z 20.
Proof.
  assert (H1 : forallb finite_point
                 (all_points (SpineCanvasGrid.slots
                                (SpineCanvasGrid.rt_skeleton shape2))) = true)
    by reflexivity.
  assert (H2 : all_points (SpineCanvasGrid.slots
                             (SpineCanvasGrid.rt_skeleton shape2)) <> [])
    by discriminate.
  split; [split; assumption|].
  destruct (proj2 (computeAABB_union (SpineCanvasGrid.rt_skeleton shape2) H1)
              H2) as (x0 & y0 & x1 & y1 & _ & _ & _).
  reflexivity.
Defined.
(* ------------------------------------------------------------------ *)
(** ** More on the layout and on the camera *)

Section Fitting.

Lemma Qdiv_pos (b c : Q) : 0 < b -> 0 < c -> 0 < b / c.
Proof.
  intros Hb Hc. apply Qlt_shift_div_l; [exact Hc|]. lra.
Qed.

(** Dividing by more gives less. *)
Lemma Qdiv_le_anti (c a b : Q) : 0 < c -> 0 < a -> a <= b -> c / b <= c / a.
Proof.
  intros Hc Ha Hab. apply Qle_shift_div_l; [exact Ha|].
  setoid_replace (c / b * a) with (c * a / b) by (field; lra).
  apply Qle_shift_div_r; [lra | nra].
Qed.

Lemma Qmult_div_le (a b p c : Q) :
  0 <= p -> 0 < c -> a <= b -> a * p / c <= b * p / c.
Proof.
  intros Hp Hc Hab. apply Qle_shift_div_r; [exact Hc|].
  setoid_replace (b * p / c * c) with (b * p) by (field; lra). nra.
Qed.

Lemma Qred_le (a b : Q) : a <= b -> Qred a <= Qred b.
Proof. now rewrite !Qred_correct. Qed.

Lemma Qred_eq (a b : Q) : a == b -> Qred a == Qred b.
Proof. now rewrite !Qred_correct. Qed.

Lemma inject_Z_pos (z : Z) : (0 < z)%Z -> 0 < inject_Z z.
Proof. intros H. change 0 with (inject_Z 0). now rewrite <- Zlt_Qlt. Qed.

(** The width and the height that [getBounds] returns are finite. *)
Lemma getBounds_size_finite (slots : list slot) :
  exists W H,
    SpineCanvas.w (SpineCanvas.getBounds slots) = Fin W /\
    SpineCanvas.h (SpineCanvas.getBounds slots) = Fin H.
Proof.
  rewrite getBounds_w, getBounds_h.
  destruct (getBounds_box_finite slots) as (x0 & y0 & x1 & y1 & -> & _ & _).
  cbn [minX minY maxX maxY sub]. unfold of_Z. rewrite !Math_max_Fin.
  now do 2 eexists.
Qed.

End Fitting.

(** X13.  Distinct indices get distinct cells of the grid. *)
Theorem layoutGrid_cells_distinct (n i j : Z) :
  (0 < n)%Z -> i <> j ->
  ((i mod SpineCanvasGrid.grid_cols n)%Z, (i / SpineCanvasGrid.grid_cols n)%Z)
  <> ((j mod SpineCanvasGrid.grid_cols n)%Z,
      (j / SpineCanvasGrid.grid_cols n)%Z).
Proof.
  intros Hn Hij E. injection E as Em Ed.
  destruct (ceil_sqrt_spec n Hn) as [Hc _].
  fold (SpineCanvasGrid.grid_cols n) in Hc.
  apply Hij.
  rewrite (Z.div_mod i (SpineCanvasGrid.grid_cols n)) by lia.
  rewrite (Z.div_mod j (SpineCanvasGrid.grid_cols n)) by lia.
  now rewrite Em, Ed.
Qed.

Lemma layoutGrid_cells_distinct_witness :
  ((0 < 5)%Z /\ 1%Z <> 4%Z) /\
  ((1 mod SpineCanvasGrid.grid_cols 5)%Z, (1 / SpineCanvasGrid.grid_cols 5)%Z)
  <> ((4 mod SpineCanvasGrid.grid_cols 5)%Z,
      (4 / SpineCanvasGrid.grid_cols 5)%Z).
Proof.
  assert (H1 : (0 < 5)%Z) by lia.
  assert (H2 : 1%Z <> 4%Z) by lia.
  split; [split; assumption|].
  exact (layoutGrid_cells_distinct 5 1 4 H1 H2).
Defined.

(** X14.  Within one layout of a viewport of positive finite size, of
    two shapes with finite vertices the one that is no wider and no
    higher gets a scale that is no smaller, the same on both axes; and
    two shapes that are at most 1 wide and high get the same scale,
    whatever their sizes. *)
Theorem layoutGrid_scale_order
  (runtimes : list SpineCanvasGrid.Runtime) (w h : Q) (i j : nat)
  (rti rtj : SpineCanvasGrid.Runtime) :
  0 < w -> 0 < h ->
  nth_error runtimes i = Some rti ->
  nth_error runtimes j = Some rtj ->
  forallb finite_point
    (all_points (SpineCanvasGrid.slots (SpineCanvasGrid.rt_skeleton rti)))
  = true ->
  forallb finite_point
    (all_points (SpineCanvasGrid.slots (SpineCanvasGrid.rt_skeleton rtj)))
  = true ->
  let ai := SpineCanvasGrid.computeAABB (SpineCanvasGrid.rt_skeleton rti) in
  let aj := SpineCanvasGrid.computeAABB (SpineCanvasGrid.rt_skeleton rtj) in
  lt (SpineCanvasGrid.width aj) (SpineCanvasGrid.width ai) = false ->
  lt (SpineCanvasGrid.height aj) (SpineCanvasGrid.height ai) = false ->
  exists ski skj si sj,
    nth_error (SpineCanvasGrid.layoutGrid runtimes (Fin w) (Fin h)) i
    = Some (SpineCanvasGrid.mkRuntime ski) /\
    nth_error (SpineCanvasGrid.layoutGrid runtimes (Fin w) (Fin h)) j
    = Some (SpineCanvasGrid.mkRuntime skj) /\
    SpineCanvasGrid.scaleX ski = Fin si /\
    SpineCanvasGrid.scaleY ski = Fin si /\
    SpineCanvasGrid.scaleX skj = Fin sj /\
    SpineCanvasGrid.scaleY skj = Fin sj /\
    sj <= si /\
    (lt (of_Z 1) (SpineCanvasGrid.width aj) = false ->
     lt (of_Z 1) (SpineCanvasGrid.height aj) = false ->
     si == sj).
Proof.
  intros Hw Hh Hi Hj Hfi Hfj ai aj Hwd Hhd.
  set (n := Z.of_nat (List.length runtimes)).
  set (cols := SpineCanvasGrid.grid_cols n).
  set (rows := SpineCanvasGrid.grid_rows n).
  assert (Hlen : (i < List.length runtimes)%nat)
    by (apply nth_error_Some; congruence).
  assert (Hn : (0 < n)%Z) by (subst n; lia).
  assert (Hcols : (0 < cols)%Z) by exact (proj1 (ceil_sqrt_spec n Hn)).
  assert (Hrows : (0 < rows)%Z).
  { assert (Hr : ((rows - 1) * cols < n <= rows * cols)%Z)
      by exact (ceil_quot_spec n cols Hcols).
    destruct (Z.lt_ge_cases 0 rows) as [H | H]; [exact H | nia]. }
  apply inject_Z_pos in Hcols, Hrows.
  destruct (computeAABB_finite (SpineCanvasGrid.rt_skeleton rti) Hfi)
    as (xi & yi & wi & hi & _ & _ & Hwi & Hhi).
  destruct (computeAABB_finite (SpineCanvasGrid.rt_skeleton rtj) Hfj)
    as (xj & yj & wj & hj & _ & _ & Hwj & Hhj).
  fold ai in Hwi, Hhi. fold aj in Hwj, Hhj.
  rewrite Hwi, Hwj in Hwd. rewrite Hhi, Hhj in Hhd.
  cbn [lt] in Hwd, Hhd. apply Qltb_false in Hwd, Hhd.
  do 4 eexists.
  split; [rewrite layoutGrid_nth, Hi; reflexivity|].
  split; [rewrite layoutGrid_nth, Hj; reflexivity|].
  unfold placement. fold n cols rows ai aj.
  cbn [SpineCanvasGrid.scaleX SpineCanvasGrid.scaleY].
  rewrite Hwi, Hhi, Hwj, Hhj.
  unfold of_Z, SpineCanvasGrid.PADDING_RATIO. rewrite !Math_max_Fin.
  rewrite !(div_Fin_pos _ _ Hcols), !(div_Fin_pos _ _ Hrows).
  change (inject_Z 1) with 1.
  set (bwi := if Qltb wi 1 then 1 else wi).
  set (bhi := if Qltb hi 1 then 1 else hi).
  set (bwj := if Qltb wj 1 then 1 else wj).
  set (bhj := if Qltb hj 1 then 1 else hj).
  assert (Hbwi : 1 <= bwi) by (subst bwi; destruct (Qltb_spec wi 1); lra).
  assert (Hbhi : 1 <= bhi) by (subst bhi; destruct (Qltb_spec hi 1); lra).
  assert (Hbw : bwi <= bwj)
    by (subst bwi bwj; destruct (Qltb_spec wi 1), (Qltb_spec wj 1); lra).
  assert (Hbh : bhi <= bhj)
    by (subst bhi bhj; destruct (Qltb_spec hi 1), (Qltb_spec hj 1); lra).
  assert (Hbwi0 : 0 < bwi) by lra. assert (Hbhi0 : 0 < bhi) by lra.
  assert (Hbwj0 : 0 < bwj) by lra. assert (Hbhj0 : 0 < bhj) by lra.
  rewrite (div_Fin_pos _ _ Hbwi0), (div_Fin_pos _ _ Hbhi0),
          (div_Fin_pos _ _ Hbwj0), (div_Fin_pos _ _ Hbhj0).
  rewrite !Math_min_Fin. cbn [mul].
  split; [reflexivity|]. split; [reflexivity|].
  split; [reflexivity|]. split; [reflexivity|].
  set (cw := Qred (w / inject_Z cols)). set (ch := Qred (h / inject_Z rows)).
  assert (Hcw : 0 < cw)
    by (subst cw; rewrite Qred_correct; now apply Qdiv_pos).
  assert (Hch : 0 < ch)
    by (subst ch; rewrite Qred_correct; now apply Qdiv_pos).
  split.
  - assert (Hx : Qred (cw / bwj) <= Qred (cw / bwi))
      by (rewrite !Qred_correct; now apply Qdiv_le_anti).
    assert (Hy : Qred (ch / bhj) <= Qred (ch / bhi))
      by (rewrite !Qred_correct; now apply Qdiv_le_anti).
    fold bwi bhi bwj bhj. apply Qred_le.
    destruct (Qltb_spec (Qred (ch / bhi)) (Qred (cw / bwi))),
             (Qltb_spec (Qred (ch / bhj)) (Qred (cw / bwj))); lra.
  - intros H1 H2. cbn [lt] in H1, H2. apply Qltb_false in H1, H2.
    assert (Ew : bwi == bwj)
      by (subst bwi bwj; destruct (Qltb_spec wi 1), (Qltb_spec wj 1); lra).
    assert (Eh : bhi == bhj)
      by (subst bhi bhj; destruct (Qltb_spec hi 1), (Qltb_spec hj 1); lra).
    assert (Hx : Qred (cw / bwi) == Qred (cw / bwj))
      by (rewrite !Qred_correct; now rewrite Ew).
    assert (Hy : Qred (ch / bhi) == Qred (ch / bhj))
      by (rewrite !Qred_correct; now rewrite Eh).
    fold bwi bhi bwj bhj. apply Qred_eq.
    destruct (Qltb_spec (Qred (ch / bhi)) (Qred (cw / bwi))),
             (Qltb_spec (Qred (ch / bhj)) (Qred (cw / bwj))); lra.
Qed.

Lemma layoutGrid_scale_order_witness :
  (0 < 400 /\ 0 < 400 /\
   nth_error [shape1; shape2; half_unit_shape] 0 = Some shape1 /\
   nth_error [shape1; shape2; half_unit_shape] 2 = Some half_unit_shape /\
   forallb finite_point
     (all_points (SpineCanvasGrid.slots (SpineCanvasGrid.rt_skeleton shape1)))
   = true /\
   forallb finite_point
     (all_points
        (SpineCanvasGrid.slots (SpineCanvasGrid.rt_skeleton half_unit_shape)))
   = true /\
   lt (SpineCanvasGrid.width
         (SpineCanvasGrid.computeAABB (SpineCanvasGrid.rt_skeleton shape1)))
      (SpineCanvasGrid.width
         (SpineCanvasGrid.computeAABB
            (SpineCanvasGrid.rt_skeleton half_unit_shape))) = false /\
   lt (SpineCanvasGrid.height
         (SpineCanvasGrid.computeAABB (SpineCanvasGrid.rt_skeleton shape1)))
      (SpineCanvasGrid.height
         (SpineCanvasGrid.computeAABB
            (SpineCanvasGrid.rt_skeleton half_unit_shape))) = false) /\
  exists ski skj si sj,
    nth_error
      (SpineCanvasGrid.layoutGrid [shape1; shape2; half_unit_shape]
         (Fin 400) (Fin 400)) 2
    = Some (SpineCanvasGrid.mkRuntime ski) /\
    nth_error
      (SpineCanvasGrid.layoutGrid [shape1; shape2; half_unit_shape]
         (Fin 400) (Fin 400)) 0
    = Some (SpineCanvasGrid.mkRuntime skj) /\
    SpineCanvasGrid.scaleX ski = Fin si /\
    SpineCanvasGrid.scaleX skj = Fin sj /\ sj <= si.
Proof.
  assert (H1 : 0 < 400) by reflexivity.
  split; [repeat split; reflexivity|].
  destruct (layoutGrid_scale_order [shape1; shape2; half_unit_shape]
              400 400 2 0 half_unit_shape shape1
              H1 H1 eq_refl eq_refl eq_refl eq_refl eq_refl eq_refl)
    as (ski & skj & si & sj & Hi & Hj & Hsi & _ & Hsj & _ & Hle & _).
  exists ski, skj, si, sj. now repeat split.
Defined.

(** X15.  Of two skeletons in one viewport of positive finite size, under
    one padding that is not negative, the one whose bounds are no wider
    and no higher gets a zoom that is no greater; and two skeletons
    whose bounds are at most 100 wide and high get the same zoom,
    whatever their sizes. *)
Theorem fitCamera_zoom_order (slots1 slots2 : list slot) (cw ch p : Q) :
  0 < cw -> 0 < ch -> 0 <= p ->
  let b1 := SpineCanvas.getBounds slots1 in
  let b2 := SpineCanvas.getBounds slots2 in
  lt (SpineCanvas.w b2) (SpineCanvas.w b1) = false ->
  lt (SpineCanvas.h b2) (SpineCanvas.h b1) = false ->
  exists z1 z2,
    SpineCanvas.zoom
      (SpineCanvas.fitCamera slots1 (Fin cw) (Fin ch) (Fin p)) = Fin z1 /\
    SpineCanvas.zoom
      (SpineCanvas.fitCamera slots2 (Fin cw) (Fin ch) (Fin p)) = Fin z2 /\
    z1 <= z2 /\
    (lt SpineCanvas.minSize (SpineCanvas.w b2) = false ->
     lt SpineCanvas.minSize (SpineCanvas.h b2) = false ->
     z1 == z2).
Proof.
  intros Hcw Hch Hp b1 b2 Hw Hh. subst b1 b2.
  destruct (getBounds_size_finite slots1) as (W1 & H1 & HW1 & HH1).
  destruct (getBounds_size_finite slots2) as (W2 & H2 & HW2 & HH2).
  unfold SpineCanvas.fitCamera. cbn [SpineCanvas.zoom].
  rewrite HW1, HH1, HW2, HH2 in *.
  cbn [lt] in Hw, Hh. apply Qltb_false in Hw, Hh.
  unfold SpineCanvas.minSize, SpineCanvas.zoom_lo, SpineCanvas.zoom_hi, of_Z.
  rewrite !Math_max_Fin. cbn [mul].
  rewrite !(div_Fin_pos _ _ Hcw), !(div_Fin_pos _ _ Hch).
  rewrite !Math_max_Fin, !Math_min_Fin.
  change (inject_Z 100) with 100. change (inject_Z 5) with 5.
  set (A1 := if Qltb 100 W1 then W1 else 100).
  set (B1 := if Qltb 100 H1 then H1 else 100).
  set (A2 := if Qltb 100 W2 then W2 else 100).
  set (B2 := if Qltb 100 H2 then H2 else 100).
  assert (HA : A1 <= A2)
    by (subst A1 A2; destruct (Qltb_spec 100 W1), (Qltb_spec 100 W2); lra).
  assert (HB : B1 <= B2)
    by (subst B1 B2; destruct (Qltb_spec 100 H1), (Qltb_spec 100 H2); lra).
  set (x1 := Qred (Qred (A1 * p) / cw)). set (y1 := Qred (Qred (B1 * p) / ch)).
  set (x2 := Qred (Qred (A2 * p) / cw)). set (y2 := Qred (Qred (B2 * p) / ch)).
  assert (Ex1 : x1 == A1 * p / cw) by (subst x1; now rewrite !Qred_correct).
  assert (Ey1 : y1 == B1 * p / ch) by (subst y1; now rewrite !Qred_correct).
  assert (Ex2 : x2 == A2 * p / cw) by (subst x2; now rewrite !Qred_correct).
  assert (Ey2 : y2 == B2 * p / ch) by (subst y2; now rewrite !Qred_correct).
  set (r1 := if Qltb x1 y1 then y1 else x1).
  set (r2 := if Qltb x2 y2 then y2 else x2).
  set (c1 := if Qltb (5 # 1000) r1 then r1 else 5 # 1000).
  set (c2 := if Qltb (5 # 1000) r2 then r2 else 5 # 1000).
  do 2 eexists. split; [reflexivity|]. split; [reflexivity|].
  assert (Order : x1 <= x2 -> y1 <= y2 ->
                  (if Qltb c1 5 then c1 else 5) <= (if Qltb c2 5 then c2 else 5)).
  { intros Hx Hy.
    assert (Hr : r1 <= r2)
      by (subst r1 r2; destruct (Qltb_spec x1 y1), (Qltb_spec x2 y2); lra).
    assert (Hc : c1 <= c2)
      by (subst c1 c2;
          destruct (Qltb_spec (5 # 1000) r1), (Qltb_spec (5 # 1000) r2); lra).
    destruct (Qltb_spec c1 5), (Qltb_spec c2 5); lra. }
  split.
  - fold A1 B1 A2 B2. fold x1 y1 x2 y2. fold r1 r2. fold c1 c2.
    apply Order.
    + rewrite Ex1, Ex2. now apply Qmult_div_le.
    + rewrite Ey1, Ey2. now apply Qmult_div_le.
  - fold A1 B1 A2 B2. fold x1 y1 x2 y2. fold r1 r2. fold c1 c2.
    intros Hsw Hsh. cbn [lt] in Hsw, Hsh. apply Qltb_false in Hsw, Hsh.
    assert (EA : A1 == A2)
      by (subst A1 A2; destruct (Qltb_spec 100 W1), (Qltb_spec 100 W2); lra).
    assert (EB : B1 == B2)
      by (subst B1 B2; destruct (Qltb_spec 100 H1), (Qltb_spec 100 H2); lra).
    assert (Hx : x1 == x2) by (rewrite Ex1, Ex2; now rewrite EA).
    assert (Hy : y1 == y2) by (rewrite Ey1, Ey2; now rewrite EB).
    assert (Hr : r1 == r2)
      by (subst r1 r2; destruct (Qltb_spec x1 y1), (Qltb_spec x2 y2); lra).
    assert (Hc : c1 == c2)
      by (subst c1 c2;
          destruct (Qltb_spec (5 # 1000) r1), (Qltb_spec (5 # 1000) r2); lra).
    destruct (Qltb_spec c1 5), (Qltb_spec c2 5); lra.
Qed.

Lemma fitCamera_zoom_order_witness :
  (0 < 400 /\ 0 < 300 /\ 0 <= 3 # 2 /\
   lt (SpineCanvas.w (SpineCanvas.getBounds large_mesh))
      (SpineCanvas.w (SpineCanvas.getBounds small_mesh)) = false /\
   lt (SpineCanvas.h (SpineCanvas.getBounds large_mesh))
      (SpineCanvas.h (SpineCanvas.getBounds small_mesh)) = false /\
   lt SpineCanvas.minSize (SpineCanvas.w (SpineCanvas.getBounds large_mesh))
   = false /\
   lt SpineCanvas.minSize (SpineCanvas.h (SpineCanvas.getBounds large_mesh))
   = false) /\
  exists z1 z2,
    SpineCanvas.zoom
      (SpineCanvas.fitCamera small_mesh (Fin 400) (Fin 300) (Fin (3 # 2)))
    = Fin z1 /\
    SpineCanvas.zoom
      (SpineCanvas.fitCamera large_mesh (Fin 400) (Fin 300) (Fin (3 # 2)))
    = Fin z2 /\ z1 <= z2 /\ z1 == z2.
Proof.
  assert (H1 : 0 < 400) by reflexivity.
  assert (H2 : 0 < 300) by reflexivity.
  assert (H3 : 0 <= 3 # 2) by discriminate.
  split; [repeat split; solve [assumption | reflexivity]|].
  destruct (fitCamera_zoom_order small_mesh large_mesh 400 300 (3 # 2)
              H1 H2 H3 eq_refl eq_refl)
    as (z1 & z2 & Hz1 & Hz2 & Hle & Heq).
  exists z1, z2. split; [exact Hz1|]. split; [exact Hz2|].
  split; [exact Hle | exact (Heq eq_refl eq_refl)].
Defined.
(* ------------------------------------------------------------------ *)
(** ** The list of spawned objects *)

Section SpawnedObjects.
Import UseSpine.

Lemma build_length (mk : Z -> SpineObject) (n : nat) :
  forall i, List.length (build mk i n) = n.
Proof. induction n as [|n IH]; intros i; simpl; auto. Qed.

Lemma build_app (mk : Z -> SpineObject) (a b : nat) :
  forall i,
    build mk i (a + b) = build mk i a ++ build mk (i + Z.of_nat a) b.
Proof.
  induction a as [|a IH]; intros i.
  - simpl. now rewrite Z.add_0_r.
  - cbn [Nat.add build app]. rewrite IH. do 3 f_equal. lia.
Qed.

Lemma build_Forall (P : SpineObject -> Prop) (mk : Z -> SpineObject)
  (n : nat) :
  (forall i, P (mk i)) -> forall i, Forall P (build mk i n).
Proof.
  intros H. induction n as [|n IH]; intros i; simpl; constructor; auto.
Qed.

Lemma batches_spec (count : Z) :
  ((batches count - 1) * 3 < safeCount count <= batches count * 3)%Z.
Proof.
  exact (ceil_quot_spec (safeCount count) 3 eq_refl).
Qed.

(** A batch that runs appends the objects of its indices. *)
Lemma createBatch_runs (c : closure) (options : option SpineObjectOptions)
  (draws : Z -> draw) (count k : Z) (prev : list SpineObject) :
  (0 <= k < batches count)%Z ->
  createBatch c options draws count k prev
  = Some ((if isOverlapping c then prev
           else if (k =? 0)%Z then [] else prev)
          ++ build (batchObject c options draws) (k * 3)
               (Z.to_nat (Z.min (k * 3 + 3) (safeCount count) - k * 3))).
Proof.
  intros Hk. unfold createBatch, batchSize.
  destruct (Z.leb_spec (batches count) k); [lia|].
  destruct (isOverlapping c); [reflexivity|].
  destruct (k =? 0)%Z; reflexivity.
Qed.

Lemma createBatch_stops (c : closure) (options : option SpineObjectOptions)
  (draws : Z -> draw) (count k : Z) (prev : list SpineObject) :
  (batches count <= k)%Z ->
  createBatch c options draws count k prev = None.
Proof.
  intros Hk. unfold createBatch.
  destruct (Z.leb_spec (batches count) k); [reflexivity | lia].
Qed.

(** From batch [k >= 1] on, with the objects of the batches before in
    place, the chain ends with all [safeCount] objects in place. *)
Lemma batchesFrom_completes (c : closure)
  (options : option SpineObjectOptions) (draws : Z -> draw) (count : Z)
  (base : list SpineObject) (m : nat) :
  forall (k : Z) (fuel : nat),
    Z.of_nat m = (batches count - k)%Z -> (1 <= k)%Z -> (m <= fuel)%nat ->
    batchesFrom fuel c options draws count k
      (base ++ build (batchObject c options draws) 0
                 (Z.to_nat (Z.min (k * 3) (safeCount count))))
    = base ++ build (batchObject c options draws) 0
                (Z.to_nat (safeCount count)).
Proof.
  pose proof (batches_spec count) as HB.
  induction m as [|m IH]; intros k fuel Hm Hk Hfuel.
  - assert (Emin : Z.min (k * 3) (safeCount count) = safeCount count) by lia.
    rewrite Emin. destruct fuel as [|fuel]; [reflexivity|].
    cbn [batchesFrom]. rewrite createBatch_stops by lia. reflexivity.
  - destruct fuel as [|fuel]; [lia|].
    cbn [batchesFrom]. rewrite createBatch_runs by lia.
    assert (Ek : (k =? 0)%Z = false) by (apply Z.eqb_neq; lia).
    rewrite Ek.
    replace (if isOverlapping c
             then base ++ build (batchObject c options draws) 0
                            (Z.to_nat (Z.min (k * 3) (safeCount count)))
             else base ++ build (batchObject c options draws) 0
                            (Z.to_nat (Z.min (k * 3) (safeCount count))))
      with (base ++ build (batchObject c options draws) 0
                      (Z.to_nat (Z.min (k * 3) (safeCount count))))
      by (now destruct (isOverlapping c)).
    rewrite <- app_assoc.
    assert (Emin : Z.min (k * 3) (safeCount count) = (k * 3)%Z) by lia.
    rewrite Emin.
    replace (build (batchObject c options draws) 0 (Z.to_nat (k * 3))
             ++ build (batchObject c options draws) (k * 3)
                  (Z.to_nat (Z.min (k * 3 + 3) (safeCount count) - k * 3)))
      with (build (batchObject c options draws) 0
              (Z.to_nat (Z.min ((k + 1) * 3) (safeCount count)))).
    + apply IH; lia.
    + replace (Z.to_nat (Z.min ((k + 1) * 3) (safeCount count)))
        with (Z.to_nat (k * 3)
              + Z.to_nat (Z.min (k * 3 + 3) (safeCount count) - k * 3))%nat
        by lia.
      rewrite build_app. do 2 f_equal. lia.
Qed.

Lemma batchesFrom_all (c : closure) (options : option SpineObjectOptions)
  (draws : Z -> draw) (count : Z) (prev : list SpineObject) (fuel : nat) :
  (1 <= safeCount count)%Z ->
  (Z.to_nat (batches count) <= fuel)%nat ->
  batchesFrom fuel c options draws count 0 prev
  = (if isOverlapping c then prev else [])
    ++ build (batchObject c options draws) 0 (Z.to_nat (safeCount count)).
Proof.
  intros Hs Hfuel. pose proof (batches_spec count) as HB.
  destruct fuel as [|fuel]; [lia|].
  cbn [batchesFrom]. rewrite createBatch_runs by lia.
  cbn [Z.eqb Z.mul Z.add].
  replace (if isOverlapping c then prev else [])
    with (if isOverlapping c then prev else @nil SpineObject) by reflexivity.
  replace (Z.to_nat (Z.min 3 (safeCount count) - 0))
    with (Z.to_nat (Z.min (1 * 3) (safeCount count))) by lia.
  apply (batchesFrom_completes c options draws count _
           (Z.to_nat (batches count - 1))); lia.
Qed.

Lemma batchesFrom_none (c : closure) (options : option SpineObjectOptions)
  (draws : Z -> draw) (count : Z) (prev : list SpineObject) (fuel : nat) :
  (safeCount count <= 0)%Z ->
  batchesFrom fuel c options draws count 0 prev = prev.
Proof.
  intros Hs. pose proof (batches_spec count) as HB.
  destruct fuel as [|fuel]; [reflexivity|].
  cbn [batchesFrom]. now rewrite createBatch_stops by lia.
Qed.

Lemma ready_guard (c : closure) :
  isLoading c = false -> animations c <> [] ->
  isLoading c || (List.length (animations c) =? 0)%nat = false.
Proof.
  intros Hl Ha. rewrite Hl. destruct (animations c); [congruence | reflexivity].
Qed.

End SpawnedObjects.
(** X16.  Once the assets are loaded, [createSpineObject(count)] leaves
    the list as follows (its batches having all run, nothing else
    touching the list meanwhile): kept objects first (the previous list
    when overlapping, none otherwise), then the new ones, in the order
    of their index; one new object for [count = 1], [min(count, 10)] for
    [count >= 2], however much fuel beyond the number of batches the
    chain is given; and for [count <= 0] the list is left as it was. *)
Theorem createSpineObject_result (c : UseSpine.closure) (count : Z)
  (options : option UseSpine.SpineObjectOptions)
  (draws : Z -> UseSpine.draw) (prev : list UseSpine.SpineObject) :
  UseSpine.isLoading c = false -> UseSpine.animations c <> [] ->
  let kept := if UseSpine.isOverlapping c then prev else [] in
  let made := UseSpine.build (UseSpine.batchObject c options draws) 0
                (Z.to_nat (Z.min count 10)) in
  (count = 1%Z ->
   UseSpine.createSpineObject c count options draws prev
   = kept ++ [UseSpine.newObject c options (draws 0%Z) ""]) /\
  ((2 <= count)%Z ->
   UseSpine.createSpineObject c count options draws prev = kept ++ made /\
   (forall fuel, (Z.to_nat (UseSpine.batches count) <= fuel)%nat ->
      UseSpine.batchesFrom fuel c options draws count 0 prev = kept ++ made) /\
   List.length made = Z.to_nat (Z.min count 10) /\
   (2 <= List.length made <= 10)%nat) /\
  ((count <= 0)%Z ->
   UseSpine.createSpineObject c count options draws prev = prev).
Proof.
  intros Hl Ha kept made.
  unfold UseSpine.createSpineObject. rewrite (ready_guard c Hl Ha).
  split; [|split].
  - intros ->. cbn [Z.eqb Pos.eqb]. subst kept.
    now destruct (UseSpine.isOverlapping c).
  - intros Hc.
    destruct (Z.eqb_spec count 1) as [E | _]; [lia|].
    assert (Hs : (1 <= UseSpine.safeCount count)%Z)
      by (unfold UseSpine.safeCount; lia).
    split; [apply batchesFrom_all; [exact Hs | lia]|].
    split; [intros fuel Hfuel; now apply batchesFrom_all|].
    subst made. rewrite build_length. split; [reflexivity | lia].
  - intros Hc.
    destruct (Z.eqb_spec count 1) as [E | _]; [lia|].
    apply batchesFrom_none. unfold UseSpine.safeCount. lia.
Qed.

Lemma createSpineObject_result_witness :
  (UseSpine.isLoading loaded_closure = false /\
   UseSpine.animations loaded_closure <> [] /\ (2 <= 25)%Z) /\
  List.length
    (UseSpine.createSpineObject loaded_closure 25 None sample_draw []) = 10%nat.
Proof.
  assert (H1 : UseSpine.isLoading loaded_closure = false) by reflexivity.
  assert (H2 : UseSpine.animations loaded_closure <> []) by discriminate.
  assert (H3 : (2 <= 25)%Z) by lia.
  split; [repeat split; assumption|].
  destruct (proj1 (proj2 (createSpineObject_result loaded_closure 25 None
                            sample_draw [] H1 H2)) H3)
    as (E & _ & Hlen & _).
  rewrite E. exact Hlen.
Defined.

Section NewObject.
Import UseSpine.

Lemma validAnimation_In (c : closure) :
  animations c <> [] -> In (validAnimation c) (animations c).
Proof.
  intros Ha. unfold validAnimation.
  destruct (JSString.includes (animations c) (currentAnimation c)) eqn:E.
  - now apply includes_In.
  - destruct (animations c) as [|a l]; [congruence | now left].
Qed.

Lemma newObject_animation (c : closure) (options : option SpineObjectOptions)
  (d : draw) (suffix : string) :
  animation (newObject c options d suffix) = validAnimation c.
Proof. reflexivity. Qed.

End NewObject.



Section DeleteObject.
Import UseSpine.

Lemma removelast_snoc {A} (l : list A) (a : A) : removelast (l ++ [a]) = l.
Proof. now rewrite removelast_last. Qed.

End DeleteObject.

(** X18.  [deleteSpineObject]: with a non-empty id, exactly the objects
    of another id stay; without one (or with the empty string), the
    last object is dropped when the list that the callback captured is
    not empty, and nothing changes when that captured list is empty,
    whatever the list is by then. *)
Theorem deleteSpineObject_effect (c : UseSpine.closure)
  (id_arg : option string) (prev : list UseSpine.SpineObject) :
  (forall i, id_arg = Some i -> i <> EmptyString ->
     forall obj,
       In obj (UseSpine.deleteSpineObject c id_arg prev) <->
       In obj prev /\ UseSpine.id obj <> i) /\
  (JSString.truthy id_arg = false -> UseSpine.spineObjects c <> [] ->
   (forall l obj, prev = l ++ [obj] ->
      UseSpine.deleteSpineObject c id_arg prev = l) /\
   (prev = [] -> UseSpine.deleteSpineObject c id_arg prev = [])) /\
  (JSString.truthy id_arg = false -> UseSpine.spineObjects c = [] ->
   UseSpine.deleteSpineObject c id_arg prev = prev).
Proof.
  unfold UseSpine.deleteSpineObject. split; [|split].
  - intros i -> Hi obj. rewrite (truthy_Some i Hi).
    rewrite filter_In, negb_true_iff, String.eqb_neq. reflexivity.
  - intros Ht Hc. rewrite Ht.
    destruct (UseSpine.spineObjects c) as [|o0 l0]; [congruence|].
    cbn [List.length Nat.ltb Nat.leb]. split.
    + intros l obj ->. apply removelast_snoc.
    + intros ->. reflexivity.
  - intros Ht Hc. now rewrite Ht, Hc.
Qed.

Lemma deleteSpineObject_effect_witness :
  (JSString.truthy None = false /\
   UseSpine.spineObjects loaded_closure = []) /\
  UseSpine.deleteSpineObject loaded_closure None
    [UseSpine.newObject loaded_closure None (sample_draw 0) ""]
  = [UseSpine.newObject loaded_closure None (sample_draw 0) ""].
Proof.
  split; [split; reflexivity|].
  exact (proj2 (proj2 (deleteSpineObject_effect loaded_closure None
                         [UseSpine.newObject loaded_closure None
                            (sample_draw 0) ""]))
           eq_refl eq_refl).
Defined.
(* ------------------------------------------------------------------ *)
(** ** The hook as a state machine *)

Section HookInvariant.
Import UseSpine.

Lemma createBatch_Forall (P : SpineObject -> Prop) (c : closure)
  (options : option SpineObjectOptions) (draws : Z -> draw) (count k : Z)
  (prev next : list SpineObject) :
  (forall i, P (batchObject c options draws i)) ->
  Forall P prev ->
  createBatch c options draws count k prev = Some next -> Forall P next.
Proof.
  intros Hnew Hprev. unfold createBatch.
  destruct (batches count <=? k)%Z; [discriminate|].
  intros E. injection E as <-.
  assert (Hb : forall i n, Forall P (build (batchObject c options draws) i n))
    by (intros i n; now apply build_Forall).
  destruct (isOverlapping c); [apply Forall_app; auto|].
  destruct (k =? 0)%Z; [apply Hb | apply Forall_app; auto].
Qed.

Lemma batchesFrom_Forall (P : SpineObject -> Prop) (c : closure)
  (options : option SpineObjectOptions) (draws : Z -> draw) (count : Z)
  (fuel : nat) :
  (forall i, P (batchObject c options draws i)) ->
  forall k prev, Forall P prev ->
    Forall P (batchesFrom fuel c options draws count k prev).
Proof.
  intros Hnew. induction fuel as [|fuel IH]; intros k prev Hprev; [exact Hprev|].
  cbn [batchesFrom].
  destruct (createBatch c options draws count k prev) as [next|] eqn:E;
    [|exact Hprev].
  apply IH. exact (createBatch_Forall P c options draws count k prev next
                     Hnew Hprev E).
Qed.

Lemma createSpineObject_Forall (P : SpineObject -> Prop) (c : closure)
  (count : Z) (options : option SpineObjectOptions) (draws : Z -> draw)
  (prev : list SpineObject) :
  (animations c <> [] -> forall d suffix, P (newObject c options d suffix)) ->
  Forall P prev ->
  Forall P (createSpineObject c count options draws prev).
Proof.
  intros Hnew Hprev. unfold createSpineObject.
  destruct (isLoading c); [exact Hprev|]. cbn [orb].
  destruct (animations c) as [|a0 l0] eqn:Ea; [exact Hprev|].
  cbn [List.length Nat.eqb].
  assert (Hnew' : forall d suffix, P (newObject c options d suffix))
    by (apply Hnew; discriminate).
  destruct (count =? 1)%Z.
  - destruct (isOverlapping c);
      [apply Forall_app; split; [exact Hprev|] |]; repeat constructor;
      apply Hnew'.
  - apply batchesFrom_Forall; [|exact Hprev].
    intros i. apply Hnew'.
Qed.

Lemma removelast_Forall {A} (P : A -> Prop) (l : list A) :
  Forall P l -> Forall P (removelast l).
Proof.
  induction l as [|a l IH]; intros H; [constructor|].
  inversion H as [|? ? Ha Hl]; subst. cbn [removelast].
  destruct l; [constructor | constructor; auto].
Qed.

Lemma filter_Forall {A} (P : A -> Prop) (f : A -> bool) (l : list A) :
  Forall P l -> Forall P (filter f l).
Proof.
  intros H. apply Forall_forall. intros a Ha.
  apply filter_In in Ha. destruct Ha as [Ha _].
  rewrite Forall_forall in H. now apply H.
Qed.

Lemma map_index_Forall (P : SpineObject -> Prop)
  (f : SpineObject -> nat -> SpineObject) (l : list SpineObject) :
  (forall obj i, P obj -> P (f obj i)) ->
  Forall P l -> forall i, Forall P (map_index f i l).
Proof.
  intros Hf. induction l as [|a l IH]; intros H i; [constructor|].
  inversion H; subst. cbn [map_index]. constructor; auto.
Qed.

Lemma map_index_length (f : SpineObject -> nat -> SpineObject)
  (l : list SpineObject) :
  forall i, List.length (map_index f i l) = List.length l.
Proof. induction l as [|a l IH]; intros i; simpl; auto. Qed.

Lemma randomIndex_lt (r : Q) (n : nat) :
  0 <= r -> r < 1 -> (0 < n)%nat -> (randomIndex r n < n)%nat.
Proof.
  intros H0 H1 Hn. unfold randomIndex.
  assert (Hq : 0 < inject_Z (Z.of_nat n)).
  { change 0 with (inject_Z 0). rewrite <- Zlt_Qlt. lia. }
  assert (Hlt : r * inject_Z (Z.of_nat n) < inject_Z (Z.of_nat n)).
  { setoid_replace (inject_Z (Z.of_nat n)) with (1 * inject_Z (Z.of_nat n))
      at 2 by ring.
    now apply Qmult_lt_compat_r. }
  assert (Hge : 0 <= r * inject_Z (Z.of_nat n)) by (apply Qmult_le_0_compat; lra).
  pose proof (Qfloor_le (r * inject_Z (Z.of_nat n))) as Hfl.
  assert (Hfz : (Qfloor (r * inject_Z (Z.of_nat n)) < Z.of_nat n)%Z).
  { rewrite Zlt_Qlt. lra. }
  assert (Hf0 : (0 <= Qfloor (r * inject_Z (Z.of_nat n)))%Z).
  { change 0%Z with (Qfloor 0). now apply Qfloor_resp_le. }
  lia.
Qed.

Lemma step_animations (h : hook) (e : event) :
  animations (current (step h e)) = animations (current h).
Proof. destruct e; reflexivity. Qed.

Lemma step_valid (h : hook) (e : event) :
  animations_valid (current h) -> offered (current h) e ->
  animations_valid (current (step h e)).
Proof.
  unfold animations_valid. intros Hv He.
  destruct e as [count options draws | id_arg | | | a | s | m | r1 r2];
    cbn [step current spineObjects animations set_objects] in *.
  - apply createSpineObject_Forall; [|exact Hv].
    intros Hne d suffix. rewrite newObject_animation.
    now apply (validAnimation_In (createClosure h)).
  - unfold deleteSpineObject.
    destruct (JSString.truthy id_arg); [now apply filter_Forall|].
    destruct (0 <? _)%nat; [now apply removelast_Forall | exact Hv].
  - constructor.
  - exact Hv.
  - unfold changeAnimation. apply Forall_forall. intros obj Hobj.
    apply in_map_iff in Hobj. destruct Hobj as (o & <- & _). exact He.
  - unfold changeSkin. apply Forall_forall. intros obj Hobj.
    apply in_map_iff in Hobj. destruct Hobj as (o & <- & Ho).
    rewrite Forall_forall in Hv. exact (Hv o Ho).
  - unfold changeRenderMode. apply Forall_forall. intros obj Hobj.
    apply in_map_iff in Hobj. destruct Hobj as (o & <- & Ho).
    rewrite Forall_forall in Hv. exact (Hv o Ho).
  - unfold timerTick.
    destruct (Nat.ltb_spec 1 (List.length (animations (current h))))
      as [Hmany | _]; [|exact Hv].
    apply map_index_Forall; [|exact Hv].
    intros obj i Hobj. destruct (i =? _)%nat; [|exact Hobj].
    cbn [with_animation animation]. apply nth_In.
    destruct He as (_ & _ & H0 & H1). apply randomIndex_lt; auto; lia.
Qed.

End HookInvariant.

(** X19.  Once the assets are loaded, every object of the list carries
    an animation of the loaded names, and keeps doing so through any
    sequence of creations, deletions, toggles, changes of skin or render
    mode, changes of animation to a name that the select offers, and
    ticks of the timer. *)
Theorem hook_keeps_animations_valid (h : UseSpine.hook)
  (es : list UseSpine.event) :
  animations_valid (UseSpine.current h) ->
  Forall (UseSpine.offered (UseSpine.current h)) es ->
  animations_valid (UseSpine.current (UseSpine.run h es)) /\
  UseSpine.animations (UseSpine.current (UseSpine.run h es))
  = UseSpine.animations (UseSpine.current h).
Proof.
  revert h. induction es as [|e es IH]; intros h Hv Hes; [now split|].
  inversion Hes as [|? ? He Hrest]; subst.
  cbn [UseSpine.run fold_left]. fold (UseSpine.run (UseSpine.step h e) es).
  assert (Hoff : Forall (UseSpine.offered
                           (UseSpine.current (UseSpine.step h e))) es).
  { eapply Forall_impl; [|exact Hrest].
    intros e'. unfold UseSpine.offered.
    now rewrite (step_animations h e). }
  destruct (IH (UseSpine.step h e) (step_valid h e Hv He) Hoff) as [H1 H2].
  split; [exact H1|]. now rewrite H2, step_animations.
Qed.

Lemma hook_keeps_animations_valid_witness :
  (animations_valid loaded_closure /\
   Forall (UseSpine.offered loaded_closure)
     [UseSpine.Create 10 None sample_draw;
      UseSpine.ChangeAnimation "run"%string;
      UseSpine.Tick (1 # 3) (2 # 3);
      UseSpine.Delete None]) /\
  animations_valid
    (UseSpine.current
       (UseSpine.run (UseSpine.mkHook loaded_closure SpineRenderer.player)
          [UseSpine.Create 10 None sample_draw;
           UseSpine.ChangeAnimation "run"%string;
           UseSpine.Tick (1 # 3) (2 # 3);
           UseSpine.Delete None])).
Proof.
  assert (H1 : animations_valid loaded_closure) by constructor.
  assert (H2 : Forall (UseSpine.offered loaded_closure)
                 [UseSpine.Create 10 None sample_draw;
                  UseSpine.ChangeAnimation "run"%string;
                  UseSpine.Tick (1 # 3) (2 # 3);
                  UseSpine.Delete None]).
  { repeat constructor; cbn; auto; discriminate. }
  split; [split; assumption|].
  exact (proj1 (hook_keeps_animations_valid
                  (UseSpine.mkHook loaded_closure SpineRenderer.player)
                  _ H1 H2)).
Defined.

(** X20.  [changeRenderMode] puts the new mode on every object of the
    list and into the hook, but the memoized [createSpineObject] keeps
    the mode it captured: the object created next still carries that
    former mode.  After a toggle of the overlap flag (one of the
    dependencies of the callback) a created object carries the new
    mode. *)
Theorem create_after_changeRenderMode (h : UseSpine.hook)
  (m : SpineRenderer.RenderMode) (d : UseSpine.draw) :
  UseSpine.isLoading (UseSpine.current h) = false ->
  UseSpine.animations (UseSpine.current h) <> [] ->
  let h1 := UseSpine.step h (UseSpine.ChangeRenderMode m) in
  let h2 := UseSpine.step h1 (UseSpine.Create 1 None (fun _ => d)) in
  let h3 := UseSpine.step
              (UseSpine.step h1 UseSpine.ToggleOverlap)
              (UseSpine.Create 1 None (fun _ => d)) in
  UseSpine.c_renderMode (UseSpine.current h1) = m /\
  Forall (fun obj => UseSpine.renderMode obj = m)
         (UseSpine.spineObjects (UseSpine.current h1)) /\
  (exists kept obj,
     UseSpine.spineObjects (UseSpine.current h2) = kept ++ [obj] /\
     UseSpine.renderMode obj = UseSpine.createMode h) /\
  (exists kept obj,
     UseSpine.spineObjects (UseSpine.current h3) = kept ++ [obj] /\
     UseSpine.renderMode obj = m).
Proof.
  intros Hl Ha h1 h2 h3.
  split; [reflexivity|]. split.
  - subst h1. cbn [UseSpine.step UseSpine.current UseSpine.spineObjects].
    unfold UseSpine.changeRenderMode. apply Forall_forall.
    intros obj Hobj. apply in_map_iff in Hobj.
    now destruct Hobj as (o & <- & _).
  - split.
    + subst h2 h1.
      cbn [UseSpine.step UseSpine.current UseSpine.spineObjects
           UseSpine.set_objects UseSpine.createMode].
      unfold UseSpine.createSpineObject.
      rewrite ready_guard by assumption. cbn [Z.eqb Pos.eqb].
      destruct (UseSpine.isOverlapping _); do 2 eexists; split;
        try reflexivity.
      * exact (eq_refl : [_] = [] ++ [_]).
      * reflexivity.
    + subst h3 h1.
      cbn [UseSpine.step UseSpine.current UseSpine.spineObjects
           UseSpine.set_objects UseSpine.createMode UseSpine.c_renderMode].
      unfold UseSpine.createSpineObject.
      rewrite ready_guard by assumption. cbn [Z.eqb Pos.eqb].
      destruct (UseSpine.isOverlapping _); do 2 eexists; split;
        try reflexivity.
      * exact (eq_refl : [_] = [] ++ [_]).
      * reflexivity.
Qed.

Lemma create_after_changeRenderMode_witness :
  (UseSpine.isLoading loaded_closure = false /\
   UseSpine.animations loaded_closure <> []) /\
  map UseSpine.renderMode
    (UseSpine.spineObjects
       (UseSpine.current
          (UseSpine.run (UseSpine.mkHook loaded_closure SpineRenderer.player)
             [UseSpine.ChangeRenderMode SpineRenderer.webgl;
              UseSpine.Create 1 None sample_draw])))
  = [SpineRenderer.player].
Proof.
  assert (H1 : UseSpine.isLoading loaded_closure = false) by reflexivity.
  assert (H2 : UseSpine.animations loaded_closure <> []) by discriminate.
  split; [split; assumption|].
  destruct (create_after_changeRenderMode
              (UseSpine.mkHook loaded_closure SpineRenderer.player)
              SpineRenderer.webgl (sample_draw 0) H1 H2)
    as (_ & _ & _ & _).
  reflexivity.
Defined.
(* ------------------------------------------------------------------ *)
(** ** The progress of the loading *)

(** X21.  The progress computed while loading, for counts that are not
    negative: the division is by at least 1, so the result is a finite
    number, not negative, at most 100 when no more is loaded than is
    awaited; and the indicator shows it within [[0, 100]] in any case. *)
Theorem loadingProgress_finite (loaded toLoad : Z) :
  (0 <= loaded)%Z -> (0 <= toLoad)%Z ->
  exists z shown,
    UseSpine.loadingProgress (of_Z loaded) (of_Z toLoad) = Fin z /\
    0 <= z /\
    z == inject_Z loaded / inject_Z (Z.max 1 toLoad) * 100 /\
    ((loaded <= toLoad)%Z -> z <= 100) /\
    LoadingIndicator.clampedProgress (Fin z) = Fin shown /\
    0 <= shown /\ shown <= 100.
Proof.
  intros Hl Ht. unfold UseSpine.loadingProgress, of_Z.
  rewrite Math_max_Fin.
  assert (Emax : (if Qltb (inject_Z 1) (inject_Z toLoad)
                  then inject_Z toLoad else inject_Z 1)
                 == inject_Z (Z.max 1 toLoad)).
  { destruct (Qltb_spec (inject_Z 1) (inject_Z toLoad)) as [H | H].
    - rewrite <- Zlt_Qlt in H. now rewrite Z.max_r by lia.
    - rewrite <- Zle_Qle in H. now rewrite Z.max_l by lia. }
  set (den := if Qltb (inject_Z 1) (inject_Z toLoad)
              then inject_Z toLoad else inject_Z 1) in *.
  assert (Hden : 1 <= inject_Z (Z.max 1 toLoad)).
  { change 1 with (inject_Z 1). rewrite <- Zle_Qle. lia. }
  assert (Hden0 : 0 < den) by (rewrite Emax; lra).
  rewrite (div_Fin_pos _ _ Hden0). cbn [mul].
  set (z := Qred (Qred (inject_Z loaded / den) * inject_Z 100)).
  assert (Ez : z == inject_Z loaded / inject_Z (Z.max 1 toLoad) * 100).
  { subst z. rewrite !Qred_correct, Emax. reflexivity. }
  assert (Hl' : 0 <= inject_Z loaded)
    by (change 0 with (inject_Z 0); rewrite <- Zle_Qle; exact Hl).
  assert (Hq : 0 <= inject_Z loaded / inject_Z (Z.max 1 toLoad)).
  { apply Qle_shift_div_l; lra. }
  assert (Hz0 : 0 <= z) by (rewrite Ez; lra).
  destruct (proj2 (clampedProgress_bounds (Fin z)))
    as (shown & Hs & Hs0 & Hs100); [discriminate|].
  exists z, shown. split; [reflexivity|]. split; [exact Hz0|].
  split; [exact Ez|]. split; [|now repeat split].
  intros Hle. rewrite Ez.
  assert (Hq1 : inject_Z loaded / inject_Z (Z.max 1 toLoad) <= 1).
  { apply Qle_shift_div_r; [lra|]. rewrite Qmult_1_l.
    rewrite <- Zle_Qle. lia. }
  lra.
Qed.

Lemma loadingProgress_finite_witness :
  ((0 <= 1)%Z /\ (0 <= 0)%Z) /\
  UseSpine.loadingProgress (of_Z 1) (of_Z 0) = of_Z 100.
Proof.
  assert (H1 : (0 <= 1)%Z) by lia. assert (H2 : (0 <= 0)%Z) by lia.
  split; [split; assumption|].
  destruct (loadingProgress_finite 1 0 H1 H2) as (z & shown & Hz & _).
  reflexivity.
Defined.
(* ------------------------------------------------------------------ *)
(** ** The delayed spawn *)

Section DelayedSpawn.
Import ControlPanel.

Lemma creates_app (a b : list call) :
  creates (a ++ b) = (creates a + creates b)%nat.
Proof. unfold creates. now rewrite filter_app, length_app. Qed.

Lemma deletes_app (a b : list call) :
  deletes (a ++ b) = (deletes a + deletes b)%nat.
Proof. unfold deletes. now rewrite filter_app, length_app. Qed.

Lemma grace_bounds (m : SpineRenderer.RenderMode) :
  0 <= grace m /\ grace m <= 500.
Proof. destruct m; cbn; split; lra. Qed.

(** What one event keeps and how it moves the counts. *)
Lemma step_keeps (p : panel) (e : event) :
  consistent p -> 0 <= timeLeftMs p ->
  consistent (fst (step p e)) /\
  0 <= timeLeftMs (fst (step p e)) /\
  (creates (snd (step p e)) + pending_delete p
   = deletes (snd (step p e)) + pending_delete (fst (step p e)))%nat.
Proof.
  unfold consistent, pending_delete. intros Hc Ht.
  destruct p as [ph tl tk arm del dl mt].
  cbn [phase timeLeftMs ticker armTO deleteTO deadline mounted] in *.
  destruct e as [now m | now | | now | ]; cbn [step armTO deleteTO ticker mounted].
  - destruct mt; [|now repeat split].
    unfold handleDelayedSpawn. cbn [phase].
    destruct ph; cbn [Phase_eqb negb fst snd phase timeLeftMs armTO deleteTO
                      mounted]; [|now repeat split|now repeat split].
    destruct Hc as [_ ->]. unfold armMs.
    split; [split; [discriminate|reflexivity]|]. split; [lra|reflexivity].
  - destruct arm as [m|]; [|now repeat split].
    unfold armCallback.
    cbn [fst snd phase timeLeftMs armTO deleteTO mounted].
    pose proof (grace_bounds m) as [Hg0 Hg1]. unfold aliveMs.
    destruct mt.
    + destruct ph; destruct Hc as [Harm Hdel]; try congruence.
      subst del. repeat split; try lra; discriminate.
    + discriminate.
  - destruct del as [d|]; [|now repeat split].
    unfold deleteCallback.
    cbn [fst snd phase timeLeftMs armTO deleteTO mounted ticker].
    destruct mt.
    + destruct ph; destruct Hc as [Harm Hdel]; try congruence.
      subst arm. repeat split; lra.
    + now repeat split.
  - destruct tk; [|now repeat split].
    unfold tickCallback.
    cbn [fst snd phase timeLeftMs armTO deleteTO mounted deadline].
    split; [exact Hc|]. split; [|reflexivity].
    destruct mt; [|exact Ht].
    destruct (Qltb_spec 0 (dl - now)); lra.
  - unfold unmount. cbn [fst snd timeLeftMs armTO deleteTO mounted].
    now repeat split.
Qed.

Lemma run_keeps (es : list event) :
  forall p,
    consistent p -> 0 <= timeLeftMs p ->
    consistent (fst (run p es)) /\
    0 <= timeLeftMs (fst (run p es)) /\
    (creates (snd (run p es)) + pending_delete p
     = deletes (snd (run p es)) + pending_delete (fst (run p es)))%nat.
Proof.
  induction es as [|e es IH]; intros p Hc Ht; [now repeat split|].
  cbn [run fst snd].
  destruct (step_keeps p e Hc Ht) as (Hc1 & Ht1 & Hb1).
  destruct (IH (fst (step p e)) Hc1 Ht1) as (Hc2 & Ht2 & Hb2).
  split; [exact Hc2|]. split; [exact Ht2|].
  rewrite creates_app, deletes_app. lia.
Qed.

End DelayedSpawn.

(** X22.  The delayed spawn of the control panel, over any sequence of
    clicks, timer firings and an unmount, from the fresh panel: every
    call of the create callback is matched by one call of the delete
    callback or by a delete timeout still pending, so the calls
    alternate, create first; the time left that is shown is never
    negative; a click outside the idle phase does nothing; an unmount
    cancels a pending creation and leaves a pending deletion in
    place. *)
Theorem delayed_spawn_balanced (es : list ControlPanel.event) :
  let r := ControlPanel.run ControlPanel.initial es in
  ControlPanel.consistent (fst r) /\
  0 <= ControlPanel.timeLeftMs (fst r) /\
  ControlPanel.creates (snd r)
  = (ControlPanel.deletes (snd r) + ControlPanel.pending_delete (fst r))%nat /\
  (ControlPanel.deletes (snd r) <= ControlPanel.creates (snd r)
   <= ControlPanel.deletes (snd r) + 1)%nat /\
  (forall p now m,
     ControlPanel.phase p <> ControlPanel.idle ->
     ControlPanel.step p (ControlPanel.Click now m) = (p, [])) /\
  (forall p,
     ControlPanel.armTO (ControlPanel.unmount p) = None /\
     ControlPanel.deleteTO (ControlPanel.unmount p) = ControlPanel.deleteTO p).
Proof.
  intros r.
  assert (Hc0 : ControlPanel.consistent ControlPanel.initial)
    by (split; reflexivity).
  assert (Ht0 : 0 <= ControlPanel.timeLeftMs ControlPanel.initial)
    by (cbn; lra).
  destruct (run_keeps es ControlPanel.initial Hc0 Ht0) as (Hc & Ht & Hb).
  fold r in Hc, Ht, Hb. cbn [ControlPanel.pending_delete ControlPanel.initial
                             ControlPanel.deleteTO] in Hb.
  change (ControlPanel.pending_delete ControlPanel.initial) with 0%nat in Hb.
  rewrite Nat.add_0_r in Hb.
  split; [exact Hc|]. split; [exact Ht|]. split; [exact Hb|].
  split.
  - unfold ControlPanel.pending_delete in Hb.
    destruct (ControlPanel.deleteTO (fst r)); lia.
  - split; [|now split].
    intros p now m Hph. cbn [ControlPanel.step].
    unfold ControlPanel.handleDelayedSpawn.
    destruct (ControlPanel.phase p); [congruence | |];
      cbn [ControlPanel.Phase_eqb negb]; now destruct (ControlPanel.mounted p).
Qed.

(** X23.  One accepted click, at time [t] under render mode [m], on a
    panel that any earlier events left mounted and idle: the arm
    timeout calls the create callback once and starts the delete timeout
    with a delay of 5000 ms, 5500 ms under the player mode; the delete
    timeout calls the delete callback once and brings the panel back to
    idle; when the panel is unmounted after the creation, the delete
    callback is still called; when it is unmounted before, nothing is
    called. *)
Theorem delayed_spawn_cycle (es : list ControlPanel.event) (t t' : Q)
  (m : SpineRenderer.RenderMode) :
  let p := fst (ControlPanel.run ControlPanel.initial es) in
  ControlPanel.mounted p = true ->
  ControlPanel.phase p = ControlPanel.idle ->
  let armed := fst (ControlPanel.run p
                      [ControlPanel.Click t m; ControlPanel.ArmFires t']) in
  ControlPanel.deleteTO armed = Some (ControlPanel.grace m + 5000) /\
  ControlPanel.deadline armed = t' + (ControlPanel.grace m + 5000) /\
  ControlPanel.phase armed = ControlPanel.alive /\
  snd (ControlPanel.run p
         [ControlPanel.Click t m; ControlPanel.ArmFires t';
          ControlPanel.DeleteFires])
  = [ControlPanel.CreateSpine; ControlPanel.DeleteSpine] /\
  ControlPanel.phase
    (fst (ControlPanel.run p
            [ControlPanel.Click t m; ControlPanel.ArmFires t';
             ControlPanel.DeleteFires])) = ControlPanel.idle /\
  snd (ControlPanel.run p
         [ControlPanel.Click t m; ControlPanel.ArmFires t';
          ControlPanel.Unmount; ControlPanel.DeleteFires])
  = [ControlPanel.CreateSpine; ControlPanel.DeleteSpine] /\
  snd (ControlPanel.run p
         [ControlPanel.Click t m; ControlPanel.Unmount;
          ControlPanel.ArmFires t'; ControlPanel.DeleteFires]) = [].
Proof.
  intros p Hm Hi.
  assert (Hc0 : ControlPanel.consistent ControlPanel.initial)
    by (split; reflexivity).
  assert (Ht0 : 0 <= ControlPanel.timeLeftMs ControlPanel.initial)
    by (cbn; lra).
  destruct (run_keeps es ControlPanel.initial Hc0 Ht0) as (Hc & _ & _).
  fold p in Hc. unfold ControlPanel.consistent in Hc.
  rewrite Hm, Hi in Hc. destruct Hc as [Harm Hdel].
  destruct p as [ph tl tk arm del dl mt].
  cbn [ControlPanel.phase ControlPanel.mounted ControlPanel.armTO
       ControlPanel.deleteTO] in Hm, Hi, Harm, Hdel.
  subst ph mt arm del. cbn. repeat split.
Qed.

Lemma delayed_spawn_cycle_witness :
  (ControlPanel.mounted (fst (ControlPanel.run ControlPanel.initial one_cycle))
   = true /\
   ControlPanel.phase (fst (ControlPanel.run ControlPanel.initial one_cycle))
   = ControlPanel.idle) /\
  snd (ControlPanel.run
         (fst (ControlPanel.run ControlPanel.initial one_cycle))
         [ControlPanel.Click 8000 SpineRenderer.player;
          ControlPanel.ArmFires 10000; ControlPanel.Unmount;
          ControlPanel.DeleteFires])
  = [ControlPanel.CreateSpine; ControlPanel.DeleteSpine].
Proof.
  assert (Hm : ControlPanel.mounted
                 (fst (ControlPanel.run ControlPanel.initial one_cycle))
               = true) by reflexivity.
  assert (Hi : ControlPanel.phase
                 (fst (ControlPanel.run ControlPanel.initial one_cycle))
               = ControlPanel.idle) by reflexivity.
  split; [split; assumption|].
  exact (proj1 (proj2 (proj2 (proj2 (proj2 (proj2
    (delayed_spawn_cycle one_cycle 8000 10000 SpineRenderer.player
       Hm Hi))))))).
Defined.

(** X24.  The delayed spawn on the page: the timeouts call the
    callbacks of the render in which the button was clicked.  When the
    list was empty at that click, the delete callback sees that empty
    list and does nothing, so the created object stays; when it was not,
    the delete callback drops the last object, which is the created one
    when nothing else changed the list. *)
Theorem delayed_spawn_on_page (clicked : UseSpine.closure)
  (d : UseSpine.draw) (prev : list UseSpine.SpineObject) (t t' : Q)
  (m : SpineRenderer.RenderMode) :
  UseSpine.isLoading clicked = false ->
  UseSpine.animations clicked <> [] ->
  let calls := snd (ControlPanel.run ControlPanel.initial
                      [ControlPanel.Click t m; ControlPanel.ArmFires t';
                       ControlPanel.DeleteFires]) in
  let kept := if UseSpine.isOverlapping clicked then prev else [] in
  (UseSpine.spineObjects clicked = [] ->
   PageWiring.apply_calls clicked d calls prev
   = kept ++ [UseSpine.newObject clicked None d ""]) /\
  (UseSpine.spineObjects clicked <> [] ->
   PageWiring.apply_calls clicked d calls prev = kept).
Proof.
  intros Hl Ha calls kept. subst calls.
  change (snd (ControlPanel.run ControlPanel.initial
                 [ControlPanel.Click t m; ControlPanel.ArmFires t';
                  ControlPanel.DeleteFires]))
    with [ControlPanel.CreateSpine; ControlPanel.DeleteSpine].
  unfold PageWiring.apply_calls. cbn [fold_left PageWiring.apply_call].
  assert (E : UseSpine.createSpineObject clicked 1 None (fun _ => d) prev
              = kept ++ [UseSpine.newObject clicked None d ""]).
  { unfold UseSpine.createSpineObject. rewrite (ready_guard clicked Hl Ha).
    cbn [Z.eqb Pos.eqb]. subst kept.
    now destruct (UseSpine.isOverlapping clicked). }
  rewrite E. unfold UseSpine.deleteSpineObject. cbn [JSString.truthy].
  split.
  - intros ->. reflexivity.
  - intros Hne. destruct (UseSpine.spineObjects clicked); [congruence|].
    cbn [List.length Nat.ltb Nat.leb]. apply removelast_snoc.
Qed.

Lemma delayed_spawn_on_page_witness :
  (UseSpine.isLoading loaded_closure = false /\
   UseSpine.animations loaded_closure <> [] /\
   UseSpine.spineObjects loaded_closure = []) /\
  PageWiring.apply_calls loaded_closure (sample_draw 0)
    (snd (ControlPanel.run ControlPanel.initial
            [ControlPanel.Click 1000 SpineRenderer.player;
             ControlPanel.ArmFires 3000; ControlPanel.DeleteFires]))
    []
  = [UseSpine.newObject loaded_closure None (sample_draw 0) ""].
Proof.
  assert (H1 : UseSpine.isLoading loaded_closure = false) by reflexivity.
  assert (H2 : UseSpine.animations loaded_closure <> []) by discriminate.
  split; [repeat split; assumption|].
  exact (proj1 (delayed_spawn_on_page loaded_closure (sample_draw 0) []
                  1000 3000 SpineRenderer.player H1 H2) eq_refl).
Defined.

(* ------------------------------------------------------------------ *)
(** ** The key of the backend *)

Section Keys.

Lemma string_app_inv_head (a x y : string) :
  (a ++ x)%string = (a ++ y)%string -> x = y.
Proof.
  induction a as [|c a IH]; intros H; [exact H|].
  injection H as H. now apply IH.
Qed.

Lemma string_app_inv_tail (c : string) :
  forall a b : string, (a ++ c)%string = (b ++ c)%string -> a = b.
Proof.
  induction a as [|x a IH]; intros [|y b] E.
  - reflexivity.
  - apply (f_equal String.length) in E.
    cbn [append String.length] in E. rewrite string_length_app in E. lia.
  - apply (f_equal String.length) in E.
    cbn [append String.length] in E. rewrite string_length_app in E. lia.
  - cbn [append] in E. injection E as -> E. f_equal. now apply IH.
Qed.

End Keys.

(** X25.  The key that [SpineRenderer] gives its backend differs before
    and after the fallback of a WebGL preview, whatever the paths, so
    the backend is mounted afresh at the switch; it is the same before
    and after for a preview that is in player mode anyway; and under one
    mode and one atlas path, two skeleton paths with the same key are
    the same path. *)
Theorem renderer_key_changes (skeletonPath atlasPath : string)
  (autoFallback : bool) :
  SpineRenderer.key
    (SpineRenderer.mkProps SpineRenderer.webgl autoFallback
       skeletonPath atlasPath) (SpineRenderer.mkState false)
  <> SpineRenderer.key
       (SpineRenderer.mkProps SpineRenderer.webgl autoFallback
          skeletonPath atlasPath) (SpineRenderer.mkState true) /\
  SpineRenderer.key
    (SpineRenderer.mkProps SpineRenderer.player autoFallback
       skeletonPath atlasPath) (SpineRenderer.mkState false)
  = SpineRenderer.key
      (SpineRenderer.mkProps SpineRenderer.player autoFallback
         skeletonPath atlasPath) (SpineRenderer.mkState true) /\
  (forall (m : SpineRenderer.RenderMode) (st : SpineRenderer.state)
          (other : string),
     SpineRenderer.key
       (SpineRenderer.mkProps m autoFallback skeletonPath atlasPath) st
     = SpineRenderer.key
         (SpineRenderer.mkProps m autoFallback other atlasPath) st ->
     skeletonPath = other).
Proof.
  split; [|split].
  - cbn. discriminate.
  - reflexivity.
  - intros m st other E. unfold SpineRenderer.key in E.
    cbn [SpineRenderer.renderMode SpineRenderer.skeletonPath
         SpineRenderer.atlasPath] in E.
    apply string_app_inv_head in E. cbn [append] in E. injection E as E.
    exact (string_app_inv_tail _ _ _ E).
Qed.
